(** * The HHVM exception unwinder (hphp/runtime/vm/unwind.cpp)

    A shallow embedding of the unwinder: the handler resolver
    [checkHandlers], the frame tearer [tearDownFrame], the exception
    chainer [chainFaultObjects] / [chainFaults] and the two drivers
    [unwindPhp] and [unwindCpp], followed by the properties of the
    specification that concern them.

    Conventions.
    - Pointers are identities: an [ActRec*] is a [FrameId] looked up in the
      frame store, an [ObjectData*] an [Addr] looked up in the object
      store; a pointer that may be [nullptr] is an [option].
    - [std::vector<Fault> m_faults] is a list whose HEAD is [back()].
    - Calls into collaborators whose code is not part of unwind.cpp (the
      evaluation stack, reference counting, wait handles, generators) are
      recorded, in program order, in the trace of the machine state; the
      answers such calls give back are fields of the class [Runtime].
    - The frame store and the object store hold what unwind.cpp itself
      reads and writes: the latch of a frame, the no-destruct mark and the
      [previous] slot of an object.  What a collaborator does to a frame or
      an object (popping a frame, creating or freeing an object, failing a
      wait handle) is in the trace and nowhere else. *)

From stdpp Require Import base option list gmap sets.
From Stdlib Require Import ZArith Lia.

Local Open Scope Z_scope.

(** ** Data model *)

Definition Offset := Z.
Definition FrameId := nat.
Definition Addr := nat.
Definition FuncId := nat.
Definition Op := nat.

(** [EHEnt::Type] and the fields of [EHEnt] that unwind.cpp reads. *)
Inductive EHEntType := Catch | Fault.

Record EHEnt := mkEHEnt {
  m_type : EHEntType;
  m_handler : Offset;
  m_parentIndex : Z
}.

Inductive UnwindAction := Propagate | ResumeVM.

(** [struct Fault] (the record is named [FaultRec] because [Fault] is the
    handler kind above). *)
Record FaultRec := mkFault {
  m_userException : option Addr;
  m_raiseNesting : Z;
  m_raiseFrame : option FrameId;
  m_raiseOffset : Offset;
  m_handledCount : Z
}.

Definition set_handledCount (f : FaultRec) (n : Z) : FaultRec :=
  mkFault (m_userException f) (m_raiseNesting f) (m_raiseFrame f)
          (m_raiseOffset f) n.

Record Unit := mkUnit {
  unit_id : nat;
  getOp : Offset -> Op
}.

(** A [PC] is a pointer into the bytecode of a unit; [nullptr] is [None]. *)
Record PCval := mkPC { pc_unit : Unit; pc_off : Offset }.
Definition PC := option PCval.

Definition unit_at (u : Unit) (off : Offset) : PC := Some (mkPC u off).

Record Class := mkClass {
  getCtor : option FuncId;
  getDtor : option FuncId
}.

Record Func := mkFunc {
  func_id : FuncId;
  func_unit : Unit;
  cls : option Class;
  numLocals : nat;
  numSlotsInFrame : nat;
  numClsRefSlots : nat;
  base : Offset;
  ehtab : list EHEnt;
  isAsyncFunction : bool;
  isAsyncGenerator : bool;
  isNonAsyncGenerator : bool
}.

Record ActRec := mkActRec {
  m_func : Func;
  sfp : option FrameId;
  m_soff : Offset;
  m_this : option Addr;
  resumed : bool;
  localsDecRefd : bool;
  isFCallAwait : bool
}.

Definition setLocalsDecRefd (ar : ActRec) : ActRec :=
  mkActRec (m_func ar) (sfp ar) (m_soff ar) (m_this ar) (resumed ar) true
           (isFCallAwait ar).

(** The value held by a property slot, as far as the chainer looks at it. *)
Inductive TypedValue :=
| KindOfUninit
| KindOfNull
| KindOfInt64 (n : Z)
| KindOfObject (pobj : Addr).

Record ObjectData := mkObj {
  getVMClass : Class;
  instanceofThrowable : bool;
  noDestruct : bool;
  prop_previous : TypedValue
}.

Definition setNoDestruct_obj (o : ObjectData) : ObjectData :=
  mkObj (getVMClass o) (instanceofThrowable o) true (prop_previous o).

Definition set_previous (o : ObjectData) (v : TypedValue) : ObjectData :=
  mkObj (getVMClass o) (instanceofThrowable o) (noDestruct o) v.

(** ** Handler resolver

    [INT_MAX] bounds [m_handledCount], an [int]: incrementing it there is
    undefined. *)
Definition INT_MAX : Z := 2147483647.

Inductive Lookup (A : Type) :=
| Found (a : A)
| Undefined
| NoFuel.
Arguments Found {A} a.
Arguments Undefined {A}.
Arguments NoFuel {A}.

(** The body of [for (int i = 0;; ++i)] in [checkHandlers]; [pc] is passed
    by reference in the source and returned here. *)
Fixpoint checkHandlers_loop (fuel : nat) (func : Func) (eh : EHEnt) (i : Z)
    (pc : PC) (fault : FaultRec) : Lookup (UnwindAction * PC * FaultRec) :=
  match fuel with
  | O => NoFuel
  | S fuel' =>
    if m_handledCount fault <=? i then
      if m_handledCount fault =? INT_MAX then Undefined
      else
        let fault' := set_handledCount fault (m_handledCount fault + 1) in
        match m_type eh with
        | Fault => Found (ResumeVM, unit_at (func_unit func) (m_handler eh), fault')
        | Catch => Found (ResumeVM, unit_at (func_unit func) (m_handler eh), fault')
        end
    else if negb (m_parentIndex eh =? -1) then
      if m_parentIndex eh <? 0 then Undefined
      else
        match ehtab func !! Z.to_nat (m_parentIndex eh) with
        | Some eh' => checkHandlers_loop fuel' func eh' (i + 1) pc fault
        | None => Undefined
        end
    else Found (Propagate, pc, fault)
  end.

(** The loop runs at most [m_handledCount + 1] times. *)
Definition checkHandlers (func : Func) (eh : EHEnt) (pc : PC)
    (fault : FaultRec) : Lookup (UnwindAction * PC * FaultRec) :=
  checkHandlers_loop (S (Z.to_nat (m_handledCount fault))) func eh 0 pc fault.

(** The [k]-th entry of the [m_parentIndex] chain that starts at [eh]
    ([k = 0] is [eh] itself); [None] when the chain ends earlier. *)
Fixpoint chainEntry (tab : list EHEnt) (eh : EHEnt) (k : nat) : option EHEnt :=
  match k with
  | O => Some eh
  | S k' =>
    if m_parentIndex eh <? 0 then None
    else match tab !! Z.to_nat (m_parentIndex eh) with
         | Some eh' => chainEntry tab eh' k'
         | None => None
         end
  end.

(** Every parent index is the sentinel [-1] or an index of the table. *)
Definition eh_wf (tab : list EHEnt) (eh : EHEnt) : bool :=
  (m_parentIndex eh =? -1)
  || ((0 <=? m_parentIndex eh) && (m_parentIndex eh <? Z.of_nat (length tab))).

Definition ehtab_wf (tab : list EHEnt) : bool := forallb (eh_wf tab) tab.

(** The resolver as the specification words it: the first
    [handledCount - 1] entries of the chain are skipped and the next one
    is the candidate. *)
Definition spec_checkHandlers (func : Func) (eh : EHEnt) (pc : PC)
    (fault : FaultRec) : UnwindAction * PC * FaultRec :=
  match chainEntry (ehtab func) eh (Z.to_nat (m_handledCount fault - 1)) with
  | Some c => (ResumeVM, unit_at (func_unit func) (m_handler c),
               set_handledCount fault (m_handledCount fault + 1))
  | None => (Propagate, pc, fault)
  end.

(** ** Machine state *)

(** What escapes as a C++ exception: [throw_object] of a guest throwable,
    or a host exception. *)
Inductive Thrown :=
| ThrowObject (o : option Addr)
| ThrowCpp (e : nat).

(** One entry of the evaluation stack as [visitStackElems] reports it: a
    pre-live activation record with the offset of its FPush opcode, or a
    typed value. *)
Inductive StackElem :=
| PreLiveAR (this : option Addr) (pushOff : Offset)
| StackTV.

(** Calls into collaborators, in program order. *)
Inductive Event :=
| EvPopAR
| EvPopTV
| EvTrashClsRef (fp : FrameId) (i : nat)
| EvMemberTVRefsReleased
| EvSetNoDestruct (o : Addr)
| EvFreeLocalsUnwind (fp : FrameId) (n : nat) (exn : option Addr)
| EvCreateFailed (exn : Addr)
| EvNDiscard (n : nat)
| EvRet
| EvDiscardAR
| EvRetSlotWaitHandle (fp : FrameId)
| EvAfwhFail (fp : FrameId) (exn : Addr)
| EvAfwhFailCpp (fp : FrameId)
| EvDecRefWaitHandle (fp : FrameId)
| EvAsyncGenFail (fp : FrameId) (exn : Addr)
| EvAsyncGenFailCpp (fp : FrameId)
| EvPushObjectNoRc (o : Addr)
| EvGeneratorFail (fp : FrameId)
| EvDecRefObj (o : Addr)
| EvIncRefCount (o : Addr).

Record VM := mkVM {
  vmfp : option FrameId;
  vmpc : PC;
  frames : gmap FrameId ActRec;
  heap : gmap Addr ObjectData;
  m_faults : list FaultRec;
  m_nestedVMs_size : nat;
  m_unwindingCppException : bool;
  m_pendingException : bool;
  trace : list Event
}.

Definition with_vmfp (s : VM) (x : option FrameId) : VM :=
  mkVM x (vmpc s) (frames s) (heap s) (m_faults s) (m_nestedVMs_size s)
       (m_unwindingCppException s) (m_pendingException s) (trace s).
Definition with_vmpc (s : VM) (x : PC) : VM :=
  mkVM (vmfp s) x (frames s) (heap s) (m_faults s) (m_nestedVMs_size s)
       (m_unwindingCppException s) (m_pendingException s) (trace s).
Definition with_frames (s : VM) (x : gmap FrameId ActRec) : VM :=
  mkVM (vmfp s) (vmpc s) x (heap s) (m_faults s) (m_nestedVMs_size s)
       (m_unwindingCppException s) (m_pendingException s) (trace s).
Definition with_heap (s : VM) (x : gmap Addr ObjectData) : VM :=
  mkVM (vmfp s) (vmpc s) (frames s) x (m_faults s) (m_nestedVMs_size s)
       (m_unwindingCppException s) (m_pendingException s) (trace s).
Definition with_faults (s : VM) (x : list FaultRec) : VM :=
  mkVM (vmfp s) (vmpc s) (frames s) (heap s) x (m_nestedVMs_size s)
       (m_unwindingCppException s) (m_pendingException s) (trace s).
Definition with_unwindingCpp (s : VM) (x : bool) : VM :=
  mkVM (vmfp s) (vmpc s) (frames s) (heap s) (m_faults s) (m_nestedVMs_size s)
       x (m_pendingException s) (trace s).
Definition with_trace (s : VM) (x : list Event) : VM :=
  mkVM (vmfp s) (vmpc s) (frames s) (heap s) (m_faults s) (m_nestedVMs_size s)
       (m_unwindingCppException s) (m_pendingException s) x.

(** Why a run stops without returning or throwing: an [assertx] or
    [always_assert] of the given source line failed, [not_reached()], or
    the program did something C++ leaves undefined (a null or dangling
    pointer was dereferenced, [back()] of an empty vector). *)
Inductive AbortReason :=
| AssertFailed (line : nat)
| NotReached
| UndefinedBehaviour.

Inductive Outcome (A : Type) :=
| Ret (a : A) (s : VM)
| Throw (x : Thrown) (s : VM)
| Abort (r : AbortReason)
| Timeout.
Arguments Ret {A} a s.
Arguments Throw {A} x s.
Arguments Abort {A} r.
Arguments Timeout {A}.

(** The unwinder's monad: state, C++ exceptions, aborts. *)
Definition M (A : Type) := VM -> Outcome A.

Definition ret {A} (a : A) : M A := fun s => Ret a s.

Definition bind {A B} (m : M A) (k : A -> M B) : M B :=
  fun s => match m s with
           | Ret a s' => k a s'
           | Throw x s' => Throw x s'
           | Abort r => Abort r
           | Timeout => Timeout
           end.

Notation "'let*' x ':=' m 'in' k" := (bind m (fun x => k))
  (at level 10, x name, m at level 100, k at level 200).
Notation "m ';;' k" := (bind m (fun _ => k))
  (at level 100, k at level 200, right associativity, only parsing).

Definition gets {A} (f : VM -> A) : M A := fun s => Ret (f s) s.
Definition modify (f : VM -> VM) : M unit := fun s => Ret tt (f s).
Definition abort {A} (r : AbortReason) : M A := fun _ => Abort r.
Definition throw {A} (x : Thrown) : M A := fun s => Throw x s.
Definition timeout {A} : M A := fun _ => Timeout.
Definition emit (e : Event) : M unit :=
  modify (fun s => with_trace s (trace s ++ [e])).

Definition always_assert (b : bool) (line : nat) : M unit :=
  if b then ret tt else abort (AssertFailed line).

(** [try { m } catch (...) {}] *)
Definition try_catch_all (m : M unit) : M unit :=
  fun s => match m s with
           | Throw _ s' => Ret tt s'
           | o => o
           end.

(** [SCOPE_EXIT { cleanup }; body]: the cleanup runs when the scope is
    left, by return or by exception. *)
Definition scope_exit {A} (cleanup : M unit) (body : M A) : M A :=
  fun s => match body s with
           | Ret a s' => bind cleanup (fun _ => ret a) s'
           | Throw x s' => bind cleanup (fun _ => throw x) s'
           | Abort r => Abort r
           | Timeout => Timeout
           end.

Definition deref {A} (o : option A) : M A :=
  match o with
  | Some a => ret a
  | None => abort UndefinedBehaviour
  end.

Definition getFrame (fp : FrameId) : M ActRec :=
  let* fs := gets frames in deref (fs !! fp).

Definition getObj (o : Addr) : M ObjectData :=
  let* h := gets heap in deref (h !! o).

Definition putFrame (fp : FrameId) (ar : ActRec) : M unit :=
  modify (fun s => with_frames s (<[fp := ar]> (frames s))).

Definition putObj (o : Addr) (d : ObjectData) : M unit :=
  modify (fun s => with_heap s (<[o := d]> (heap s))).

(** [obj->setNoDestruct()] *)
Definition setNoDestruct (o : Addr) : M unit :=
  let* d := getObj o in
  putObj o (setNoDestruct_obj d);;
  emit (EvSetNoDestruct o).

(** [decRefObj(obj)]; the argument is dereferenced. *)
Definition decRefObj (o : option Addr) : M unit :=
  let* a := deref o in emit (EvDecRefObj a).

(** [peek_op(pc)] *)
Definition peek_op (pc : PC) : M Op :=
  let* p := deref pc in ret (getOp (pc_unit p) (pc_off p)).

(** [unit->offsetOf(pc)] *)
Definition offsetOf (pc : PC) : M Offset :=
  let* p := deref pc in ret (pc_off p).

(** ** Collaborators

    Constants, predicates and routines that unwind.cpp uses and other
    files of the runtime define.  The routines that can run guest code
    ([frame_free_locals_unwind], [Stack::popTV]) may raise: the field says
    whether the call made in the given state does. *)
Class Runtime := {
  kInvalidOffset : Offset;
  kInvalidNesting : Z;
  OpRetC : Op;
  isFPushCtor : Op -> bool;
  isMemberDimOp : Op -> bool;
  isMemberFinalOp : Op -> bool;
  debug : bool;
  findEH : Func -> Offset -> option EHEnt;
  findPrecedingFPI : Func -> Offset -> option Offset;
  getPrevVMState : VM -> FrameId -> option (FrameId * Offset);
  visitStackElems : VM -> FrameId -> Offset -> list StackElem;
  stack_isValidAddress : VM -> FrameId -> bool;
  popTV_raises : VM -> option Thrown;
  frame_free_locals_unwind_raises : VM -> FrameId -> option Thrown;
  afwh_isRunning : VM -> FrameId -> bool;
  asyncgen_fail_eagerResult : VM -> FrameId -> option Addr;
  asyncgen_isEagerlyExecuted : VM -> FrameId -> bool;
  asyncgen_waitHandle_isRunning : VM -> FrameId -> bool
}.

Section Unwinder.
Context {RT : Runtime}.

(** [assertx(b)]: checked in debug builds only. *)
Definition assertx (b : bool) (line : nat) : M unit :=
  if debug && negb b then abort (AssertFailed line) else ret tt.

(** ** Temporary disposer *)

(** [stack.popTV()]: releases the value, which can run a destructor. *)
Definition popTV : M unit :=
  emit EvPopTV;;
  let* r := gets popTV_raises in
  match r with
  | Some x => throw x
  | None => ret tt
  end.

Fixpoint discardStackElems (func : Func) (elems : list StackElem) : M unit :=
  match elems with
  | [] => ret tt
  | PreLiveAR this pushOff :: rest =>
    (if isFPushCtor (getOp (func_unit func) pushOff) then
       assertx (bool_decide (is_Some this)) 88;;
       let* o := deref this in
       setNoDestruct o
     else ret tt);;
    emit EvPopAR;;
    discardStackElems func rest
  | StackTV :: rest =>
    popTV;;
    discardStackElems func rest
  end.

Fixpoint trashClsRefSlots (fp : FrameId) (i : nat) (n : nat) : M unit :=
  match n with
  | O => ret tt
  | S n' => emit (EvTrashClsRef fp i);; trashClsRefSlots fp (S i) n'
  end.

Definition discardStackTemps (fp : FrameId) (bcOffset : Offset) : M unit :=
  let* ar := getFrame fp in
  let* elems := gets (fun s => visitStackElems s fp bcOffset) in
  discardStackElems (m_func ar) elems;;
  if debug then trashClsRefSlots fp 0 (numClsRefSlots (m_func ar))
  else ret tt.

Definition discardMemberTVRefs (pc : PC) : M unit :=
  let* throwOp := peek_op pc in
  if isMemberDimOp throwOp || isMemberFinalOp throwOp
  then emit EvMemberTVRefsReleased
  else ret tt.

(** ** Frame tearer *)

(** [frame_free_locals_unwind(fp, numLocals, phpException)] *)
Definition frame_free_locals_unwind (fp : FrameId) (n : nat)
    (phpException : option Addr) : M unit :=
  emit (EvFreeLocalsUnwind fp n phpException);;
  let* r := gets (fun s => frame_free_locals_unwind_raises s fp) in
  match r with
  | Some x => throw x
  | None => ret tt
  end.

(** The lambda [decRefLocals] of [tearDownFrame]. *)
Definition decRefLocals (fp : FrameId) (func : Func)
    (phpException : option Addr) : M unit :=
  let* ar := getFrame fp in
  if negb (localsDecRefd ar) then
    putFrame fp (setLocalsDecRefd ar);;
    try_catch_all (frame_free_locals_unwind fp (numLocals func) phpException)
  else ret tt.

(** The condition of the [if] at line 198, evaluated left to right: the
    receiver is dereferenced only when the tests before it hold. *)
Definition ctorGuardCond (curOp : Op) (ar : ActRec) (func : Func)
    : M bool :=
  if negb (Nat.eqb curOp OpRetC)
     && negb (localsDecRefd ar)
     && bool_decide (is_Some (cls (m_func ar)))
     && bool_decide (is_Some (m_this ar))
  then
    let* this := deref (m_this ar) in
    let* o := getObj this in
    ret (bool_decide (getCtor (getVMClass o) = Some (func_id func))
         && bool_decide (is_Some (getDtor (getVMClass o))))
  else ret false.

(** The test of the FPI region of the caller, lines 208-215. *)
Definition calledByFPushCtor (fp : FrameId) : M bool :=
  let* outer := gets (fun s => getPrevVMState s fp) in
  match outer with
  | Some (outerFp, prevPc) =>
    let* oar := getFrame outerFp in
    match findPrecedingFPI (m_func oar) prevPc with
    | Some fpushOff =>
      ret (isFPushCtor (getOp (func_unit (m_func oar)) fpushOff))
    | None => ret false
    end
  | None => ret false
  end.

Definition ctorGuard (fp : FrameId) (curOp : Op) (ar : ActRec) (func : Func)
    : M unit :=
  let* c := ctorGuardCond curOp ar func in
  if c then
    let* viaCtor := calledByFPushCtor fp in
    if viaCtor then
      let* this := deref (m_this ar) in setNoDestruct this
    else ret tt
  else ret tt.

(** The chain of [if]s on the kind of frame, lines 249-305; the result is
    the value of [phpException] afterwards.  The [assertx] of line 260
    compares two addresses of the evaluation stack, which is not part of
    the machine state: it has no counterpart here. *)
Definition tearDownKind (fp : FrameId) (ar : ActRec) (func : Func)
    (phpException : option Addr) : M (option Addr) :=
  if negb (resumed ar) then
    decRefLocals fp func phpException;;
    let* ar' := getFrame fp in
    match phpException with
    | Some exn =>
      if isAsyncFunction func && negb (isFCallAwait ar') then
        emit (EvCreateFailed exn);;
        emit (EvNDiscard (numSlotsInFrame func));;
        emit EvRet;;
        emit (EvRetSlotWaitHandle fp);;
        ret None
      else
        emit (EvNDiscard (numSlotsInFrame func));;
        emit EvDiscardAR;;
        ret phpException
    | None =>
      emit (EvNDiscard (numSlotsInFrame func));;
      emit EvDiscardAR;;
      ret phpException
    end
  else if isAsyncFunction func then
    match phpException with
    | Some exn =>
      decRefLocals fp func phpException;;
      emit (EvAfwhFail fp exn);;
      emit (EvDecRefWaitHandle fp);;
      ret None
    | None =>
      let* running := gets (fun s => afwh_isRunning s fp) in
      if running then
        decRefLocals fp func phpException;;
        emit (EvAfwhFailCpp fp);;
        emit (EvDecRefWaitHandle fp);;
        ret phpException
      else ret phpException
    end
  else if isAsyncGenerator func then
    match phpException with
    | Some exn =>
      decRefLocals fp func phpException;;
      let* eagerResult := gets (fun s => asyncgen_fail_eagerResult s fp) in
      emit (EvAsyncGenFail fp exn);;
      match eagerResult with
      | Some r => emit (EvPushObjectNoRc r);; ret None
      | None => ret None
      end
    | None =>
      let* eager := gets (fun s => asyncgen_isEagerlyExecuted s fp) in
      let* running :=
        (if eager then ret true
         else gets (fun s => asyncgen_waitHandle_isRunning s fp)) in
      if running then
        decRefLocals fp func phpException;;
        emit (EvAsyncGenFailCpp fp);;
        ret phpException
      else ret phpException
    end
  else if isNonAsyncGenerator func then
    decRefLocals fp func phpException;;
    emit (EvGeneratorFail fp);;
    ret phpException
  else abort NotReached.

(** [tearDownFrame(fp, stack, pc, phpException)], called with [vmfp()] and
    [vmpc()] for the references [fp] and [pc]. *)
Definition tearDownFrame (phpException : option Addr) : M (option Addr) :=
  let* fpo := gets vmfp in
  let* fp := deref fpo in
  let* ar := getFrame fp in
  let func := m_func ar in
  let* pc := gets vmpc in
  let* curOp := peek_op pc in
  let prevFp := sfp ar in
  let soff := m_soff ar in
  ctorGuard fp curOp ar func;;
  let* phpException' := tearDownKind fp ar func phpException in
  match prevFp with
  | None =>
    modify (fun s => with_vmpc s None);;
    modify (fun s => with_vmfp s None);;
    ret phpException'
  | Some p =>
    let* par := getFrame p in
    let* valid := gets (fun s => stack_isValidAddress s p) in
    assertx (valid || resumed par) 316;;
    let prevOff := soff + base (m_func par) in
    modify (fun s => with_vmpc s (unit_at (func_unit (m_func par)) prevOff));;
    modify (fun s => with_vmfp s (Some p));;
    ret phpException'
  end.

(** ** Exception chainer *)

(** What the lambda [findAcyclicPrev] returns: the null [member_lval]
    after a revisit, or the [previous] slot of the object [owner]; in both
    cases with the set [seen] as it has become. *)
Inductive Walk :=
| WalkCycle (seen : gset Addr)
| WalkSlot (owner : Addr) (seen : gset Addr)
| WalkAbort (r : AbortReason)
| WalkNoFuel.

(** The [do ... while] of [findAcyclicPrev].  [is_throwable] (Error or
    Exception) and [instanceof(s_ThrowableClass)] are the one flag
    [instanceofThrowable].  The call to [decRefObj(prev)] on a revisit is
    made by [chainFaultObjects] below on [WalkCycle]. *)
Fixpoint findAcyclicPrev (fuel : nat) (h : gmap Addr ObjectData)
    (seen : gset Addr) (head : Addr) : Walk :=
  match fuel with
  | O => WalkNoFuel
  | S fuel' =>
    match h !! head with
    | None => WalkAbort UndefinedBehaviour
    | Some o =>
      if debug && negb (instanceofThrowable o) then WalkAbort (AssertFailed 357)
      else if bool_decide (head ∈ seen) then WalkCycle seen
      else
        let seen' := {[head]} ∪ seen in
        match prop_previous o with
        | KindOfUninit =>
          if debug then WalkAbort (AssertFailed 365) else WalkSlot head seen'
        | KindOfObject p =>
          match h !! p with
          | None => WalkAbort UndefinedBehaviour
          | Some po =>
            if instanceofThrowable po then findAcyclicPrev fuel' h seen' p
            else WalkSlot head seen'
          end
        | _ => WalkSlot head seen'
        end
    end
  end.

(** [chainFaultObjects(top, prev)].  Every round of the walk puts a new
    object of the store into [seen], so [size heap + 1] rounds are enough.
    [tvSetIgnoreRef] is the store into the slot. *)
Definition chainFaultObjects (top prev : Addr) : M unit :=
  let* h := gets heap in
  let fuel := S (size h) in
  match findAcyclicPrev fuel h ∅ top with
  | WalkCycle _ => decRefObj (Some prev)
  | WalkSlot owner seen =>
    match findAcyclicPrev fuel h seen prev with
    | WalkCycle _ => decRefObj (Some prev)
    | WalkSlot _ _ =>
      let* o := getObj owner in
      putObj owner (set_previous o (KindOfObject prev))
    | WalkAbort r => abort r
    | WalkNoFuel => timeout
    end
  | WalkAbort r => abort r
  | WalkNoFuel => timeout
  end.

(** [faults.pop_back()] *)
Definition faults_pop_back : M unit :=
  let* fs := gets m_faults in
  match fs with
  | [] => abort UndefinedBehaviour
  | _ :: rest => modify (fun s => with_faults s rest)
  end.

(** [faults.push_back(f)] *)
Definition faults_push_back (f : FaultRec) : M unit :=
  modify (fun s => with_faults s (f :: m_faults s)).

(** [faults.back() = f] *)
Definition faults_set_back (f : FaultRec) : M unit :=
  let* fs := gets m_faults in
  match fs with
  | [] => abort UndefinedBehaviour
  | _ :: rest => modify (fun s => with_faults s (f :: rest))
  end.

(** [chainFaults(fault)]; [fault] is passed by reference and returned. *)
Definition chainFaults (fault : FaultRec) : M (bool * FaultRec) :=
  let* fs := gets m_faults in
  always_assert (negb (bool_decide (fs = []))) 381;;
  faults_pop_back;;
  let* fs1 := gets m_faults in
  match fs1 with
  | [] => faults_push_back fault;; ret (false, fault)
  | prev :: _ =>
    if (m_raiseNesting fault =? m_raiseNesting prev)
       && bool_decide (m_raiseFrame fault = m_raiseFrame prev)
    then
      let fault' := mkFault (m_userException fault) (m_raiseNesting fault)
                            (m_raiseFrame fault) (m_raiseOffset prev)
                            (m_handledCount prev) in
      let* top := deref (m_userException fault') in
      let* prv := deref (m_userException prev) in
      chainFaultObjects top prv;;
      faults_pop_back;;
      faults_push_back fault';;
      ret (true, fault')
    else
      faults_push_back fault;; ret (false, fault)
  end.

(** ** Guest-exception driver *)

(** Which [return] of [unwindPhp] was taken: the one after a handler was
    found (line 517) or the one after the frame tearer consumed the
    exception (line 534). *)
Inductive UnwindExit := EnteredHandler | ExceptionConsumed.

(** Lines 451-470: a fault whose raise offset is unbound is bound to the
    current frame.  The second component is [discard]. *)
Definition bindFault (fault : FaultRec) : M (FaultRec * bool) :=
  if m_raiseOffset fault =? kInvalidOffset then
    always_assert (m_raiseNesting fault =? kInvalidNesting) 459;;
    let* nesting := gets m_nestedVMs_size in
    let* fpo := gets vmfp in
    let* fp := deref fpo in
    let* _ar := getFrame fp in
    let* pc := gets vmpc in
    let* off := offsetOf pc in
    ret (mkFault (m_userException fault) (Z.of_nat nesting) (Some fp) off 0,
         true)
  else ret (fault, false).

(** The test of line 503, left to right: the frame is looked at only when
    no host exception is pending. *)
Definition searchSkipped : M bool :=
  let* pending := gets m_pendingException in
  if pending then ret true
  else
    let* fpo := gets vmfp in
    let* fp := deref fpo in
    let* ar := getFrame fp in
    ret (localsDecRefd ar).

(** One pass of the body of the inner [do ... while (chainFaults(fault))],
    lines 503-521: [None] is the [return] of line 517, [Some fault] reaches
    the loop condition (by [continue], by [break], or with no handler). *)
Definition handlerSearch (fault : FaultRec) : M (option FaultRec) :=
  let* skip := searchSkipped in
  if skip then ret (Some fault)
  else
    let* fpo := gets vmfp in
    let* fp := deref fpo in
    let* ar := getFrame fp in
    match findEH (m_func ar) (m_raiseOffset fault) with
    | Some eh =>
      let* pc := gets vmpc in
      match checkHandlers (m_func ar) eh pc fault with
      | Found (ResumeVM, pc', fault') =>
        modify (fun s => with_vmpc s pc');;
        faults_set_back fault';;
        ret None
      | Found (Propagate, pc', fault') =>
        modify (fun s => with_vmpc s pc');;
        ret (Some fault')
      | Undefined => abort UndefinedBehaviour
      | NoFuel => timeout
      end
    | None => ret (Some fault)
    end.

Fixpoint handlerLoop (fuel : nat) (fault : FaultRec) : M (option FaultRec) :=
  match fuel with
  | O => timeout
  | S fuel' =>
    let* r := handlerSearch fault in
    match r with
    | None => ret None
    | Some fault1 =>
      let* mf := chainFaults fault1 in
      if fst mf then handlerLoop fuel' (snd mf) else ret (Some (snd mf))
    end
  end.

(** One pass of the body of the outer [do ... while (fp)], lines 450-545:
    [inl e] is a [return], [inr fault] reaches the loop condition.  Every
    merge of the inner loop shortens [m_faults], which bounds its rounds. *)
Definition unwindPhp_frame (fault : FaultRec) : M (UnwindExit + FaultRec) :=
  let* fd := bindFault fault in
  let fault := fst fd in
  let discard := snd fd in
  assertx (negb (m_raiseNesting fault =? kInvalidNesting)) 477;;
  assertx (bool_decide (is_Some (m_raiseFrame fault))) 478;;
  assertx (negb (m_raiseOffset fault =? kInvalidOffset)) 479;;
  let* fpo := gets vmfp in
  let* fp := deref fpo in
  (if discard then discardStackTemps fp (m_raiseOffset fault) else ret tt);;
  let* fs := gets m_faults in
  let* r := handlerLoop (S (length fs)) fault in
  match r with
  | None => ret (inl EnteredHandler)
  | Some fault =>
    let* e := tearDownFrame (m_userException fault) in
    match e with
    | None => faults_pop_back;; ret (inl ExceptionConsumed)
    | Some _ =>
      let fault := mkFault e kInvalidNesting None kInvalidOffset 0 in
      faults_set_back fault;;
      ret (inr fault)
    end
  end.

Fixpoint unwindPhp_loop (fuel : nat) (fault : FaultRec) : M UnwindExit :=
  match fuel with
  | O => timeout
  | S fuel' =>
    let* r := unwindPhp_frame fault in
    match r with
    | inl e => ret e
    | inr fault' =>
      let* fpo := gets vmfp in
      match fpo with
      | Some _ => unwindPhp_loop fuel' fault'
      | None =>
        faults_pop_back;;
        throw (ThrowObject (m_userException fault'))
      end
    end
  end.

(** [unwindPhp()]; [fuel] bounds the number of frames visited. *)
Definition unwindPhp (fuel : nat) : M UnwindExit :=
  let* fs := gets m_faults in
  assertx (negb (bool_decide (fs = []))) 436;;
  let* fault := deref (head fs) in
  let* pc := gets vmpc in
  discardMemberTVRefs pc;;
  unwindPhp_loop fuel fault.

(** [unwindPhp(ObjectData* phpException)]; the fresh record is [Fault()]. *)
Definition unwindPhp_obj (fuel : nat) (phpException : option Addr)
    : M UnwindExit :=
  let fault := mkFault phpException kInvalidNesting None kInvalidOffset 0 in
  let* o := deref phpException in
  emit (EvIncRefCount o);;
  faults_push_back fault;;
  unwindPhp fuel.

(** ** Host-exception driver *)

(** The test of lines 605-606 on one record. *)
Definition faultPinned (fp : FrameId) (nesting : nat) (f : FaultRec) : bool :=
  bool_decide (m_raiseFrame f = Some fp)
  && (m_raiseNesting f =? Z.of_nat nesting).

(** The [while] of lines 604-609 over the records from [back()] down. *)
Fixpoint discardFrameFaults (fs : list FaultRec) (fp : FrameId) : M unit :=
  match fs with
  | [] => ret tt
  | f :: rest =>
    let* nesting := gets m_nestedVMs_size in
    if faultPinned fp nesting f then
      decRefObj (m_userException f);;
      faults_pop_back;;
      discardFrameFaults rest fp
    else ret tt
  end.

(** One pass of the body of [do ... while (fp)], lines 595-616. *)
Definition unwindCpp_frame : M unit :=
  let* fpo := gets vmfp in
  let* fp := deref fpo in
  let* ar := getFrame fp in
  let* pc := gets vmpc in
  let* offset := offsetOf pc in
  let* fs := gets m_faults in
  discardFrameFaults fs fp;;
  discardStackTemps fp offset;;
  let* phpException := tearDownFrame None in
  assertx (bool_decide (phpException = None)) 616.

Fixpoint unwindCpp_loop (fuel : nat) : M unit :=
  match fuel with
  | O => timeout
  | S fuel' =>
    unwindCpp_frame;;
    let* fpo := gets vmfp in
    match fpo with
    | Some _ => unwindCpp_loop fuel'
    | None => ret tt
    end
  end.

(** The block of [SCOPE_EXIT], lines 586-587. *)
Definition unwindCpp_exit : M unit :=
  let* flag := gets m_unwindingCppException in
  assertx flag 586;;
  modify (fun s => with_unwindingCpp s false).

(** Lines 592-620, which run with the flag set. *)
Definition unwindCpp_body (fuel : nat) (exception : nat) : M unit :=
  let* pc := gets vmpc in
  discardMemberTVRefs pc;;
  unwindCpp_loop fuel;;
  throw (ThrowCpp exception).

(** [unwindCpp(exception)]; [fuel] bounds the number of frames visited. *)
Definition unwindCpp (fuel : nat) (exception : nat) : M unit :=
  let* flag := gets m_unwindingCppException in
  assertx (negb flag) 581;;
  modify (fun s => with_unwindingCpp s true);;
  scope_exit unwindCpp_exit (unwindCpp_body fuel exception).

End Unwinder.

(** ** Reasoning about runs

    [wp m Q E B T s]: the run of [m] from [s] ends in a return that
    satisfies [Q], a throw that satisfies [E], an abort whose reason
    satisfies [B], or, when [T] holds, out of fuel. *)
Definition wp {A} (m : M A) (Q : A -> VM -> Prop) (E : Thrown -> VM -> Prop)
    (B : AbortReason -> Prop) (T : Prop) (s : VM) : Prop :=
  match m s with
  | Ret a s' => Q a s'
  | Throw x s' => E x s'
  | Abort r => B r
  | Timeout => T
  end.

(** How often the frame-locals release routine was called for [fp]. *)
Fixpoint releaseCount (fp : FrameId) (tr : list Event) : nat :=
  match tr with
  | [] => 0
  | EvFreeLocalsUnwind fp' _ _ :: rest =>
    ((if bool_decide (fp' = fp) then 1 else 0) + releaseCount fp rest)%nat
  | _ :: rest => releaseCount fp rest
  end.

(** The release routine ran at most once for each frame, and not at all
    for a frame whose latch is clear. *)
Definition releasedOnce (s : VM) : Prop :=
  forall fp,
    (releaseCount fp (trace s) <= 1)%nat /\
    (forall ar, frames s !! fp = Some ar -> localsDecRefd ar = false ->
                releaseCount fp (trace s) = 0%nat).

(** A frame as the unwinder may have left it: unchanged, or latched. *)
Definition latched (ar ar' : ActRec) : Prop :=
  ar' = ar \/ ar' = setLocalsDecRefd ar.

(** What no step of the unwinder below the drivers changes. *)
Record stable (s s' : VM) : Prop := mkStable {
  st_pending : m_pendingException s' = m_pendingException s;
  st_flag : m_unwindingCppException s' = m_unwindingCppException s;
  st_nesting : m_nestedVMs_size s' = m_nestedVMs_size s;
  st_frames : forall fp,
    option_Forall2 latched (frames s !! fp) (frames s' !! fp);
  st_once : releasedOnce s -> releasedOnce s'
}.

(** Any abort but the assertion of [unwindCpp] that the frame tearer
    returned no exception. *)
Definition notHostAssert (r : AbortReason) : Prop := r <> AssertFailed 616.

(** What the steps that neither tear a frame down nor enter a handler
    leave alone as well. *)
Record fixed (s s' : VM) : Prop := mkFixed {
  fx_stable : stable s s';
  fx_vmfp : vmfp s' = vmfp s;
  fx_vmpc : vmpc s' = vmpc s;
  fx_frames : frames s' = frames s
}.

(** Every return and every throw of [m] is related by [R] to the state
    the run started in; [m] runs out of fuel only when [T] holds. *)
Definition runs (R : VM -> VM -> Prop) (T : Prop) {A} (m : M A) : Prop :=
  forall s, wp m (fun _ s' => R s s') (fun _ s' => R s s')
               notHostAssert T s.

(** The callers of a frame: [frameDepth fr fp n] when the chain of [sfp]
    links from [fp] ends after [n] frames. *)
Inductive frameDepth (fr : gmap FrameId ActRec)
    : option FrameId -> nat -> Prop :=
| frameDepth_null : frameDepth fr None 0
| frameDepth_frame fp ar n :
    fr !! fp = Some ar -> frameDepth fr (sfp ar) n ->
    frameDepth fr (Some fp) (S n).

(** The state after [this->setNoDestruct()]. *)
Definition marked (s : VM) (this : Addr) (o : ObjectData) : VM :=
  with_trace (with_heap s (<[this := setNoDestruct_obj o]> (heap s)))
             (trace s ++ [EvSetNoDestruct this]).

(** *** Chains along the [previous] slot *)

(** The object a slot value points to, when it is a throwable of the store:
    the test that continues the walk of [findAcyclicPrev]. *)
Definition throwableOf (h : gmap Addr ObjectData) (v : TypedValue)
    : option Addr :=
  match v with
  | KindOfObject p =>
    match h !! p with
    | Some po => if instanceofThrowable po then Some p else None
    | None => None
    end
  | _ => None
  end.

(** [prevChain h o l]: following [previous] from [o] visits the objects
    [l] in this order and ends at a slot that holds no throwable. *)
Inductive prevChain (h : gmap Addr ObjectData) : Addr -> list Addr -> Prop :=
| prevChain_end o d :
    h !! o = Some d -> throwableOf h (prop_previous d) = None ->
    prevChain h o [o]
| prevChain_step o d p l :
    h !! o = Some d -> throwableOf h (prop_previous d) = Some p ->
    prevChain h p l -> prevChain h o (o :: l).

(** The [previous] chain of [o] has no cycle: it ends. *)
Definition acyclic (h : gmap Addr ObjectData) (o : Addr) : Prop :=
  exists l, prevChain h o l.

(** The chains of two throwables end and share no object. *)
Definition linkable (h : gmap Addr ObjectData) (top prev : Addr) : Prop :=
  exists l1 l2, prevChain h top l1 /\ prevChain h prev l2 /\
                forall x, x ∈ l1 -> x ∉ l2.

(** The reasons for which the chainer can stop. *)
Definition chainAborts (r : AbortReason) : Prop :=
  r = UndefinedBehaviour \/ r = AssertFailed 357 \/ r = AssertFailed 365.

(** *** The records the host driver drops for a frame *)

Fixpoint pinnedRun (fp : FrameId) (nesting : nat) (fs : list FaultRec)
    : list FaultRec :=
  match fs with
  | f :: rest =>
    if faultPinned fp nesting f then f :: pinnedRun fp nesting rest else []
  | [] => []
  end.

Fixpoint afterPinnedRun (fp : FrameId) (nesting : nat) (fs : list FaultRec)
    : list FaultRec :=
  match fs with
  | f :: rest =>
    if faultPinned fp nesting f then afterPinnedRun fp nesting rest else fs
  | [] => []
  end.

Fixpoint decRefEvents (fs : list FaultRec) : list Event :=
  match fs with
  | f :: rest =>
    match m_userException f with
    | Some o => EvDecRefObj o :: decRefEvents rest
    | None => decRefEvents rest
    end
  | [] => []
  end.

(** *** Handler search *)

(** The frame [vmfp] has its latch set, or a host exception is pending. *)
Definition searchDisabled (s : VM) : bool :=
  m_pendingException s
  || match vmfp s with
     | Some fp => match frames s !! fp with
                  | Some ar => localsDecRefd ar
                  | None => false
                  end
     | None => false
     end.

Definition isRelease (e : Event) : bool :=
  match e with EvFreeLocalsUnwind _ _ _ => true | _ => false end.

(** The reasons for which [tearDownFrame] can stop: a pointer it follows
    is null or dangling, the frame is resumed and of no known kind, or the
    assertion about the caller's frame fails. *)
Definition tearDownAborts (r : AbortReason) : Prop :=
  r = UndefinedBehaviour \/ r = NotReached \/ r = AssertFailed 316.

Section Conditions.
Context {RT : Runtime}.

(** The frames for which [tearDownFrame] leaves the locals alone: a
    resumed async function or async generator, torn down without a guest
    exception, that is not running. *)
Definition releaseSkipped (s : VM) (fp : FrameId) (ar : ActRec)
    (e : option Addr) : bool :=
  resumed ar && bool_decide (e = None) &&
  (if isAsyncFunction (m_func ar) then negb (afwh_isRunning s fp)
   else if isAsyncGenerator (m_func ar) then
     negb (asyncgen_isEagerlyExecuted s fp
           || asyncgen_waitHandle_isRunning s fp)
   else false).

(** The constructor guard as lines 198-215 evaluate it: the opcode is not
    [RetC], the latch is clear, the function belongs to a class, the frame
    has a receiver, the class of the RECEIVER ([getThis()->getVMClass()])
    has this function as constructor and defines a destructor, and the FPI
    region of the caller that precedes the call was opened by a
    construct-prep opcode.  The class of the function is only tested for
    being there. *)
Definition ctorGuardHolds (s : VM) (fp : FrameId) (ar : ActRec) (curOp : Op)
    : bool :=
  negb (Nat.eqb curOp OpRetC)
  && negb (localsDecRefd ar)
  && bool_decide (is_Some (cls (m_func ar)))
  && match m_this ar with
     | Some this =>
       match heap s !! this with
       | Some o =>
         bool_decide (getCtor (getVMClass o) = Some (func_id (m_func ar)))
         && bool_decide (is_Some (getDtor (getVMClass o)))
       | None => false
       end
     | None => false
     end
  && match getPrevVMState s fp with
     | Some (outerFp, prevPc) =>
       match frames s !! outerFp with
       | Some oar =>
         match findPrecedingFPI (m_func oar) prevPc with
         | Some fpushOff => isFPushCtor (getOp (func_unit (m_func oar)) fpushOff)
         | None => false
         end
       | None => false
       end
     | None => false
     end.

End Conditions.

(** Modelled from the spec: the release of an object by the reference
    counting runtime (ObjectData, not under src/) runs the destructor of
    its class unless the object is marked no-destruct. *)
Definition dtorRunsOnRelease (o : ObjectData) : bool :=
  bool_decide (is_Some (getDtor (getVMClass o))) && negb (noDestruct o).

(** The runtime [RT] with another answer to whether the release of the
    locals of a frame raises. *)
Definition with_release_raises (RT : Runtime)
    (r : VM -> FrameId -> option Thrown) : Runtime :=
  {| kInvalidOffset := @kInvalidOffset RT;
     kInvalidNesting := @kInvalidNesting RT;
     OpRetC := @OpRetC RT;
     isFPushCtor := @isFPushCtor RT;
     isMemberDimOp := @isMemberDimOp RT;
     isMemberFinalOp := @isMemberFinalOp RT;
     debug := @debug RT;
     findEH := @findEH RT;
     findPrecedingFPI := @findPrecedingFPI RT;
     getPrevVMState := @getPrevVMState RT;
     visitStackElems := @visitStackElems RT;
     stack_isValidAddress := @stack_isValidAddress RT;
     popTV_raises := @popTV_raises RT;
     frame_free_locals_unwind_raises := r;
     afwh_isRunning := @afwh_isRunning RT;
     asyncgen_fail_eagerResult := @asyncgen_fail_eagerResult RT;
     asyncgen_isEagerlyExecuted := @asyncgen_isEagerlyExecuted RT;
     asyncgen_waitHandle_isRunning := @asyncgen_waitHandle_isRunning RT |}.

(** ** Concrete machines used by the examples below *)

Module Ex.

Definition u0 : Unit := mkUnit 0%nat (fun _ => 0%nat).

(** Scenario S1: one region with a [Catch] handler at 40 and no parent. *)
Definition tab1 : list EHEnt := [mkEHEnt Catch 40 (-1)].
Definition f1 : Func :=
  mkFunc 1%nat u0 None 0%nat 0%nat 0%nat 0 tab1 false false false.

(** A [Fault] region at index 1 nested in a [Catch] region at index 0. *)
Definition tab2 : list EHEnt := [mkEHEnt Catch 40 (-1); mkEHEnt Fault 50 0].
Definition f2 : Func :=
  mkFunc 2%nat u0 None 0%nat 0%nat 0%nat 0 tab2 false false false.

Definition fault_hc (n : Z) : FaultRec := mkFault (Some 7%nat) 0 (Some 1%nat) 20 n.

(** Opcodes of the examples: 1 is [RetC], 2 a construct-prep opcode, 3 a
    member instruction. *)
Definition rt : Runtime :=
  {| kInvalidOffset := 2147483647;
     kInvalidNesting := -1;
     OpRetC := 1%nat;
     isFPushCtor := fun op => Nat.eqb op 2;
     isMemberDimOp := fun op => Nat.eqb op 3;
     isMemberFinalOp := fun _ => false;
     debug := true;
     findEH := fun f off =>
       if (10 <=? off) && (off <? 30) then last (ehtab f) else None;
     findPrecedingFPI := fun _ off => if off =? 8 then Some 4 else None;
     getPrevVMState := fun s fp =>
       match frames s !! fp with
       | Some ar => match sfp ar with
                    | Some p => Some (p, m_soff ar)
                    | None => None
                    end
       | None => None
       end;
     visitStackElems := fun _ _ _ => [StackTV];
     stack_isValidAddress := fun _ _ => true;
     popTV_raises := fun _ => None;
     frame_free_locals_unwind_raises := fun _ _ => None;
     afwh_isRunning := fun _ _ => false;
     asyncgen_fail_eagerResult := fun _ _ => None;
     asyncgen_isEagerlyExecuted := fun _ _ => false;
     asyncgen_waitHandle_isRunning := fun _ _ => false |}.

(** The unit of the caller: a construct-prep opcode at offset 4. *)
Definition u1 : Unit := mkUnit 1%nat (fun off => if off =? 4 then 2%nat else 0%nat).

Definition clsC : Class := mkClass (Some 5%nat) (Some 6%nat).

(** The constructor of [clsC], a caller, and an async function. *)
Definition fctor : Func :=
  mkFunc 5%nat u0 (Some clsC) 2%nat 3%nat 0%nat 0 [] false false false.
Definition fcaller : Func :=
  mkFunc 8%nat u1 None 1%nat 2%nat 0%nat 0 tab1 false false false.
Definition fasync : Func :=
  mkFunc 9%nat u0 None 1%nat 2%nat 0%nat 0 [] true false false.

Definition objC : ObjectData := mkObj clsC false false KindOfNull.
Definition exnObj (prev : TypedValue) : ObjectData :=
  mkObj (mkClass None None) true false prev.

(** Scenario S3: frame 2 runs the constructor of object 11, called from
    frame 1 at offset 8; exception 7 is in flight. *)
Definition vm_ctor : VM :=
  mkVM (Some 2%nat) (unit_at u0 3)
       (<[1%nat := mkActRec fcaller None 0 None false false false]>
        (<[2%nat := mkActRec fctor (Some 1%nat) 8 (Some 11%nat) false false false]> ∅))
       (<[11%nat := objC]> (<[7%nat := exnObj KindOfNull]> ∅))
       [mkFault (Some 7%nat) (-1) None 2147483647 0]
       0 false false [].

(** Frame 2 is a resumed async function whose wait handle is not
    running; a host exception unwinds it. *)
Definition vm_async : VM :=
  mkVM (Some 2%nat) (unit_at u0 3)
       (<[1%nat := mkActRec fcaller None 0 None false false false]>
        (<[2%nat := mkActRec fasync (Some 1%nat) 8 None true false false]> ∅))
       ∅ [] 0 false false [].

(** Scenario S1 while the host driver is active: the flag is set, no host
    exception is pending on the thread, and frame 1 runs [f1] at offset 20
    inside its protected region. *)
Definition vm_handler (pending : bool) : VM :=
  mkVM (Some 1%nat) (unit_at u0 20)
       (<[1%nat := mkActRec f1 None 0 None false false false]> ∅)
       (<[7%nat := exnObj KindOfNull]> ∅)
       [mkFault (Some 7%nat) (-1) None 2147483647 0]
       0 true pending [].

(** Scenario S5 with an exception that already has a predecessor: 8 was
    raised with [previous] 9 while 7 was being handled in the same
    frame. *)
Definition fault_new : FaultRec := mkFault (Some 8%nat) 0 (Some 1%nat) 25 0.
Definition fault_old : FaultRec := mkFault (Some 7%nat) 0 (Some 1%nat) 20 1.
Definition fault_merged : FaultRec := mkFault (Some 8%nat) 0 (Some 1%nat) 20 1.

Definition heap_chain : gmap Addr ObjectData :=
  <[7%nat := exnObj KindOfNull]>
    (<[8%nat := exnObj (KindOfObject 9%nat)]>
       (<[9%nat := exnObj KindOfNull]> ∅)).

Definition vm_chain (pending : bool) : VM :=
  mkVM (Some 1%nat) (unit_at u0 25)
       (<[1%nat := mkActRec f1 None 0 None false false false]> ∅)
       heap_chain [fault_new; fault_old] 0 false pending [].

(** An exception whose [previous] is itself. *)
Definition vm_cycle : VM :=
  mkVM None None ∅
       (<[1%nat := exnObj (KindOfObject 1%nat)]> (<[2%nat := exnObj KindOfNull]> ∅))
       [] 0 false false [].

(** The machine of S3 during a host unwind, with two guest faults: one
    raised in frame 2 and, above it, one that came up from a callee and
    has been reset. *)
Definition fault_pinned : FaultRec := mkFault (Some 7%nat) 0 (Some 2%nat) 3 1.
Definition fault_reset : FaultRec := mkFault (Some 7%nat) (-1) None 2147483647 0.

Definition vm_host (fs : list FaultRec) : VM := with_faults vm_ctor fs.

End Ex.

(** ** Further conditions on runs *)

(** As [runs R T m], and every exception that leaves [m] satisfies [P]. *)
Definition runsE (R : VM -> VM -> Prop) (P : Thrown -> Prop) (T : Prop)
    {A} (m : M A) : Prop :=
  forall s, wp m (fun _ s' => R s s') (fun x s' => R s s' /\ P x)
               notHostAssert T s.

(** What [Stack::popTV] raises in some state of the machine. *)
Definition raisedByPop {RT : Runtime} (x : Thrown) : Prop :=
  exists s, popTV_raises s = Some x.

(** An object as [setNoDestruct] may have left it. *)
Definition markedOrSame (d d' : ObjectData) : Prop :=
  d' = d \/ d' = setNoDestruct_obj d.

(** The object store holds the same objects, each as it was or marked
    no-destruct. *)
Definition marksOnly (s s' : VM) : Prop :=
  forall o, option_Forall2 markedOrSame (heap s !! o) (heap s' !! o).

(** An object keeps its class and its kind, and a no-destruct mark it
    has. *)
Definition sameShape (d d' : ObjectData) : Prop :=
  getVMClass d' = getVMClass d /\
  instanceofThrowable d' = instanceofThrowable d /\
  (noDestruct d = true -> noDestruct d' = true).

Definition heapShape (s s' : VM) : Prop :=
  forall o, option_Forall2 sameShape (heap s !! o) (heap s' !! o).

(** The fault stack is as it was and objects are at most marked. *)
Definition calm (s s' : VM) : Prop :=
  m_faults s' = m_faults s /\ marksOnly s s'.

(** Records were at most popped off the fault stack and objects are at
    most marked. *)
Definition hostKeeps (s s' : VM) : Prop :=
  m_faults s' `suffix_of` m_faults s /\ marksOnly s s'.

(** The fault stack has not grown and every object has kept its shape. *)
Definition guestKeeps (s s' : VM) : Prop :=
  (length (m_faults s') <= length (m_faults s))%nat /\ heapShape s s'.

(** ** Further conditions on frames *)

(** The frames whose teardown consumes a guest exception: an async
    function that runs eagerly and was not called by [FCallAwait], a
    resumed async function, a resumed async generator. *)
Definition consumesException (ar : ActRec) : bool :=
  if resumed ar
  then isAsyncFunction (m_func ar) || isAsyncGenerator (m_func ar)
  else isAsyncFunction (m_func ar) && negb (isFCallAwait ar).

(** The calls that pop a frame off the evaluation stack. *)
Definition isFramePop (e : Event) : bool :=
  match e with
  | EvNDiscard _ | EvRet | EvDiscardAR => true
  | _ => false
  end.

(** Where the caller of a frame goes on: its bytecode at the saved return
    offset of the frame plus the base of the caller's function. *)
Definition callerPC (s : VM) (ar : ActRec) : PC :=
  match sfp ar with
  | Some p =>
    match frames s !! p with
    | Some par => unit_at (func_unit (m_func par)) (m_soff ar + base (m_func par))
    | None => None
    end
  | None => None
  end.


(** ** Further conditions on the evaluation stack *)

(** The call that pops an element of the evaluation stack. *)
Definition popOf (el : StackElem) : Event :=
  match el with
  | PreLiveAR _ _ => EvPopAR
  | StackTV => EvPopTV
  end.

Definition isStackPop (e : Event) : bool :=
  match e with
  | EvPopAR | EvPopTV => true
  | _ => false
  end.

Definition isTrash (e : Event) : bool :=
  match e with
  | EvTrashClsRef _ _ => true
  | _ => false
  end.

(** The receiver of a pre-live activation record that a construct-prep
    opcode of [func] pushed. *)
Definition ctorReceiver {RT : Runtime} (func : Func) (el : StackElem)
    : option Addr :=
  match el with
  | PreLiveAR (Some o) pushOff =>
    if isFPushCtor (getOp (func_unit func) pushOff) then Some o else None
  | _ => None
  end.

(** A pre-live activation record of a constructor call has a receiver,
    and the receiver is an object of the store. *)
Definition receiverReady {RT : Runtime} (h : gmap Addr ObjectData)
    (func : Func) (el : StackElem) : Prop :=
  match el with
  | PreLiveAR this pushOff =>
    isFPushCtor (getOp (func_unit func) pushOff) = true ->
    exists o, this = Some o /\ is_Some (h !! o)
  | StackTV => True
  end.

(** ** Further conditions on the chain of callers *)

(** The frames from a frame up its callers, innermost first. *)
Inductive frameChain (fr : gmap FrameId ActRec)
    : option FrameId -> list (FrameId * ActRec) -> Prop :=
| frameChain_null : frameChain fr None []
| frameChain_frame fp ar l :
    fr !! fp = Some ar -> frameChain fr (sfp ar) l ->
    frameChain fr (Some fp) ((fp, ar) :: l).

(** The calls that pop a frame when it is torn down for a host
    exception: none for a resumed frame. *)
Definition framePops (fa : FrameId * ActRec) : list Event :=
  if resumed (snd fa) then []
  else [EvNDiscard (numSlotsInFrame (m_func (snd fa))); EvDiscardAR].

(** The trace has grown by calls that pop no frame. *)
Definition noFramePops (s s' : VM) : Prop :=
  exists tl, trace s' = trace s ++ tl /\ List.filter isFramePop tl = [].

(** ** Further concrete machines *)

Module Ex2.

(** An EH table whose only entry names itself as its parent. *)
Definition tabLoop : list EHEnt := [mkEHEnt Catch 40 0].
Definition fLoop : Func :=
  mkFunc 3%nat Ex.u0 None 0%nat 0%nat 0%nat 0 tabLoop false false false.

(** Frame 2 runs the async function [Ex.fasync] eagerly, called from
    frame 1 at offset 8; exception 7 is freshly thrown at offset 3, where
    the function has no handler. *)
Definition vm_eager : VM :=
  mkVM (Some 2%nat) (unit_at Ex.u0 3)
       (<[1%nat := mkActRec Ex.fcaller None 0 None false false false]>
        (<[2%nat := mkActRec Ex.fasync (Some 1%nat) 8 None false false false]> ∅))
       (<[7%nat := Ex.exnObj KindOfNull]> ∅)
       [Ex.fault_reset] 0 false false [].

(** The runtime of the examples with an evaluation stack that holds a
    value above the pre-live activation record of a constructor call on
    object 11, pushed at offset 4. *)
Definition rt_ctor : Runtime :=
  {| kInvalidOffset := @kInvalidOffset Ex.rt;
     kInvalidNesting := @kInvalidNesting Ex.rt;
     OpRetC := @OpRetC Ex.rt;
     isFPushCtor := @isFPushCtor Ex.rt;
     isMemberDimOp := @isMemberDimOp Ex.rt;
     isMemberFinalOp := @isMemberFinalOp Ex.rt;
     debug := @debug Ex.rt;
     findEH := @findEH Ex.rt;
     findPrecedingFPI := @findPrecedingFPI Ex.rt;
     getPrevVMState := @getPrevVMState Ex.rt;
     visitStackElems := fun _ _ _ => [StackTV; PreLiveAR (Some 11%nat) 4];
     stack_isValidAddress := @stack_isValidAddress Ex.rt;
     popTV_raises := @popTV_raises Ex.rt;
     frame_free_locals_unwind_raises := @frame_free_locals_unwind_raises Ex.rt;
     afwh_isRunning := @afwh_isRunning Ex.rt;
     asyncgen_fail_eagerResult := @asyncgen_fail_eagerResult Ex.rt;
     asyncgen_isEagerlyExecuted := @asyncgen_isEagerlyExecuted Ex.rt;
     asyncgen_waitHandle_isRunning := @asyncgen_waitHandle_isRunning Ex.rt |}.

(** Frame 1 runs [Ex.fcaller] and is about to construct object 11. *)
Definition vm_prelive : VM :=
  mkVM (Some 1%nat) (unit_at Ex.u1 6)
       (<[1%nat := mkActRec Ex.fcaller None 0 None false false false]> ∅)
       (<[11%nat := Ex.objC]> ∅)
       [] 0 false false [].

End Ex2.

(** ** The constructor guard as the specification words it *)

(** The guard of section 4.4 read literally: the function belongs to a
    class, has a receiver, is the constructor of THAT class, and that class
    defines a destructor; the other conditions are those of
    [ctorGuardHolds]. *)
Definition spec_ctorGuardHolds {RT : Runtime} (s : VM) (fp : FrameId)
    (ar : ActRec) (curOp : Op) : bool :=
  negb (Nat.eqb curOp OpRetC)
  && negb (localsDecRefd ar)
  && match cls (m_func ar) with
     | Some c =>
       bool_decide (is_Some (m_this ar))
       && bool_decide (getCtor c = Some (func_id (m_func ar)))
       && bool_decide (is_Some (getDtor c))
     | None => false
     end
  && match getPrevVMState s fp with
     | Some (outerFp, prevPc) =>
       match frames s !! outerFp with
       | Some oar =>
         match findPrecedingFPI (m_func oar) prevPc with
         | Some fpushOff => isFPushCtor (getOp (func_unit (m_func oar)) fpushOff)
         | None => false
         end
       | None => false
       end
     | None => false
     end.

(** ** What the runtime sees during a host unwind *)

(** The runtime [RT] asked in the state with [m_unwindingCppException]
    set, whatever the flag is in the state it is asked in. *)
Definition underHostFlag (RT : Runtime) : Runtime :=
  {| kInvalidOffset := @kInvalidOffset RT;
     kInvalidNesting := @kInvalidNesting RT;
     OpRetC := @OpRetC RT;
     isFPushCtor := @isFPushCtor RT;
     isMemberDimOp := @isMemberDimOp RT;
     isMemberFinalOp := @isMemberFinalOp RT;
     debug := @debug RT;
     findEH := @findEH RT;
     findPrecedingFPI := @findPrecedingFPI RT;
     getPrevVMState := fun s => @getPrevVMState RT (with_unwindingCpp s true);
     visitStackElems := fun s => @visitStackElems RT (with_unwindingCpp s true);
     stack_isValidAddress :=
       fun s => @stack_isValidAddress RT (with_unwindingCpp s true);
     popTV_raises := fun s => @popTV_raises RT (with_unwindingCpp s true);
     frame_free_locals_unwind_raises :=
       fun s => @frame_free_locals_unwind_raises RT (with_unwindingCpp s true);
     afwh_isRunning := fun s => @afwh_isRunning RT (with_unwindingCpp s true);
     asyncgen_fail_eagerResult :=
       fun s => @asyncgen_fail_eagerResult RT (with_unwindingCpp s true);
     asyncgen_isEagerlyExecuted :=
       fun s => @asyncgen_isEagerlyExecuted RT (with_unwindingCpp s true);
     asyncgen_waitHandle_isRunning :=
       fun s => @asyncgen_waitHandle_isRunning RT (with_unwindingCpp s true) |}.

(** ** Computations that agree during a host unwind *)

(** From every state with [m_unwindingCppException] set, [m'] does what
    [m] does, and the flag is still set when [m] returns or throws. *)
Definition sameUnderFlag {A} (m m' : M A) : Prop :=
  forall s, m_unwindingCppException s = true ->
    m' s = m s /\
    wp m (fun _ s' => m_unwindingCppException s' = true)
         (fun _ s' => m_unwindingCppException s' = true)
         (fun _ => True) True s.

(** ** A constructor that is inherited *)

Module Ex3.

(** A class that declares the constructor 5 and no destructor, and a
    subclass of it that inherits the constructor and defines the
    destructor 6. *)
Definition clsBase : Class := mkClass (Some 5%nat) None.
Definition clsSub : Class := mkClass (Some 5%nat) (Some 6%nat).

Definition fctorBase : Func :=
  mkFunc 5%nat Ex.u0 (Some clsBase) 2%nat 3%nat 0%nat 0 [] false false false.

(** Scenario S3 for [new Sub()]: frame 2 runs the inherited constructor
    on object 11 of class [clsSub], called from frame 1 at offset 8;
    exception 7 is in flight. *)
Definition vm_inherited : VM :=
  mkVM (Some 2%nat) (unit_at Ex.u0 3)
       (<[1%nat := mkActRec Ex.fcaller None 0 None false false false]>
        (<[2%nat := mkActRec fctorBase (Some 1%nat) 8 (Some 11%nat)
                      false false false]> ∅))
       (<[11%nat := mkObj clsSub false false KindOfNull]>
        (<[7%nat := Ex.exnObj KindOfNull]> ∅))
       [mkFault (Some 7%nat) (-1) None 2147483647 0]
       0 false false [].

End Ex3.

(** * Properties *)

#[local] Set Warnings "-clear-no-such-hyp".

Lemma eh_wf_lookup tab i e :
  ehtab_wf tab = true -> tab !! i = Some e -> eh_wf tab e = true.
Proof.
  unfold ehtab_wf. rewrite forallb_forall. intros Hall Hi.
  apply Hall. apply list_elem_of_In. eapply list_elem_of_lookup_2. exact Hi.
Qed.

(** ** Handler resolver *)

Lemma checkHandlers_loop_chain (k : nat) : forall fuel func eh i pc fault,
  ehtab_wf (ehtab func) = true ->
  eh_wf (ehtab func) eh = true ->
  m_handledCount fault < INT_MAX ->
  Z.to_nat (m_handledCount fault - i) = k ->
  (k < fuel)%nat ->
  checkHandlers_loop fuel func eh i pc fault =
  match chainEntry (ehtab func) eh k with
  | Some c => Found (ResumeVM, unit_at (func_unit func) (m_handler c),
                     set_handledCount fault (m_handledCount fault + 1))
  | None => Found (Propagate, pc, fault)
  end.
Proof.
  induction k as [|k IH]; intros fuel func eh i pc fault Htab Heh Hmax Hk Hfuel;
    (destruct fuel as [|fuel]; [lia|]); cbn [checkHandlers_loop chainEntry].
  - assert ((m_handledCount fault <=? i) = true) as -> by lia.
    assert ((m_handledCount fault =? INT_MAX) = false) as -> by lia.
    by destruct (m_type eh).
  - assert ((m_handledCount fault <=? i) = false) as -> by lia.
    unfold eh_wf in Heh.
    destruct (m_parentIndex eh =? -1) eqn:Hp; cbn [negb].
    + assert ((m_parentIndex eh <? 0) = true) as -> by lia. done.
    + cbn [orb] in Heh.
      assert ((m_parentIndex eh <? 0) = false) as -> by lia.
      destruct (ehtab func !! Z.to_nat (m_parentIndex eh)) as [eh'|] eqn:Hl.
      * apply IH; try done; try lia. by eapply eh_wf_lookup.
      * apply lookup_ge_None in Hl. lia.
Qed.

(** ** Rules for [wp] and [runs] *)

Section WP.
Context {A : Type} (Q : A -> VM -> Prop) (E : Thrown -> VM -> Prop)
        (B : AbortReason -> Prop) (T : Prop).

Lemma wp_ret (a : A) (s : VM) : Q a s -> wp (ret a) Q E B T s.
Proof. done. Qed.

Lemma wp_bind {C} (m : M C) (k : C -> M A) (s : VM) :
  wp m (fun c s' => wp (k c) Q E B T s') E B T s -> wp (bind m k) Q E B T s.
Proof. unfold wp, bind. by destruct (m s). Qed.

Lemma wp_gets (f : VM -> A) (s : VM) : Q (f s) s -> wp (gets f) Q E B T s.
Proof. done. Qed.

Lemma wp_abort (r : AbortReason) (s : VM) : B r -> wp (abort r) Q E B T s.
Proof. done. Qed.

Lemma wp_throw (x : Thrown) (s : VM) : E x s -> wp (throw x) Q E B T s.
Proof. done. Qed.

Lemma wp_timeout (s : VM) : T -> wp timeout Q E B T s.
Proof. done. Qed.

Lemma wp_deref (o : option A) (s : VM) :
  match o with Some a => Q a s | None => B UndefinedBehaviour end ->
  wp (deref o) Q E B T s.
Proof. by destruct o. Qed.

Lemma wp_mono (m : M A) (Q' : A -> VM -> Prop) (E' : Thrown -> VM -> Prop)
    (B' : AbortReason -> Prop) (T' : Prop) (s : VM) :
  wp m Q' E' B' T' s ->
  (forall a s', Q' a s' -> Q a s') -> (forall x s', E' x s' -> E x s') ->
  (forall r, B' r -> B r) -> (T' -> T) ->
  wp m Q E B T s.
Proof. unfold wp. destruct (m s); eauto. Qed.
End WP.

Section WPunit.
Context (Q : unit -> VM -> Prop) (E : Thrown -> VM -> Prop)
        (B : AbortReason -> Prop) (T : Prop).

Lemma wp_modify (f : VM -> VM) (s : VM) : Q tt (f s) -> wp (modify f) Q E B T s.
Proof. done. Qed.

Lemma wp_emit (e : Event) (s : VM) : Q tt (with_trace s (trace s ++ [e])) -> wp (emit e) Q E B T s.
Proof. done. Qed.

Lemma wp_always_assert (b : bool) (line : nat) (s : VM) :
  (if b then Q tt s else B (AssertFailed line)) ->
  wp (always_assert b line) Q E B T s.
Proof. by destruct b. Qed.

Lemma wp_assertx `{Runtime} (b : bool) (line : nat) (s : VM) :
  Q tt s -> B (AssertFailed line) -> wp (assertx b line) Q E B T s.
Proof. unfold assertx. by destruct (debug && negb b). Qed.

Lemma wp_try_catch_all (m : M unit) (s : VM) :
  wp m Q (fun _ s' => Q tt s') B T s -> wp (try_catch_all m) Q E B T s.
Proof. unfold wp, try_catch_all. by destruct (m s). Qed.
End WPunit.

Lemma wp_scope_exit {A} (cleanup : M unit) (body : M A) (Q : A -> VM -> Prop) E B T (s : VM) :
  wp body (fun a s' => wp cleanup (fun _ s'' => Q a s'') E B T s')
          (fun x s' => wp cleanup (fun _ s'' => E x s'') E B T s') B T s ->
  wp (scope_exit cleanup body) Q E B T s.
Proof.
  unfold wp at 1 4, scope_exit. destruct (body s); try done.
  - unfold wp, bind. by destruct (cleanup s0).
  - unfold wp, bind. by destruct (cleanup s0).
Qed.

Ltac wp_step :=
  lazymatch goal with
  | |- wp (bind _ _) _ _ _ _ _ => apply wp_bind
  | |- wp (ret _) _ _ _ _ _ => apply wp_ret
  | |- wp (gets _) _ _ _ _ _ => apply wp_gets
  | |- wp (modify _) _ _ _ _ _ => apply wp_modify
  | |- wp (emit _) _ _ _ _ _ => apply wp_emit
  | |- wp (abort _) _ _ _ _ _ => apply wp_abort
  | |- wp (throw _) _ _ _ _ _ => apply wp_throw
  | |- wp timeout _ _ _ _ _ => apply wp_timeout
  | |- wp (deref ?o) _ _ _ _ _ => apply wp_deref; destruct o eqn:?
  | |- wp (always_assert ?b _) _ _ _ _ _ => apply wp_always_assert; destruct b eqn:?
  | |- wp (assertx _ _) _ _ _ _ _ => apply wp_assertx
  | |- wp (try_catch_all _) _ _ _ _ _ => apply wp_try_catch_all
  | |- wp (getFrame _) _ _ _ _ _ => unfold getFrame
  | |- wp (getObj _) _ _ _ _ _ => unfold getObj
  | |- wp (putFrame _ _) _ _ _ _ _ => unfold putFrame
  | |- wp (putObj _ _) _ _ _ _ _ => unfold putObj
  | |- wp (decRefObj _) _ _ _ _ _ => unfold decRefObj
  | |- wp (setNoDestruct _) _ _ _ _ _ => unfold setNoDestruct
  | |- wp (peek_op _) _ _ _ _ _ => unfold peek_op
  | |- wp (offsetOf _) _ _ _ _ _ => unfold offsetOf
  | |- wp (faults_pop_back) _ _ _ _ _ => unfold faults_pop_back
  | |- wp (faults_push_back _) _ _ _ _ _ => unfold faults_push_back
  | |- wp (faults_set_back _) _ _ _ _ _ => unfold faults_set_back
  | |- wp (if ?b then _ else _) _ _ _ _ _ => destruct b eqn:?
  | |- wp (match ?x with _ => _ end) _ _ _ _ _ => destruct x eqn:?
  end.

Ltac wp_auto := repeat (wp_step; cbn beta).

Lemma latched_refl ar : latched ar ar.
Proof. by left. Qed.

Lemma latched_trans a b c : latched a b -> latched b c -> latched a c.
Proof. intros [->| ->] [->| ->]; unfold latched; auto. Qed.

#[global] Instance stable_preorder : PreOrder stable.
Proof.
  split.
  - intros s. split; try done. intros fp.
    destruct (frames s !! fp); constructor. apply latched_refl.
  - intros s1 s2 s3 [p1 f1 n1 fr1 o1] [p2 f2 n2 fr2 o2].
    split; try congruence; [|tauto].
    intros fp. specialize (fr1 fp). specialize (fr2 fp).
    destruct fr1; inversion fr2; subst; constructor.
    eapply latched_trans; eauto.
Qed.

#[global] Instance fixed_preorder : PreOrder fixed.
Proof.
  split.
  - intros s. by split.
  - intros s1 s2 s3 [a1 b1 c1 d1] [a2 b2 c2 d2].
    split; try congruence. by etrans.
Qed.

Lemma fixed_stable s s' : fixed s s' -> stable s s'.
Proof. by intros []. Qed.

(** *** Rules for [runs] *)

Section Runs.
Context (R : VM -> VM -> Prop) `{!PreOrder R} (T : Prop).

Lemma runs_bind {A C} (m : M C) (k : C -> M A) :
  runs R T m -> (forall c, runs R T (k c)) -> runs R T (bind m k).
Proof.
  intros Hm Hk s. apply wp_bind. eapply wp_mono; [apply Hm|..]; try done.
  intros c s' Hs. cbn beta. eapply wp_mono; [apply Hk|..]; try done;
    intros; cbn beta in *; by etrans.
Qed.

Lemma runs_ret {A} (a : A) : runs R T (ret a).
Proof. intros s. unfold wp, ret. done. Qed.

Lemma runs_gets {A} (f : VM -> A) : runs R T (gets f).
Proof. intros s. unfold wp, gets. done. Qed.

Lemma runs_abort {A} r : r <> AssertFailed 616 -> runs R T (@abort A r).
Proof. by intros Hr s. Qed.

Lemma runs_throw {A} x : runs R T (@throw A x).
Proof. intros s. unfold wp, throw. done. Qed.

Lemma runs_deref {A} (o : option A) : runs R T (deref o).
Proof. destruct o; [apply runs_ret | by apply runs_abort]. Qed.

Lemma runs_always_assert b l : l <> 616%nat -> runs R T (always_assert b l).
Proof. intros Hl. destruct b; [apply runs_ret | apply runs_abort; congruence]. Qed.

Lemma runs_assertx `{Runtime} b l : l <> 616%nat -> runs R T (assertx b l).
Proof.
  intros Hl. unfold assertx.
  destruct (_ && _); [apply runs_abort; congruence | apply runs_ret].
Qed.

Lemma runs_modify (f : VM -> VM) : (forall s, R s (f s)) -> runs R T (modify f).
Proof. intros Hf s. apply Hf. Qed.
End Runs.

Lemma runs_timeout (R : VM -> VM -> Prop) {A} : runs R True (@timeout A).
Proof. by intros s. Qed.

Lemma runs_weaken (R R' : VM -> VM -> Prop) (T T' : Prop) {A} (m : M A) :
  runs R T m -> (forall s s', R s s' -> R' s s') -> (T -> T') -> runs R' T' m.
Proof. intros Hm HR HT s. eapply wp_mono; [apply Hm|..]; eauto. Qed.

Lemma releaseCount_app fp t1 t2 :
  releaseCount fp (t1 ++ t2) = (releaseCount fp t1 + releaseCount fp t2)%nat.
Proof.
  induction t1 as [|e t1 IH]; [done|]. destruct e; cbn; rewrite ?IH; lia.
Qed.

Lemma releaseCount_snoc fp t e :
  isRelease e = false -> releaseCount fp (t ++ [e]) = releaseCount fp t.
Proof. intros He. rewrite releaseCount_app. destruct e; cbn in *; try done; lia. Qed.

(** A state update that leaves the frames and the thread flags alone, and
    adds no release to the trace. *)
Lemma stable_update (s s' : VM) :
  frames s' = frames s ->
  (forall fp, releaseCount fp (trace s') = releaseCount fp (trace s)) ->
  m_pendingException s' = m_pendingException s ->
  m_unwindingCppException s' = m_unwindingCppException s ->
  m_nestedVMs_size s' = m_nestedVMs_size s ->
  stable s s'.
Proof.
  intros Hfr Htr Hp Hu Hn. split; try done.
  - intros fp. rewrite Hfr. destruct (frames s !! fp); constructor. apply latched_refl.
  - unfold releasedOnce. rewrite Hfr. intros Hs fp. rewrite Htr. apply Hs.
Qed.

Lemma fixed_update (s s' : VM) :
  frames s' = frames s ->
  (forall fp, releaseCount fp (trace s') = releaseCount fp (trace s)) ->
  m_pendingException s' = m_pendingException s ->
  m_unwindingCppException s' = m_unwindingCppException s ->
  m_nestedVMs_size s' = m_nestedVMs_size s ->
  vmfp s' = vmfp s -> vmpc s' = vmpc s ->
  fixed s s'.
Proof. intros. split; try done. by apply stable_update. Qed.

Lemma fixed_emit T e : isRelease e = false -> runs fixed T (emit e).
Proof.
  intros He. apply runs_modify. intros s. apply fixed_update; try done.
  intros fp. cbn. by apply releaseCount_snoc.
Qed.

Lemma stable_emit T e : isRelease e = false -> runs stable T (emit e).
Proof.
  intros He. eapply runs_weaken; [by apply fixed_emit|apply fixed_stable|done].
Qed.

Create HintDb runs.

Ltac runs_step :=
  lazymatch goal with
  | |- PreOrder _ => apply _
  | |- forall _, _ => intro
  | |- runs _ _ (bind _ _) => apply runs_bind
  | |- runs _ _ (ret _) => apply runs_ret
  | |- runs _ _ (gets _) => apply runs_gets
  | |- runs _ _ (abort _) => apply runs_abort; first [discriminate | apply _]
  | |- runs _ True timeout => apply runs_timeout
  | |- runs _ _ (throw _) => apply runs_throw
  | |- runs _ _ (deref _) => apply runs_deref
  | |- runs _ _ (always_assert _ _) =>
    apply runs_always_assert; first [discriminate | apply _]
  | |- runs _ _ (assertx _ _) =>
    apply runs_assertx; first [discriminate | apply _]
  | |- runs fixed _ (emit _) => apply fixed_emit; reflexivity
  | |- runs stable _ (emit _) => apply stable_emit; reflexivity
  | |- runs fixed _ (modify _) =>
    apply runs_modify; intro; apply fixed_update; reflexivity
  | |- runs stable _ (modify _) =>
    apply runs_modify; intro; apply stable_update; reflexivity
  | |- runs _ _ (if ?b then _ else _) => destruct b
  | |- runs _ _ (match ?x with _ => _ end) => destruct x
  | |- runs _ _ _ =>
    first [ solve [auto with runs]
          | eapply runs_weaken;
            [solve [eauto with runs]|solve [auto using fixed_stable]|tauto] ]
  end.

Ltac runs_tac :=
  repeat first [ runs_step | lazymatch goal with |- PreOrder _ => apply _ end ].

Lemma fixed_getFrame fp : runs fixed False (getFrame fp).
Proof. unfold getFrame. runs_tac. Qed.

Lemma fixed_getObj o : runs fixed False (getObj o).
Proof. unfold getObj. runs_tac. Qed.

Lemma fixed_putObj o d : runs fixed False (putObj o d).
Proof. unfold putObj. runs_tac. Qed.
#[global] Hint Resolve fixed_getFrame fixed_getObj fixed_putObj : runs.

Lemma fixed_setNoDestruct o : runs fixed False (setNoDestruct o).
Proof. unfold setNoDestruct. runs_tac. Qed.

Lemma fixed_decRefObj o : runs fixed False (decRefObj o).
Proof. unfold decRefObj. runs_tac. Qed.

Lemma fixed_peek_op pc : runs fixed False (peek_op pc).
Proof. unfold peek_op. runs_tac. Qed.

Lemma fixed_offsetOf pc : runs fixed False (offsetOf pc).
Proof. unfold offsetOf. runs_tac. Qed.
#[global] Hint Resolve fixed_setNoDestruct fixed_decRefObj fixed_peek_op
  fixed_offsetOf : runs.

Lemma findAcyclicPrev_abort {RT : Runtime} fuel : forall h seen head r,
  findAcyclicPrev fuel h seen head = WalkAbort r -> chainAborts r.
Proof.
  unfold chainAborts.
  induction fuel as [|fuel IH]; intros h seen head r; cbn [findAcyclicPrev]; [done|].
  intros H.
  repeat match type of H with
         | context [match ?x with _ => _ end] => destruct x eqn:?
         end; simplify_eq; eauto.
Qed.

Lemma chainAborts_notHost r : chainAborts r -> notHostAssert r.
Proof. intros [->|[->| ->]]; discriminate. Qed.

Lemma fixed_popTV {RT : Runtime} : runs fixed False popTV.
Proof. unfold popTV. runs_tac. Qed.
#[global] Hint Resolve fixed_popTV : runs.

Lemma fixed_discardStackElems {RT : Runtime} func elems :
  runs fixed False (discardStackElems func elems).
Proof.
  induction elems as [|[this off|] rest IH]; cbn [discardStackElems]; runs_tac.
Qed.

Lemma fixed_trashClsRefSlots {RT : Runtime} fp n : forall i, runs fixed False (trashClsRefSlots fp i n).
Proof. induction n as [|n IH]; intros i; cbn [trashClsRefSlots]; runs_tac. Qed.
#[global] Hint Resolve fixed_discardStackElems fixed_trashClsRefSlots : runs.

Lemma fixed_discardStackTemps {RT : Runtime} fp off : runs fixed False (discardStackTemps fp off).
Proof. unfold discardStackTemps. runs_tac. Qed.

Lemma fixed_discardMemberTVRefs {RT : Runtime} pc : runs fixed False (discardMemberTVRefs pc).
Proof. unfold discardMemberTVRefs. runs_tac. Qed.

Lemma fixed_ctorGuard {RT : Runtime} fp op ar func : runs fixed False (ctorGuard fp op ar func).
Proof. unfold ctorGuard, ctorGuardCond, calledByFPushCtor. runs_tac. Qed.

(** ** Chains along [previous] and the walk of the chainer *)

(** *** Chains are determined by the object they start at *)

Lemma prevChain_head h o l : prevChain h o l -> exists l', l = o :: l'.
Proof. destruct 1; eauto. Qed.

Lemma prevChain_in_dom h o l x : prevChain h o l -> x ∈ l -> is_Some (h !! x).
Proof.
  induction 1 as [o d Ho Hd|o d p l Ho Hd Hl IH].
  - intros ->%list_elem_of_singleton. eauto.
  - intros [->|Hin]%elem_of_cons; eauto.
Qed.

Lemma prevChain_det h o l1 : prevChain h o l1 -> forall l2, prevChain h o l2 -> l1 = l2.
Proof.
  induction 1 as [o d Ho Hd|o d p l Ho Hd Hl IH]; intros l2 H2;
    inversion H2; simplify_eq; try done.
  f_equal. by apply IH.
Qed.

Lemma prevChain_suffix h o l x :
  prevChain h o l -> x ∈ l ->
  exists l', prevChain h x l' /\ (length l' <= length l)%nat.
Proof.
  induction 1 as [o d Ho Hd|o d p l Ho Hd Hl IH].
  - intros ->%list_elem_of_singleton. exists [o]. split; [by econstructor|done].
  - intros [->|Hin]%elem_of_cons.
    + exists (o :: l). split; [by econstructor|done].
    + destruct (IH Hin) as (l' & Hl' & Hlen). exists l'. split; [done|]. cbn. lia.
Qed.

Lemma prevChain_NoDup h o l : prevChain h o l -> NoDup l.
Proof.
  induction 1 as [o d Ho Hd|o d p l Ho Hd Hl IH].
  - apply NoDup_singleton.
  - constructor; [|done]. intros Hin.
    destruct (prevChain_suffix _ _ _ _ Hl Hin) as (l' & Hl' & Hlen).
    assert (l' = o :: l) as -> by (eapply prevChain_det; [done|by econstructor]).
    cbn in Hlen. lia.
Qed.

Section Walk.
Context {RT : Runtime}.

(** A walk that finds a slot has followed a chain, none of whose objects
    had been seen, to its last object. *)
Lemma findAcyclicPrev_slot fuel : forall h seen head owner seen',
  findAcyclicPrev fuel h seen head = WalkSlot owner seen' ->
  exists l, prevChain h head l /\ last l = Some owner /\
            seen' = list_to_set l ∪ seen /\ (forall x, x ∈ l -> x ∉ seen).
Proof.
  induction fuel as [|fuel IH]; intros h seen head owner seen';
    cbn [findAcyclicPrev]; [done|].
  destruct (h !! head) as [o|] eqn:Hhead; [|done].
  destruct (debug && negb (instanceofThrowable o)); [done|].
  case_bool_decide as Hseen; [done|].
  assert (Hend : throwableOf h (prop_previous o) = None ->
                 WalkSlot head ({[head]} ∪ seen) = WalkSlot owner seen' ->
                 exists l, prevChain h head l /\ last l = Some owner /\
                   seen' = list_to_set l ∪ seen /\ (forall x, x ∈ l -> x ∉ seen)).
  { intros Hnone [= <- <-]. exists [head]. split; [by econstructor|].
    split; [done|]. split; [set_solver|].
    by intros x ->%list_elem_of_singleton. }
  destruct (prop_previous o) as [| |n|p] eqn:Hprev.
  - destruct debug; [done|]. by apply Hend.
  - by apply Hend.
  - by apply Hend.
  - destruct (h !! p) as [po|] eqn:Hp; [|done].
    destruct (instanceofThrowable po) eqn:Hthr.
    + intros Hw. destruct (IH _ _ _ _ _ Hw) as (l & Hl & Hlast & -> & Hfresh).
      exists (head :: l). split.
      { econstructor; [done| |done]. rewrite Hprev. cbn. by rewrite Hp, Hthr. }
      split.
      { destruct (prevChain_head _ _ _ Hl) as [l' ->]. done. }
      split; [set_solver|].
      intros x [->|Hin]%elem_of_cons; [done|]. specialize (Hfresh x Hin). set_solver.
    + apply Hend. cbn. by rewrite Hp, Hthr.
Qed.

(** A walk that reports a revisit started at an object with no chain
    that avoids what had been seen. *)
Lemma findAcyclicPrev_cycle fuel : forall h seen head seen',
  findAcyclicPrev fuel h seen head = WalkCycle seen' ->
  ~ exists l, prevChain h head l /\ (forall x, x ∈ l -> x ∉ seen).
Proof.
  induction fuel as [|fuel IH]; intros h seen head seen';
    cbn [findAcyclicPrev]; [done|].
  destruct (h !! head) as [o|] eqn:Hhead; [|done].
  destruct (debug && negb (instanceofThrowable o)); [done|].
  case_bool_decide as Hseen.
  { intros _ (l & Hl & Hfresh). destruct (prevChain_head _ _ _ Hl) as [l' ->].
    apply (Hfresh head); [left|done]. }
  destruct (prop_previous o) as [| |n|p] eqn:Hprev; try done.
  - by destruct debug.
  - destruct (h !! p) as [po|] eqn:Hp; [|done].
    destruct (instanceofThrowable po) eqn:Hthr; [|done].
    intros Hw (l & Hl & Hfresh). apply (IH _ _ _ _ Hw).
    pose proof (prevChain_NoDup _ _ _ Hl) as Hnd.
    inversion Hl as [o' d' Ho' Hd'|o' d' p' l' Ho' Hd' Hl']; simplify_eq.
    + rewrite Hprev in Hd'. cbn in Hd'. by rewrite Hp, Hthr in Hd'.
    + rewrite Hprev in Hd'. cbn in Hd'. rewrite Hp, Hthr in Hd'. simplify_eq.
      exists l'. split; [done|]. intros x Hin.
      apply NoDup_cons in Hnd as [Hnotin _].
      assert (x <> head) by (intros ->; done).
      specialize (Hfresh x (list_elem_of_further _ _ _ Hin)). set_solver.
Qed.

(** Each round of the walk puts an object of the store into [seen]. *)
Lemma findAcyclicPrev_fuel fuel : forall h seen head,
  (size (dom h ∖ seen) < fuel)%nat ->
  findAcyclicPrev fuel h seen head <> WalkNoFuel.
Proof.
  induction fuel as [|fuel IH]; intros h seen head Hsz; [lia|].
  cbn [findAcyclicPrev].
  destruct (h !! head) as [o|] eqn:Hhead; [|done].
  destruct (debug && negb (instanceofThrowable o)); [done|].
  case_bool_decide as Hseen; [done|].
  destruct (prop_previous o) as [| |n|p]; try done.
  - by destruct debug.
  - destruct (h !! p) as [po|]; [|done].
    destruct (instanceofThrowable po); [|done].
    apply IH.
    assert (dom h ∖ ({[head]} ∪ seen) ⊂ dom h ∖ seen) as Hsub.
    { apply elem_of_dom_2 in Hhead. set_solver. }
    apply subset_size in Hsub. lia.
Qed.
End Walk.

(** ** What [chainFaultObjects] does to the object store *)

Lemma throwableOf_insert h owner o v x :
  h !! owner = Some o ->
  throwableOf (<[owner := set_previous o v]> h) x = throwableOf h x.
Proof.
  intros Ho. destruct x as [| |n|p]; try done. cbn.
  destruct (decide (p = owner)) as [->|Hne].
  - by rewrite lookup_insert_eq, Ho.
  - by rewrite lookup_insert_ne.
Qed.

Lemma prevChain_insert_other h owner o v a l :
  h !! owner = Some o -> prevChain h a l -> owner ∉ l ->
  prevChain (<[owner := set_previous o v]> h) a l.
Proof.
  intros Ho. induction 1 as [a d Ha Hd|a d p l Ha Hd Hl IH]; intros Hnot.
  - econstructor.
    + rewrite lookup_insert_ne; [done|]. intros ->. apply Hnot. left.
    + by rewrite throwableOf_insert.
  - apply not_elem_of_cons in Hnot as [Hne Hnot]. econstructor.
    + by rewrite lookup_insert_ne.
    + by rewrite throwableOf_insert.
    + by apply IH.
Qed.

Lemma prevChain_relink h owner o v lo :
  h !! owner = Some o ->
  prevChain (<[owner := set_previous o v]> h) owner lo ->
  forall l1' top, prevChain h top (l1' ++ [owner]) ->
  prevChain (<[owner := set_previous o v]> h) top (l1' ++ lo).
Proof.
  intros Ho Hlo. induction l1' as [|a l1' IH]; intros top Hl.
  - destruct (prevChain_head _ _ _ Hl) as [l' [= <- _]]. done.
  - pose proof (prevChain_NoDup _ _ _ Hl) as Hnd.
    inversion Hl as [o' d' Ho' Hd' Heq|o' d' p' l' Ho' Hd' Hl' Heq]; simplify_eq.
    { by destruct l1'. }
    cbn in Hnd. apply NoDup_cons in Hnd as [Hnotin _].
    assert (a <> owner) by (intros ->; apply Hnotin; set_solver).
    cbn. econstructor.
    + by rewrite lookup_insert_ne.
    + by rewrite throwableOf_insert.
    + by apply IH.
Qed.

Lemma last_Some_snoc {A} (l : list A) x : last l = Some x -> exists l', l = l' ++ [x].
Proof.
  intros H. destruct l as [|a l] using rev_ind; [done|].
  rewrite last_snoc in H. simplify_eq. eauto.
Qed.

Lemma prevChain_last_end h a l owner :
  prevChain h a l -> last l = Some owner ->
  exists o, h !! owner = Some o /\ throwableOf h (prop_previous o) = None.
Proof.
  induction 1 as [a d Ha Hd|a d p l Ha Hd Hl IH].
  - intros [= <-]. eauto.
  - destruct (prevChain_head _ _ _ Hl) as [l' ->]. rewrite last_cons_cons. done.
Qed.

(** Writing a throwable with a chain that avoids [owner] into the slot at
    the end of a chain keeps every chain of the store finite. *)
Lemma prevChain_insert_acyclic h owner o v lo :
  h !! owner = Some o -> throwableOf h (prop_previous o) = None ->
  prevChain (<[owner := set_previous o v]> h) owner lo ->
  forall x l, prevChain h x l -> acyclic (<[owner := set_previous o v]> h) x.
Proof.
  intros Ho Hend Hlo x l. induction 1 as [x d Hx Hd|x d p l Hx Hd Hl IH].
  - destruct (decide (x = owner)) as [->|Hne]; [by exists lo|].
    exists [x]. econstructor; [by rewrite lookup_insert_ne|by rewrite throwableOf_insert].
  - destruct (decide (x = owner)) as [->|Hne]; [congruence|].
    destruct IH as [l' Hl']. exists (x :: l'). econstructor; [|by rewrite throwableOf_insert|done].
    by rewrite lookup_insert_ne.
Qed.

Section Chainer.
Context {RT : Runtime}.

Lemma chainFaultObjects_run top prev s :
  wp (chainFaultObjects top prev)
     (fun _ s' =>
        (exists l1 l2 owner o,
            prevChain (heap s) top l1 /\ prevChain (heap s) prev l2 /\
            (forall x, x ∈ l1 -> x ∉ l2) /\
            last l1 = Some owner /\ heap s !! owner = Some o /\
            s' = with_heap s (<[owner := set_previous o (KindOfObject prev)]> (heap s)) /\
            acyclic (heap s') top /\
            (forall x, acyclic (heap s) x -> acyclic (heap s') x) /\
            (forall d, heap s !! prev = Some d -> instanceofThrowable d = true ->
                       prevChain (heap s') top (l1 ++ l2))) \/
        (~ (exists l1 l2, prevChain (heap s) top l1 /\ prevChain (heap s) prev l2 /\
                          (forall x, x ∈ l1 -> x ∉ l2)) /\
         s' = with_trace s (trace s ++ [EvDecRefObj prev])))
     (fun _ _ => False) chainAborts False s.
Proof.
  unfold chainFaultObjects. apply wp_bind, wp_gets.
  destruct (findAcyclicPrev (S (size (heap s))) (heap s) ∅ top) as [seen1|owner seen1|r|] eqn:H1.
  - (* top's chain revisits an object *)
    apply findAcyclicPrev_cycle in H1. unfold decRefObj, deref.
    apply wp_bind, wp_ret, wp_emit. right. split; [|done].
    intros (l1 & l2 & Hl1 & _). apply H1. exists l1. split; [done|]. set_solver.
  - destruct (findAcyclicPrev_slot _ _ _ _ _ _ H1) as (l1 & Hl1 & Hlast & -> & _).
    destruct (findAcyclicPrev (S (size (heap s))) (heap s) _ prev) as [seen2|owner2 seen2|r|] eqn:H2.
    + apply findAcyclicPrev_cycle in H2. unfold decRefObj, deref.
      apply wp_bind, wp_ret, wp_emit. right. split; [|done].
      intros (l1' & l2 & Hl1' & Hl2 & Hdisj). apply H2. exists l2. split; [done|].
      assert (l1' = l1) as -> by (by eapply prevChain_det).
      intros x Hx. specialize (Hdisj x). set_solver.
    + destruct (findAcyclicPrev_slot _ _ _ _ _ _ H2) as (l2 & Hl2 & _ & _ & Hfresh).
      assert (is_Some (heap s !! owner)) as [o Ho].
      { destruct (last_Some_snoc _ _ Hlast) as [l1' ->].
        apply (prevChain_in_dom _ _ _ _ Hl1), elem_of_app. right. left. }
      apply wp_bind. unfold getObj. apply wp_bind, wp_gets, wp_deref. rewrite Ho.
      unfold putObj. apply wp_modify. left.
      assert (Hdisj : forall x, x ∈ l1 -> x ∉ l2).
      { intros x Hx Hx2. apply (Hfresh x Hx2). set_solver. }
      destruct (last_Some_snoc _ _ Hlast) as [l1' ->].
      assert (Hownl2 : owner ∉ l2) by (apply Hdisj, elem_of_app; right; left).
      set (h' := <[owner:=set_previous o (KindOfObject prev)]> (heap s)).
      assert (Hl2' : prevChain h' prev l2) by (by apply prevChain_insert_other).
      assert (Hlo : forall d, heap s !! prev = Some d -> instanceofThrowable d = true ->
                              prevChain h' owner (owner :: l2)).
      { intros d Hd Hthr. econstructor; [apply lookup_insert_eq| |done].
        cbn. unfold h'. rewrite lookup_insert_ne by (intros ->; apply Hownl2;
          destruct (prevChain_head _ _ _ Hl2) as [? ->]; left).
        by rewrite Hd, Hthr. }
      exists (l1' ++ [owner]), l2, owner, o. repeat split; try done.
      * cbn. fold h'.
        destruct (throwableOf (heap s) (KindOfObject prev)) as [p|] eqn:Hthr.
        -- cbn in Hthr. destruct (heap s !! prev) as [d|] eqn:Hd; [|done].
           destruct (instanceofThrowable d) eqn:Hdt; [|done].
           exists (l1' ++ owner :: l2). eapply prevChain_relink; eauto.
        -- exists (l1' ++ [owner]). eapply prevChain_relink; [done| |done].
           econstructor; [apply lookup_insert_eq|]. cbn [set_previous prop_previous].
           by rewrite throwableOf_insert.
      * intros x [lx Hlx]. cbn. fold h'.
        destruct (prevChain_last_end _ _ _ _ Hl1 Hlast) as (o' & Ho' & Hend).
        simplify_eq.
        destruct (throwableOf (heap s) (KindOfObject prev)) as [p|] eqn:Hthr.
        -- cbn in Hthr. destruct (heap s !! prev) as [d|] eqn:Hd; [|done].
           destruct (instanceofThrowable d) eqn:Hdt; [|done].
           eapply prevChain_insert_acyclic; eauto.
        -- eapply (prevChain_insert_acyclic _ _ _ _ [owner]); eauto.
           econstructor; [apply lookup_insert_eq|]. cbn [set_previous prop_previous].
           by rewrite throwableOf_insert.
      * intros d Hd Hthr. cbn. fold h'. rewrite <- app_assoc. cbn.
        eapply prevChain_relink; eauto.
    + apply wp_abort. by eapply findAcyclicPrev_abort.
    + exfalso. eapply findAcyclicPrev_fuel; [|done].
      pose proof (subseteq_size (dom (heap s) ∖ (list_to_set l1 ∪ ∅)) (dom (heap s))) as Hsz.
      rewrite size_dom in Hsz. specialize (Hsz ltac:(set_solver)). lia.
  - apply wp_abort. by eapply findAcyclicPrev_abort.
  - exfalso. eapply findAcyclicPrev_fuel; [|done].
    pose proof (subseteq_size (dom (heap s) ∖ ∅) (dom (heap s))) as Hsz.
    rewrite size_dom in Hsz. specialize (Hsz ltac:(set_solver)). lia.
Qed.
(** The same, with the condition for the link named. *)
Lemma chainFaultObjects_link top prev s :
  wp (chainFaultObjects top prev)
     (fun _ s' =>
        (linkable (heap s) top prev /\
         (exists l1 owner o,
            prevChain (heap s) top l1 /\ last l1 = Some owner /\
            heap s !! owner = Some o /\
            s' = with_heap s
                   (<[owner := set_previous o (KindOfObject prev)]> (heap s))) /\
         acyclic (heap s') top /\
         (forall x, acyclic (heap s) x -> acyclic (heap s') x)) \/
        (~ linkable (heap s) top prev /\
         s' = with_trace s (trace s ++ [EvDecRefObj prev])))
     (fun _ _ => False) chainAborts False s.
Proof.
  eapply wp_mono; [apply chainFaultObjects_run|..]; try done. cbn beta.
  intros _ s' [(l1 & l2 & owner & o & H1 & H2 & H3 & H4 & H5 & H6 & H7 & H8 & _)|H].
  - left. split; [by exists l1, l2|]. split; [by exists l1, owner, o|]. done.
  - by right.
Qed.
End Chainer.

(** ** Every step of the unwinder is [stable] *)

Lemma fixed_chainFaultObjects {RT : Runtime} t p :
  runs fixed False (chainFaultObjects t p).
Proof.
  intros s. eapply wp_mono; [apply chainFaultObjects_run|..]; try done.
  - intros _ s' [(l1 & l2 & owner & o & _ & _ & _ & _ & _ & -> & _)|[_ ->]];
      apply fixed_update; try done.
    intros fp. cbn. by apply releaseCount_snoc.
  - apply chainAborts_notHost.
Qed.

Lemma fixed_faults_pop_back {RT : Runtime} : runs fixed False faults_pop_back.
Proof. unfold faults_pop_back. runs_tac. Qed.

Lemma fixed_faults_push_back {RT : Runtime} f : runs fixed False (faults_push_back f).
Proof. unfold faults_push_back. runs_tac. Qed.

Lemma fixed_faults_set_back {RT : Runtime} f : runs fixed False (faults_set_back f).
Proof. unfold faults_set_back. runs_tac. Qed.
#[global] Hint Resolve fixed_discardStackTemps fixed_discardMemberTVRefs
  fixed_ctorGuard fixed_chainFaultObjects fixed_faults_pop_back
  fixed_faults_push_back fixed_faults_set_back : runs.

Lemma fixed_chainFaults {RT : Runtime} f : runs fixed False (chainFaults f).
Proof. unfold chainFaults. runs_tac. Qed.

Lemma fixed_bindFault {RT : Runtime} f : runs fixed False (bindFault f).
Proof. unfold bindFault. runs_tac. Qed.

Lemma fixed_searchSkipped {RT : Runtime} : runs fixed False searchSkipped.
Proof. unfold searchSkipped. runs_tac. Qed.

Lemma fixed_discardFrameFaults {RT : Runtime} fs fp : runs fixed False (discardFrameFaults fs fp).
Proof. induction fs as [|f fs IH]; cbn [discardFrameFaults]; runs_tac. Qed.
#[global] Hint Resolve fixed_chainFaults fixed_bindFault fixed_searchSkipped
  fixed_discardFrameFaults : runs.

(** What [decRefLocals] does to a frame whose latch is clear. *)
Lemma decRefLocals_run {RT : Runtime} fp func e s ar :
  frames s !! fp = Some ar ->
  decRefLocals fp func e s =
  Ret tt (if localsDecRefd ar then s
          else with_trace (with_frames s (<[fp := setLocalsDecRefd ar]> (frames s)))
                          (trace s ++ [EvFreeLocalsUnwind fp (numLocals func) e])).
Proof.
  intros Hfp. unfold decRefLocals, getFrame, bind, gets, deref. rewrite Hfp. cbn.
  destruct (localsDecRefd ar); [done|]. cbn.
  unfold try_catch_all, frame_free_locals_unwind, bind, emit, modify, gets, putFrame, modify.
  cbn. by destruct (frame_free_locals_unwind_raises _ fp).
Qed.

Lemma stable_decRefLocals {RT : Runtime} fp func e : runs stable False (decRefLocals fp func e).
Proof.
  intros s. unfold wp. destruct (frames s !! fp) as [ar|] eqn:Hfp.
  - rewrite (decRefLocals_run _ _ _ _ ar Hfp).
    destruct (localsDecRefd ar) eqn:Hl; [done|].
    split; try done.
    + intros fp'. cbn. destruct (decide (fp' = fp)) as [->|Hne].
      * rewrite lookup_insert_eq, Hfp. constructor. by right.
      * rewrite lookup_insert_ne by done.
        destruct (frames s !! fp'); constructor. apply latched_refl.
    + intros Hs fp'. cbn. rewrite releaseCount_app. cbn.
      destruct (Hs fp') as [Hle Hz]. case_bool_decide as Hd.
      * subst fp'. rewrite (Hz ar Hfp Hl). split; [lia|].
        intros ar'. rewrite lookup_insert_eq. intros [= <-]. done.
      * split; [lia|]. intros ar'. rewrite lookup_insert_ne by done.
        intros H1 H2. rewrite (Hz ar' H1 H2). lia.
  - unfold decRefLocals, getFrame, bind, gets, deref. by rewrite Hfp.
Qed.
#[global] Hint Resolve stable_decRefLocals : runs.

Lemma stable_tearDownKind {RT : Runtime} fp ar func e : runs stable False (tearDownKind fp ar func e).
Proof.
  unfold tearDownKind. runs_tac.
Qed.
#[global] Hint Resolve stable_tearDownKind : runs.

Lemma stable_tearDownFrame {RT : Runtime} e : runs stable False (tearDownFrame e).
Proof.
  unfold tearDownFrame. runs_tac.
Qed.
#[global] Hint Resolve stable_tearDownFrame : runs.

Lemma stable_handlerSearch {RT : Runtime} f : runs stable True (handlerSearch f).
Proof. unfold handlerSearch. runs_tac. Qed.
#[global] Hint Resolve stable_handlerSearch : runs.

Lemma stable_handlerLoop {RT : Runtime} fuel : forall f, runs stable True (handlerLoop fuel f).
Proof. induction fuel as [|fuel IH]; intros f; cbn [handlerLoop]; runs_tac. Qed.
#[global] Hint Resolve stable_handlerLoop : runs.

Lemma stable_unwindPhp_frame {RT : Runtime} f : runs stable True (unwindPhp_frame f).
Proof. unfold unwindPhp_frame. runs_tac. Qed.
#[global] Hint Resolve stable_unwindPhp_frame : runs.

Lemma stable_unwindPhp_loop {RT : Runtime} fuel : forall f, runs stable True (unwindPhp_loop fuel f).
Proof. induction fuel as [|fuel IH]; intros f; cbn [unwindPhp_loop]; runs_tac. Qed.
#[global] Hint Resolve stable_unwindPhp_loop : runs.

Lemma stable_unwindPhp {RT : Runtime} fuel : runs stable True (unwindPhp fuel).
Proof. unfold unwindPhp. runs_tac. Qed.

(** ** Frame tearer *)

Lemma wp_decRefLocals {RT : Runtime} fp func e (Q : unit -> VM -> Prop) E B T s :
  match frames s !! fp with
  | Some ar =>
    Q tt (if localsDecRefd ar then s
          else with_trace (with_frames s (<[fp := setLocalsDecRefd ar]> (frames s)))
                          (trace s ++ [EvFreeLocalsUnwind fp (numLocals func) e]))
  | None => B UndefinedBehaviour
  end ->
  wp (decRefLocals fp func e) Q E B T s.
Proof.
  destruct (frames s !! fp) as [ar|] eqn:Hfp.
  - intros HQ. unfold wp. by rewrite (decRefLocals_run _ _ _ _ ar Hfp).
  - intros HB. unfold wp, decRefLocals, getFrame, bind, gets, deref. by rewrite Hfp.
Qed.

Ltac wp_td :=
  repeat (first
    [ lazymatch goal with
      | |- wp (decRefLocals _ _ _) _ _ _ _ _ =>
        apply wp_decRefLocals;
        cbn [frames with_trace with_frames with_heap with_vmpc with_vmfp
             with_faults with_unwindingCpp];
        lazymatch goal with
        | |- match ?x with _ => _ end => destruct x eqn:?
        end
      | |- wp (ctorGuard _ _ _ _) _ _ _ _ _ => unfold ctorGuard
      | |- wp (ctorGuardCond _ _ _) _ _ _ _ _ => unfold ctorGuardCond
      | |- wp (calledByFPushCtor _) _ _ _ _ _ => unfold calledByFPushCtor
      | |- wp (tearDownKind _ _ _ _) _ _ _ _ _ => unfold tearDownKind
      end
    | wp_step ]; cbn beta).

Section TearDown.
Context {RT : Runtime}.

Lemma tearDownFrame_returns e s :
  wp (tearDownFrame e) (fun e' s' => (e' = e \/ e' = None) /\ m_faults s' = m_faults s)
     (fun _ _ => False) tearDownAborts False s.
Proof.
  unfold tearDownFrame, tearDownAborts. wp_td; auto;
    repeat match goal with |- context [if ?b then _ else _] => destruct b end; auto.
Qed.

(** The latch and the count of releases after the chain of ifs. *)
Lemma tearDownKind_latch fp ar e s :
  frames s !! fp = Some ar ->
  wp (tearDownKind fp ar (m_func ar) e)
     (fun _ s' =>
        exists ar', frames s' !! fp = Some ar' /\
          localsDecRefd ar' =
            (if releaseSkipped s fp ar e then localsDecRefd ar else true) /\
          releaseCount fp (trace s') =
            (releaseCount fp (trace s) +
             (if negb (releaseSkipped s fp ar e) && negb (localsDecRefd ar)
              then 1 else 0))%nat)
     (fun _ _ => False) (fun r => r = NotReached) False s.
Proof.
  intros Hfp. unfold releaseSkipped, tearDownKind.
  destruct (resumed ar) eqn:Hres; cbn [negb andb].
  all: wp_td; try done.
  all: simplify_eq; cbn [negb andb orb bool_decide] in *.
  all: destruct (localsDecRefd ar) eqn:Hl;
       cbn [negb andb orb frames trace with_trace with_frames] in *;
       rewrite ?lookup_insert_eq in *; simplify_eq.
  all: repeat match goal with
         | H : ?x = _ |- context [?x] => rewrite H
         end; cbn [negb andb orb].
  all: eexists; (split; [first [eassumption|reflexivity]|]).
  all: rewrite ?Hl; (split; [try done|]).
  all: rewrite ?releaseCount_app; cbn; rewrite ?bool_decide_eq_true_2 by done;
       rewrite ?andb_false_r; cbn; try done; lia.
Qed.

Lemma wp_conj {A} (m : M A) Q1 Q2 E1 E2 B1 B2 (T1 T2 : Prop) s :
  wp m Q1 E1 B1 T1 s -> wp m Q2 E2 B2 T2 s ->
  wp m (fun a s' => Q1 a s' /\ Q2 a s') (fun x s' => E1 x s' /\ E2 x s')
       (fun r => B1 r /\ B2 r) (T1 /\ T2) s.
Proof. unfold wp. by destruct (m s). Qed.

Lemma tearDownFrame_latch e s fp ar :
  vmfp s = Some fp -> frames s !! fp = Some ar ->
  wp (tearDownFrame e)
     (fun _ s' =>
        exists ar', frames s' !! fp = Some ar' /\
          (localsDecRefd ar' = true \/
           (localsDecRefd ar' = localsDecRefd ar /\ resumed ar = true /\
            e = None /\
            (isAsyncFunction (m_func ar) = true \/
             isAsyncGenerator (m_func ar) = true))))
     (fun _ _ => False) tearDownAborts False s.
Proof.
  intros Hvmfp Hfp. unfold tearDownFrame, tearDownAborts.
  wp_td; auto.
  all: simplify_eq; cbn [frames vmfp trace heap with_trace with_frames with_heap
                        with_vmpc with_vmfp] in *.
  all: repeat match goal with
         | H : context [frames (if ?b then _ else _)] |- _ => destruct b eqn:?
         | |- context [frames (if ?b then _ else _)] => destruct b eqn:?
         end;
       cbn [frames vmfp trace heap with_trace with_frames with_heap
            with_vmpc with_vmfp] in *;
       rewrite ?lookup_insert_eq in *; simplify_eq.
  all: repeat match goal with
         | H : negb _ = false |- _ => apply negb_false_iff in H
         | H : negb _ = true |- _ => apply negb_true_iff in H
         end.
  all: eexists; (split; [first [eassumption|reflexivity]|]); cbn; auto 10.
Qed.

(** *** The host driver never sees an exception come back *)

Lemma stable_unwindCpp_frame : runs stable False unwindCpp_frame.
Proof.
  unfold unwindCpp_frame.
  do 8 (apply runs_bind; [apply _|solve [runs_tac]|intro]).
  intros s. apply wp_bind.
  eapply wp_mono;
    [exact (wp_conj _ _ _ _ _ _ _ _ _ _ (stable_tearDownFrame None s)
                    (tearDownFrame_returns None s))|..]; cbn beta.
  - intros e' s' [Hst [[->| ->] _]]; unfold assertx; cbn;
      rewrite andb_false_r; exact Hst.
  - tauto.
  - tauto.
  - tauto.
Qed.

Lemma stable_unwindCpp_loop fuel : runs stable True (unwindCpp_loop fuel).
Proof.
  pose proof stable_unwindCpp_frame.
  induction fuel as [|fuel IH]; cbn [unwindCpp_loop]; runs_tac.
Qed.

Lemma stable_unwindCpp_body fuel exc : runs stable True (unwindCpp_body fuel exc).
Proof.
  pose proof (stable_unwindCpp_loop fuel). unfold unwindCpp_body. runs_tac.
Qed.

Lemma unwindCpp_exit_run s :
  wp unwindCpp_exit (fun _ s' => m_unwindingCppException s' = false)
     (fun _ _ => False) notHostAssert False s.
Proof. unfold unwindCpp_exit. wp_auto; try done; discriminate. Qed.

Lemma unwindCpp_no_host_assert fuel exc s :
  wp (unwindCpp fuel exc) (fun _ s' => m_unwindingCppException s' = false)
     (fun _ s' => m_unwindingCppException s' = false)
     notHostAssert True s.
Proof.
  unfold unwindCpp. wp_auto; try discriminate.
  apply wp_scope_exit.
  assert (Hclean : forall (E : Thrown -> VM -> Prop) s',
             wp unwindCpp_exit (fun _ s' => m_unwindingCppException s' = false)
                E notHostAssert True s').
  { intros E s'. eapply wp_mono; [apply unwindCpp_exit_run|..]; done. }
  eapply wp_mono; [apply stable_unwindCpp_body| | |done|done]; cbn beta;
    intros; apply Hclean.
Qed.
End TearDown.

(** ** Constructor guard *)

Section Ctor.
Context {RT : Runtime}.

(** The constructor guard marks the receiver exactly when the condition
    of the specification holds, and does nothing else. *)
Lemma ctorGuard_run fp curOp ar s :
  wp (ctorGuard fp curOp ar (m_func ar))
     (fun _ s' =>
        (ctorGuardHolds s fp ar curOp = true /\
         exists this o, m_this ar = Some this /\ heap s !! this = Some o /\
                        s' = marked s this o) \/
        (ctorGuardHolds s fp ar curOp = false /\ s' = s))
     (fun _ _ => False) (fun r => r = UndefinedBehaviour) False s.
Proof.
  unfold ctorGuardHolds, marked. wp_td; try done.
  all: cbn [heap frames trace with_heap with_trace] in *; simplify_eq.
  all: repeat match goal with
         | H : ?x = _ |- context [?x] => rewrite H
         end; cbn [andb negb orb].
  all: rewrite ?andb_false_r; try (right; done).
  - left. apply andb_true_iff in Heqb as [Heqb _]. rewrite Heqb. eauto 10.
  - right. split; [|done].
    destruct (m_this ar); [|by rewrite andb_false_r].
    rewrite (bool_decide_eq_true_2 (is_Some (Some _))), andb_true_r in Heqb by eauto.
    by rewrite Heqb.
Qed.

(** The chain of ifs issues no [setNoDestruct], leaves the object store
    alone, and returns the exception it was given for a frame that is
    neither resumed nor of an async function. *)
Lemma tearDownKind_trace fp ar e s :
  wp (tearDownKind fp ar (m_func ar) e)
     (fun e' s' =>
        heap s' = heap s /\ vmfp s' = vmfp s /\
        (forall fp', sfp <$> frames s' !! fp' = sfp <$> frames s !! fp') /\
        (exists tl, trace s' = trace s ++ tl /\
                    forall o, EvSetNoDestruct o ∉ tl) /\
        (e' = e \/ e' = None) /\
        (resumed ar = false -> isAsyncFunction (m_func ar) = false -> e' = e))
     (fun _ _ => False)
     (fun r => r = UndefinedBehaviour \/ r = NotReached) False s.
Proof.
  wp_td; auto.
  all: simplify_eq.
  all: repeat match goal with
         | H : context [frames (if ?b then _ else _)] |- _ => destruct b eqn:?
         | |- context [trace (if ?b then _ else _)] => destruct b eqn:?
         end;
       cbn [frames vmfp trace heap with_trace with_frames with_heap
            with_vmpc with_vmfp] in *.
  all: repeat split; try done; auto.
  all: try (intros fp'; destruct (decide (fp' = fp)) as [->|];
            [rewrite lookup_insert_eq; by match goal with H : frames _ !! _ = Some _ |- _ => rewrite H end
            |by rewrite lookup_insert_ne]).
  all: try (rewrite <- ?app_assoc; eexists; split; [reflexivity|];
            intros o Ho; cbn in Ho;
            repeat (apply elem_of_cons in Ho as [Ho|Ho]; [discriminate|]);
            by apply elem_of_nil in Ho).
  all: try (exists []; split; [by rewrite app_nil_r|]; intros o Ho; by apply elem_of_nil in Ho).
  all: intros Hr Ha; rewrite ?Hr, ?Ha in *; cbn in *; congruence.
Qed.

Lemma tearDownFrame_ctor e s fp ar pc :
  vmfp s = Some fp -> frames s !! fp = Some ar -> vmpc s = Some pc ->
  wp (tearDownFrame e)
     (fun e' s' =>
        exists tl, trace s' = trace s ++ tl /\
          (forall o, EvSetNoDestruct o ∈ tl <->
                     ctorGuardHolds s fp ar (getOp (pc_unit pc) (pc_off pc)) = true /\
                     m_this ar = Some o) /\
          (ctorGuardHolds s fp ar (getOp (pc_unit pc) (pc_off pc)) = true ->
           exists this o tl',
             m_this ar = Some this /\ tl = EvSetNoDestruct this :: tl' /\
             heap s' !! this = Some o /\ dtorRunsOnRelease o = false) /\
          (ctorGuardHolds s fp ar (getOp (pc_unit pc) (pc_off pc)) = false ->
           heap s' = heap s) /\
          vmfp s' = sfp ar /\ (e' = e \/ e' = None) /\
          (resumed ar = false -> isAsyncFunction (m_func ar) = false ->
           e' = e))
     (fun _ _ => False) tearDownAborts False s.
Proof.
  intros Hvmfp Hfp Hpc. unfold tearDownFrame, tearDownAborts.
  wp_auto; simplify_eq; auto.
  eapply wp_mono; [apply ctorGuard_run| |done|intros r ->; auto|done].
  cbn beta. intros _ s1 Hs1. apply wp_bind.
  eapply wp_mono; [apply tearDownKind_trace| |done|intros r [->| ->]; auto|done].
  cbn beta. intros e' s2 (Hheap & Hvm & Hsfp & (tl & Htl & Hno) & Hnull & He).
  assert (Hfinal :
    exists tl0, trace s2 = trace s ++ tl0 /\
      (forall o, EvSetNoDestruct o ∈ tl0 <->
                 ctorGuardHolds s fp ar (getOp (pc_unit pc) (pc_off pc)) = true /\
                 m_this ar = Some o) /\
      (ctorGuardHolds s fp ar (getOp (pc_unit pc) (pc_off pc)) = true ->
       exists this o tl',
         m_this ar = Some this /\ tl0 = EvSetNoDestruct this :: tl' /\
         heap s2 !! this = Some o /\ dtorRunsOnRelease o = false) /\
      (ctorGuardHolds s fp ar (getOp (pc_unit pc) (pc_off pc)) = false ->
       heap s2 = heap s)).
  { destruct Hs1 as [(Hc & this & o & Hthis & Ho & ->)|[Hc ->]].
    - exists (EvSetNoDestruct this :: tl). rewrite Htl, Hheap. unfold marked. cbn.
      rewrite <- app_assoc. split; [done|]. split; [|split].
      + intros o'. rewrite elem_of_cons. split.
        * intros [[= ->]|Hin]; [done|]. by apply Hno in Hin.
        * intros [_ Ho']. left. congruence.
      + intros _. exists this, (setNoDestruct_obj o), tl.
        rewrite lookup_insert_eq. unfold dtorRunsOnRelease. cbn.
        by rewrite andb_false_r.
      + congruence.
    - exists tl. split; [done|]. split; [|split].
      + intros o'. split; [intros Hin; by apply Hno in Hin|]. intros [? _]. congruence.
      + congruence.
      + done. }
  destruct Hfinal as (tl0 & H1 & H2 & H3 & H4).
  assert (Hvm2 : vmfp s2 = vmfp s).
  { rewrite Hvm. by destruct Hs1 as [(_ & ? & ? & _ & _ & ->)|[_ ->]]. }
  wp_auto; auto.
  all: cbn [trace heap vmfp with_vmpc with_vmfp].
  all: exists tl0; split; [done|]; split; [exact H2|]; split; [exact H3|];
       split; [exact H4|]; split; [done|]; split; [done|];
       intros Hr Ha; by apply He.
Qed.
End Ctor.

(** ** Raising during the release of the locals *)

Lemma bind_ext {A B} (m1 m2 : M A) (k1 k2 : A -> M B) s :
  m1 s = m2 s -> (forall a s', k1 a s' = k2 a s') -> bind m1 k1 s = bind m2 k2 s.
Proof. intros Hm Hk. unfold bind. rewrite Hm. destruct (m2 s); auto. Qed.

(** Whether the release of the locals raises is invisible after
    [decRefLocals]. *)
Lemma decRefLocals_raise_irrelevant (RT1 RT2 : Runtime) fp func e s :
  @decRefLocals RT1 fp func e s = @decRefLocals RT2 fp func e s.
Proof.
  destruct (frames s !! fp) as [ar|] eqn:Hfp.
  - by rewrite !(decRefLocals_run _ _ _ _ ar Hfp).
  - unfold decRefLocals, getFrame, bind, gets, deref. by rewrite Hfp.
Qed.

Ltac ext_step :=
  lazymatch goal with
  | |- decRefLocals _ _ _ _ = decRefLocals _ _ _ _ =>
    apply decRefLocals_raise_irrelevant
  | |- bind _ _ _ = bind _ _ _ => apply bind_ext; [|intros]
  | |- (if ?b then _ else _) _ = (if ?b then _ else _) _ => destruct b
  | |- (match ?x with _ => _ end) _ = (match ?x with _ => _ end) _ => destruct x
  | |- _ => reflexivity
  end.

Lemma tearDownKind_raise_irrelevant (RT : Runtime) r fp ar func e s :
  @tearDownKind (with_release_raises RT r) fp ar func e s =
  @tearDownKind RT fp ar func e s.
Proof. unfold tearDownKind. cbn [afwh_isRunning with_release_raises]. repeat ext_step. Qed.

Lemma tearDownFrame_raise_irrelevant (RT : Runtime) r e s :
  @tearDownFrame (with_release_raises RT r) e s = @tearDownFrame RT e s.
Proof.
  unfold tearDownFrame.
  repeat (apply bind_ext; [reflexivity|intros]).
  apply bind_ext; [apply tearDownKind_raise_irrelevant|intros].
  reflexivity.
Qed.

(** ** Exception chainer *)

Section Chain.
Context {RT : Runtime}.

Lemma chainFaults_unfold fault s :
  chainFaults fault s =
  match m_faults s with
  | [] => Abort (AssertFailed 381)
  | _ :: [] => Ret (false, fault) (with_faults s [fault])
  | _ :: prev :: rest =>
    if (m_raiseNesting fault =? m_raiseNesting prev)
       && bool_decide (m_raiseFrame fault = m_raiseFrame prev)
    then
      let merged := mkFault (m_userException fault) (m_raiseNesting fault)
                      (m_raiseFrame fault) (m_raiseOffset prev)
                      (m_handledCount prev) in
      match m_userException fault, m_userException prev with
      | Some top, Some p =>
        bind (chainFaultObjects top p)
             (fun _ => faults_pop_back;; faults_push_back merged;;
                       ret (true, merged))
             (with_faults s (prev :: rest))
      | _, _ => Abort UndefinedBehaviour
      end
    else Ret (false, fault) (with_faults s (fault :: prev :: rest))
  end.
Proof.
  unfold chainFaults, always_assert, faults_pop_back, faults_push_back.
  unfold bind at 1, gets at 1.
  destruct (m_faults s) as [|cur [|prev rest]] eqn:Hfs.
  - by rewrite bool_decide_eq_true_2.
  - rewrite bool_decide_eq_false_2 by done. cbn [negb].
    unfold bind, gets, ret, modify. rewrite Hfs. done.
  - rewrite bool_decide_eq_false_2 by done. cbn [negb].
    unfold bind at 1. cbn [ret]. unfold bind at 1. unfold bind at 1, gets at 1.
    rewrite Hfs. cbn [modify]. unfold bind at 1, gets at 1.
    cbn [m_faults with_faults].
    destruct (_ && _); [|done].
    cbn [m_userException].
    destruct (m_userException fault) as [top|]; [|done].
    unfold bind at 1. cbn [deref ret].
    destruct (m_userException prev) as [p|]; [|done].
    unfold bind at 1. cbn [deref ret]. done.
Qed.
End Chain.

(** ** Guest faults dropped by the host driver *)

Lemma with_faults_trace_id s :
  with_trace (with_faults s (m_faults s)) (trace s ++ []) = s.
Proof. destruct s. unfold with_trace, with_faults. cbn. by rewrite app_nil_r. Qed.

Section Host.
Context {RT : Runtime}.

(** The loop of lines 604-609 drops the run of pinned records that
    starts at [back()], and nothing beneath it. *)
Lemma discardFrameFaults_run fp : forall fs s,
  m_faults s = fs ->
  Forall (fun f => is_Some (m_userException f))
         (pinnedRun fp (m_nestedVMs_size s) fs) ->
  discardFrameFaults fs fp s =
  Ret tt (with_trace
            (with_faults s (afterPinnedRun fp (m_nestedVMs_size s) fs))
            (trace s ++ decRefEvents (pinnedRun fp (m_nestedVMs_size s) fs))).
Proof.
  induction fs as [|f rest IH]; intros s Hfs Hex; cbn [discardFrameFaults].
  - cbn. rewrite <- Hfs. by rewrite with_faults_trace_id.
  - unfold bind at 1, gets at 1. cbn [pinnedRun afterPinnedRun] in *.
    destruct (faultPinned fp (m_nestedVMs_size s) f) eqn:Hpin.
    + apply Forall_cons in Hex as [[o Ho] Hex].
      unfold bind at 1, decRefObj. rewrite Ho. cbn [deref].
      unfold bind at 1. cbn [ret]. unfold emit at 1. cbn [modify].
      unfold bind at 1, faults_pop_back at 1, bind at 1, gets at 1.
      cbn [m_faults with_trace]. rewrite Hfs. cbn [modify].
      rewrite IH; [|done|done]. cbn [decRefEvents]. rewrite Ho.
      f_equal. unfold with_trace, with_faults. cbn. by rewrite <- app_assoc.
    + cbn. rewrite <- Hfs. by rewrite with_faults_trace_id.
Qed.

Lemma afterPinnedRun_head fp n fs f rest :
  afterPinnedRun fp n fs = f :: rest -> faultPinned fp n f = false.
Proof.
  induction fs as [|g fs IH]; cbn; [done|].
  destruct (faultPinned fp n g) eqn:Hg; [done|]. by intros [= -> ->].
Qed.

Lemma pinnedRun_split fp n fs :
  fs = pinnedRun fp n fs ++ afterPinnedRun fp n fs /\
  Forall (fun f => faultPinned fp n f = true) (pinnedRun fp n fs).
Proof.
  induction fs as [|g fs [IH1 IH2]]; cbn; [done|].
  destruct (faultPinned fp n g) eqn:Hg; cbn; [|done].
  split; [by f_equal|]. by constructor.
Qed.
End Host.

(** ** Skipped handler search *)

Lemma searchDisabled_fixed s s' :
  fixed s s' -> searchDisabled s' = searchDisabled s.
Proof.
  intros [[Hp _ _ _ _] Hfp _ Hfr]. unfold searchDisabled. by rewrite Hp, Hfp, Hfr.
Qed.

Section Search.
Context {RT : Runtime}.

Lemma searchSkipped_run s :
  searchDisabled s = true -> searchSkipped s = Ret true s.
Proof.
  unfold searchDisabled, searchSkipped, bind, gets.
  destruct (m_pendingException s); [done|]. cbn [orb].
  destruct (vmfp s) as [fp|]; [|done]. cbn.
  unfold getFrame, bind, gets.
  destruct (frames s !! fp) as [ar|]; [|done]. cbn. by intros ->.
Qed.

Lemma handlerSearch_skipped fault s :
  searchDisabled s = true -> handlerSearch fault s = Ret (Some fault) s.
Proof.
  intros Hs. unfold handlerSearch. unfold bind at 1. by rewrite searchSkipped_run.
Qed.

Lemma handlerLoop_skipped fuel fault s :
  searchDisabled s = true ->
  handlerLoop (S fuel) fault s =
  bind (chainFaults fault)
       (fun mf => if fst mf then handlerLoop fuel (snd mf)
                  else ret (Some (snd mf))) s.
Proof.
  intros Hs. cbn [handlerLoop]. unfold bind at 1.
  by rewrite handlerSearch_skipped.
Qed.

(** With the search disabled the inner loop never reaches the [return]
    that enters a handler. *)
Lemma handlerLoop_no_entry fuel : forall fault s,
  searchDisabled s = true ->
  wp (handlerLoop fuel fault)
     (fun r s' => r <> None /\ fixed s s')
     (fun _ s' => fixed s s') notHostAssert True s.
Proof.
  induction fuel as [|fuel IH]; intros fault s Hs; [done|].
  unfold wp. rewrite handlerLoop_skipped by done. fold (wp (A:=option FaultRec)).
  apply wp_bind.
  eapply wp_mono; [apply fixed_chainFaults|..]; try done. cbn beta.
  intros [merged fault'] s1 Hfx. cbn [fst snd].
  destruct merged.
  - eapply wp_mono; [apply IH|..]; try done; cbn beta.
    + by rewrite (searchDisabled_fixed _ _ Hfx).
    + intros r s2 [Hr Hfx2]. split; [done|by etrans].
    + intros x s2 Hfx2. by etrans.
  - apply wp_ret. done.
Qed.
End Search.

(** ** A pending host exception *)

(** A run of steps that are [stable] keeps a pending host exception
    pending. *)
Lemma wp_keep_pending {A C} (m : M C) (k : C -> M A)
    (Q : A -> VM -> Prop) (E : Thrown -> VM -> Prop) s :
  runs stable True m ->
  m_pendingException s = true ->
  (forall c s', m_pendingException s' = true ->
                wp (k c) Q E notHostAssert True s') ->
  (forall x s', m_pendingException s' = true -> E x s') ->
  wp (bind m k) Q E notHostAssert True s.
Proof.
  intros Hm Hp Hk HE. apply wp_bind.
  eapply wp_mono; [apply Hm|..]; try done; cbn beta.
  - intros c s' [Hp' _ _ _ _]. apply Hk. congruence.
  - intros x s' [Hp' _ _ _ _]. apply HE. congruence.
Qed.

Section Pending.
Context {RT : Runtime}.

Ltac keep_step :=
  lazymatch goal with
  | |- wp (bind _ _) _ _ _ _ _ =>
    apply wp_keep_pending; [solve [runs_tac]|assumption|intros ? ? ?|by intros]
  end.

Lemma unwindPhp_frame_pending fault s :
  m_pendingException s = true ->
  wp (unwindPhp_frame fault)
     (fun r s' => r <> inl EnteredHandler /\ m_pendingException s' = true)
     (fun _ _ => True) notHostAssert True s.
Proof.
  intros Hp. unfold unwindPhp_frame.
  do 8 keep_step.
  apply wp_bind.
  eapply wp_mono;
    [apply handlerLoop_no_entry; unfold searchDisabled;
     by match goal with H : _ = true |- _ => rewrite H end|..];
    try done; cbn beta.
  intros r s1 [Hr [[Hp1 _ _ _ _] _ _ _]].
  assert (Hp1' : m_pendingException s1 = true) by congruence.
  destruct r as [fault'|]; [|done].
  keep_step.
  lazymatch goal with |- wp (match ?e with _ => _ end) _ _ _ _ _ => destruct e end.
  - keep_step. apply wp_ret. done.
  - keep_step. apply wp_ret. done.
Qed.

Lemma unwindPhp_loop_pending fuel : forall fault s,
  m_pendingException s = true ->
  wp (unwindPhp_loop fuel fault) (fun r _ => r <> EnteredHandler)
     (fun _ _ => True) notHostAssert True s.
Proof.
  induction fuel as [|fuel IH]; intros fault s Hp; [done|].
  cbn [unwindPhp_loop]. apply wp_bind.
  eapply wp_mono; [by apply unwindPhp_frame_pending|..]; try done; cbn beta.
  intros [e|fault'] s1 [Hr Hp1].
  - apply wp_ret. congruence.
  - apply wp_bind, wp_gets. destruct (vmfp s1).
    + by apply IH.
    + keep_step. by apply wp_throw.
Qed.

Lemma unwindPhp_pending fuel s :
  m_pendingException s = true ->
  wp (unwindPhp fuel) (fun r _ => r <> EnteredHandler)
     (fun _ _ => True) notHostAssert True s.
Proof.
  intros Hp. unfold unwindPhp. do 5 keep_step. by apply unwindPhp_loop_pending.
Qed.
End Pending.

(** ** Fuel of the inner loops *)

(** *** Enough fuel *)

Lemma checkHandlers_loop_fuel fuel : forall func eh i pc fault,
  (Z.to_nat (m_handledCount fault - i) < fuel)%nat ->
  checkHandlers_loop fuel func eh i pc fault <> NoFuel.
Proof.
  induction fuel as [|fuel IH]; intros func eh i pc fault Hf; [lia|].
  cbn [checkHandlers_loop].
  destruct (m_handledCount fault <=? i) eqn:Hle.
  - destruct (_ =? INT_MAX); [done|]. by destruct (m_type eh).
  - destruct (negb _); [|done]. destruct (_ <? 0); [done|].
    destruct (_ !! _); [|done]. apply IH. lia.
Qed.

Lemma checkHandlers_fuel func eh pc fault :
  checkHandlers func eh pc fault <> NoFuel.
Proof. apply checkHandlers_loop_fuel. lia. Qed.

Lemma frameDepth_stable s s' x n :
  stable s s' -> frameDepth (frames s) x n -> frameDepth (frames s') x n.
Proof.
  intros [_ _ _ Hfr _]. induction 1 as [|fp ar n Hfp Hd IH]; [constructor|].
  specialize (Hfr fp). rewrite Hfp in Hfr. inversion Hfr as [a b Hl Ha Hb|]; subst.
  destruct Hl as [->| ->]; econstructor; eauto.
Qed.

Lemma frameDepth_det fr x n : frameDepth fr x n -> forall m, frameDepth fr x m -> n = m.
Proof.
  induction 1 as [|fp ar n Hfp Hd IH]; intros m Hm; inversion Hm; simplify_eq; [done|].
  f_equal. by apply IH.
Qed.

Section Fuel.
Context {RT : Runtime}.

Lemma handlerSearch_faults fault s :
  wp (handlerSearch fault)
     (fun r s' => stable s s' /\ vmfp s' = vmfp s /\
                  (r <> None -> m_faults s' = m_faults s))
     (fun _ s' => stable s s') notHostAssert False s.
Proof.
  unfold handlerSearch, searchSkipped. wp_auto; try discriminate; try done.
  all: try (by eapply checkHandlers_fuel).
  all: simplify_eq; cbn.
  all: split; [apply stable_update; reflexivity|]; split; [done|]; done.
Qed.

Lemma chainFaults_shrinks fault s :
  wp (chainFaults fault)
     (fun r s' => fixed s s' /\
                  (fst r = true ->
                   (length (m_faults s') < length (m_faults s))%nat))
     (fun _ _ => False) notHostAssert False s.
Proof.
  unfold wp at 1. rewrite chainFaults_unfold.
  destruct (m_faults s) as [|cur [|prev rest]] eqn:Hfs; [discriminate| |].
  { cbn. split; [apply fixed_update; reflexivity|done]. }
  destruct (_ && _).
  2: { cbn. split; [apply fixed_update; reflexivity|done]. }
  destruct (m_userException fault) as [top|]; [|discriminate].
  destruct (m_userException prev) as [p|]; [|discriminate].
  cbn zeta. apply wp_bind.
  eapply wp_mono;
    [apply chainFaultObjects_run| |done|apply chainAborts_notHost|done].
  cbn beta. intros _ s1 Hs1.
  assert (fixed s s1 /\ m_faults s1 = prev :: rest) as [Hfx Hfs1].
  { destruct Hs1 as [(l1 & l2 & owner & o & _ & _ & _ & _ & _ & -> & _)|[_ ->]];
      (split; [apply fixed_update; try reflexivity|done]).
    intros fp. cbn. by apply releaseCount_snoc. }
  unfold faults_pop_back, faults_push_back. wp_auto; try congruence.
  cbn. split; [|simplify_eq; cbn; lia].
  etrans; [exact Hfx|]. apply fixed_update; reflexivity.
Qed.

Lemma handlerLoop_fuel fuel : forall fault s,
  (length (m_faults s) < fuel)%nat ->
  wp (handlerLoop fuel fault) (fun _ s' => stable s s' /\ vmfp s' = vmfp s)
     (fun _ s' => stable s s') notHostAssert False s.
Proof.
  induction fuel as [|fuel IH]; intros fault s Hlen; [lia|].
  cbn [handlerLoop]. apply wp_bind.
  eapply wp_mono; [apply handlerSearch_faults|..]; try done. cbn beta.
  intros [fault1|] s1 (Hst & Hvm & Hfs); [|by apply wp_ret].
  apply wp_bind.
  eapply wp_mono; [apply chainFaults_shrinks|..]; try done. cbn beta.
  intros [merged fault2] s2 [Hfx Hshrink]. cbn [fst snd] in *.
  assert (Hst2 : stable s s2) by (etrans; [done|by apply fixed_stable]).
  assert (Hvm2 : vmfp s2 = vmfp s) by (destruct Hfx; congruence).
  destruct merged; [|by apply wp_ret].
  eapply wp_mono; [apply IH|..]; try done; cbn beta.
  - rewrite Hfs in Hshrink by done. specialize (Hshrink eq_refl). lia.
  - intros r s3 [Hst3 Hvm3]. split; [by etrans|congruence].
  - intros x s3 Hst3. by etrans.
Qed.
End Fuel.

(** ** Fuel of the host driver *)

Lemma wp_runs (R : VM -> VM -> Prop) (T : Prop) {A} (m : M A)
    (Q : A -> VM -> Prop) (E : Thrown -> VM -> Prop) s :
  runs R T m ->
  (forall a s', R s s' -> Q a s') ->
  (forall x s', R s s' -> E x s') ->
  wp m Q E notHostAssert T s.
Proof. intros Hm HQ HE. eapply wp_mono; [apply Hm|..]; eauto. Qed.

Lemma tearDownAborts_notHost r : tearDownAborts r -> notHostAssert r.
Proof. intros [->|[->| ->]]; discriminate. Qed.

Section Drivers.
Context {RT : Runtime}.

(** One round of the host driver leaves the frame for its caller. *)
Lemma unwindCpp_frame_step s fp ar :
  vmfp s = Some fp -> frames s !! fp = Some ar ->
  wp unwindCpp_frame (fun _ s' => vmfp s' = sfp ar /\ stable s s')
     (fun _ s' => stable s s') notHostAssert False s.
Proof.
  intros Hvm Hfp. unfold unwindCpp_frame.
  wp_auto; simplify_eq; try discriminate.
  eapply (wp_runs fixed); [apply fixed_discardFrameFaults| |by intros ?? []].
  intros _ s1 Hfx1. apply wp_bind.
  eapply (wp_runs fixed); [apply fixed_discardStackTemps| |].
  2: { intros x s2 Hfx2. etrans; by apply fixed_stable. }
  intros _ s2 Hfx2.
  assert (Hfx : fixed s s2) by (by etrans).
  destruct Hfx as [Hst Hvm2 Hpc2 Hfr2].
  apply wp_bind.
  eapply wp_mono;
    [exact (wp_conj _ _ _ _ _ _ _ _ _ _ (stable_tearDownFrame None s2)
              (tearDownFrame_ctor None s2 fp ar p ltac:(congruence)
                 ltac:(congruence) ltac:(congruence)))|..]; cbn beta.
  - intros e' s3 [Hst3 (tl & _ & _ & _ & _ & Hvm3 & Hnull & _)].
    assert (e' = None) as -> by (by destruct Hnull).
    unfold assertx. cbn. rewrite andb_false_r. apply wp_ret.
    split; [done|by etrans].
  - intros x s3 [Hst3 _]. by etrans.
  - intros r [Hr _]. exact Hr.
  - tauto.
Qed.

(** With fuel for every frame of the chain the host driver reaches the
    outermost frame. *)
Lemma unwindCpp_loop_fuel fuel : forall s n,
  frameDepth (frames s) (vmfp s) (S n) -> (n < fuel)%nat ->
  wp (unwindCpp_loop fuel) (fun _ s' => vmfp s' = None /\ stable s s')
     (fun _ s' => stable s s') notHostAssert False s.
Proof.
  induction fuel as [|fuel IH]; intros s n Hd Hn; [lia|].
  inversion Hd as [|fp ar n' Hfp Hd' Hvm]; subst. symmetry in Hvm.
  cbn [unwindCpp_loop]. apply wp_bind.
  eapply wp_mono; [by apply (unwindCpp_frame_step s fp ar)|..]; try done; cbn beta.
  intros _ s1 [Hvm1 Hst1]. apply wp_bind, wp_gets.
  pose proof (frameDepth_stable _ _ _ _ Hst1 Hd') as Hd1. rewrite <- Hvm1 in Hd1.
  destruct (vmfp s1) as [fp1|] eqn:Hfp1; [|by apply wp_ret].
  destruct n as [|n]; [inversion Hd1|].
  eapply wp_mono; [eapply IH; [rewrite Hfp1; exact Hd1|lia]|..]; try done; cbn beta.
  - intros _ s2 [Hvm2 Hst2]. split; [done|by etrans].
  - intros x s2 Hst2. by etrans.
Qed.
End Drivers.

(** ** Fuel of the guest driver *)

Lemma stable_lookup s s' fp ar :
  stable s s' -> frames s !! fp = Some ar ->
  exists ar', frames s' !! fp = Some ar' /\ sfp ar' = sfp ar.
Proof.
  intros [_ _ _ Hfr _] Hfp. specialize (Hfr fp). rewrite Hfp in Hfr.
  inversion Hfr as [a b Hl Ha Hb|]; subst. exists b. split; [done|].
  by destruct Hl as [->| ->].
Qed.

Section Guest.
Context {RT : Runtime}.

Lemma tearDownFrame_vmfp e s fp ar :
  vmfp s = Some fp -> frames s !! fp = Some ar ->
  wp (tearDownFrame e) (fun _ s' => vmfp s' = sfp ar /\ stable s s')
     (fun _ _ => False) notHostAssert False s.
Proof.
  intros Hvm Hfp. destruct (vmpc s) as [pc|] eqn:Hpc.
  - eapply wp_mono;
      [exact (wp_conj _ _ _ _ _ _ _ _ _ _ (stable_tearDownFrame e s)
                (tearDownFrame_ctor e s fp ar pc Hvm Hfp Hpc))|..]; cbn beta.
    + intros e' s' [Hst (tl & _ & _ & _ & _ & Hvm' & _)]. done.
    + tauto.
    + tauto.
    + tauto.
  - unfold wp, tearDownFrame, bind, gets, getFrame, bind, gets, peek_op, bind.
    rewrite Hvm. cbn. rewrite Hfp. cbn. rewrite Hpc. cbn. discriminate.
Qed.

(** One round of the guest driver either returns or leaves the frame for
    its caller. *)
Lemma unwindPhp_frame_step fault s fp ar :
  vmfp s = Some fp -> frames s !! fp = Some ar ->
  wp (unwindPhp_frame fault)
     (fun r s' => stable s s' /\ (forall f, r = inr f -> vmfp s' = sfp ar))
     (fun _ s' => stable s s') notHostAssert False s.
Proof.
  intros Hvm Hfp. unfold unwindPhp_frame. apply wp_bind.
  eapply (wp_runs fixed); [apply fixed_bindFault| |by intros ?? []].
  intros [fault1 discard] s1 Hfx1. cbn [fst snd].
  do 3 (apply wp_bind, wp_assertx; [|discriminate]).
  apply wp_bind, wp_gets. apply wp_bind, wp_deref.
  destruct (vmfp s1) as [fp1|]; [|discriminate].
  apply wp_bind.
  eapply (wp_runs fixed);
    [destruct discard; [apply fixed_discardStackTemps|apply runs_ret; apply _]| |].
  2: { intros x s2 Hfx2. etrans; by apply fixed_stable. }
  intros _ s2 Hfx2. apply wp_bind, wp_gets. apply wp_bind.
  assert (Hfx : fixed s s2) by (by etrans).
  eapply wp_mono; [apply handlerLoop_fuel; lia|..]; try done; cbn beta.
  2: { intros x s3 Hst3. etrans; [by apply fixed_stable|done]. }
  intros r s3 [Hst3 Hvm3].
  assert (Hst : stable s s3) by (etrans; [by apply fixed_stable|done]).
  assert (Hvm' : vmfp s3 = Some fp) by (destruct Hfx; congruence).
  destruct (stable_lookup _ _ _ _ Hst Hfp) as (ar3 & Hfp3 & Hsfp3).
  destruct r as [fault3|]; [|by apply wp_ret].
  apply wp_bind.
  eapply wp_mono; [by apply (tearDownFrame_vmfp _ s3 fp ar3)|..]; try done; cbn beta.
  intros e' s4 [Hvm4 Hst4].
  assert (Hst' : stable s s4) by (by etrans).
  destruct e' as [x|].
  - unfold faults_set_back. wp_auto; try discriminate. cbn.
    split; [etrans; [exact Hst'|apply stable_update; reflexivity]|].
    intros _ _. congruence.
  - unfold faults_pop_back. wp_auto; try discriminate. cbn.
    split; [etrans; [exact Hst'|apply stable_update; reflexivity]|done].
Qed.

(** With fuel for every frame of the chain the guest driver returns or
    rethrows. *)
Lemma unwindPhp_loop_fuel fuel : forall fault s n,
  frameDepth (frames s) (vmfp s) (S n) -> (n < fuel)%nat ->
  wp (unwindPhp_loop fuel fault) (fun _ s' => stable s s')
     (fun _ s' => stable s s') notHostAssert False s.
Proof.
  induction fuel as [|fuel IH]; intros fault s n Hd Hn; [lia|].
  inversion Hd as [|fp ar n' Hfp Hd' Hvm]; subst. symmetry in Hvm.
  cbn [unwindPhp_loop]. apply wp_bind.
  eapply wp_mono; [by apply (unwindPhp_frame_step fault s fp ar)|..]; try done; cbn beta.
  intros [e|fault'] s1 [Hst1 Hvm1]; [by apply wp_ret|].
  specialize (Hvm1 _ eq_refl). apply wp_bind, wp_gets.
  pose proof (frameDepth_stable _ _ _ _ Hst1 Hd') as Hd1. rewrite <- Hvm1 in Hd1.
  destruct (vmfp s1) as [fp1|] eqn:Hfp1.
  - destruct n as [|n]; [inversion Hd1|].
    eapply wp_mono; [eapply IH; [rewrite Hfp1; exact Hd1|lia]|..]; try done; cbn beta.
    + intros _ s2 Hst2. by etrans.
    + intros x s2 Hst2. by etrans.
  - unfold faults_pop_back. wp_auto; try discriminate. cbn.
    etrans; [exact Hst1|apply stable_update; reflexivity].
Qed.

Lemma unwindPhp_fuel fuel s n :
  frameDepth (frames s) (vmfp s) (S n) -> (n < fuel)%nat ->
  wp (unwindPhp fuel) (fun _ s' => stable s s')
     (fun _ s' => stable s s') notHostAssert False s.
Proof.
  intros Hd Hn. unfold unwindPhp. wp_auto; try discriminate.
  eapply (wp_runs fixed); [apply fixed_discardMemberTVRefs| |by intros ?? []].
  intros _ s1 Hfx1.
  eapply wp_mono; [eapply (unwindPhp_loop_fuel fuel _ s1 n); [|done]|..];
    try done; cbn beta.
  - destruct Hfx1 as [Hst Hvm _ Hfr]. by rewrite Hvm, Hfr.
  - intros _ s2 Hst2. etrans; [by apply fixed_stable|done].
  - intros x s2 Hst2. etrans; [by apply fixed_stable|done].
Qed.

(** The host driver with enough fuel ends by throwing, with the flag
    cleared. *)
Lemma unwindCpp_fuel fuel exc s n :
  frameDepth (frames s) (vmfp s) (S n) -> (n < fuel)%nat ->
  wp (unwindCpp fuel exc) (fun _ _ => False)
     (fun _ s' => m_unwindingCppException s' = false) notHostAssert False s.
Proof.
  intros Hd Hn. unfold unwindCpp. wp_auto; try discriminate.
  apply wp_scope_exit.
  assert (Hclean : forall (Q : unit -> VM -> Prop) s',
             (forall s'', m_unwindingCppException s'' = false -> Q tt s'') ->
             wp unwindCpp_exit Q (fun _ s' => m_unwindingCppException s' = false)
                notHostAssert False s').
  { intros Q s' HQ. eapply wp_mono; [apply unwindCpp_exit_run|..]; try done.
    intros [] s''. apply HQ. }
  unfold unwindCpp_body. apply wp_bind, wp_gets. apply wp_bind.
  eapply (wp_runs fixed); [apply fixed_discardMemberTVRefs| |].
  2: { intros x s1 _. by apply Hclean. }
  intros _ s1 Hfx1. apply wp_bind.
  eapply wp_mono; [eapply (unwindCpp_loop_fuel fuel s1 n); [|done]|..];
    try done; cbn beta.
  - destruct Hfx1 as [Hst Hvm _ Hfr]. by rewrite Hvm, Hfr.
  - intros _ s2 _. apply wp_throw. by apply Hclean.
  - intros x s2 _. by apply Hclean.
Qed.
End Guest.

(** ** Rules for [runsE] *)

Section RunsE.
Context (R : VM -> VM -> Prop) `{!PreOrder R} (P : Thrown -> Prop) (T : Prop).

Lemma runsE_bind {A C} (m : M C) (k : C -> M A) :
  runsE R P T m -> (forall c, runsE R P T (k c)) -> runsE R P T (bind m k).
Proof.
  intros Hm Hk s. apply wp_bind. eapply wp_mono; [apply Hm|..]; try done.
  intros c s' Hs. cbn beta in *. eapply wp_mono; [apply Hk|..]; try done;
    cbn beta.
  - intros. by etrans.
  - intros x s'' [? ?]. split; [by etrans|done].
Qed.

Lemma runsE_ret {A} (a : A) : runsE R P T (ret a).
Proof. intros s. unfold wp, ret. done. Qed.

Lemma runsE_gets {A} (f : VM -> A) : runsE R P T (gets f).
Proof. intros s. unfold wp, gets. done. Qed.

Lemma runsE_abort {A} r : r <> AssertFailed 616 -> runsE R P T (@abort A r).
Proof. by intros Hr s. Qed.

Lemma runsE_throw {A} x : P x -> runsE R P T (@throw A x).
Proof. intros Hx s. unfold wp, throw. done. Qed.

Lemma runsE_deref {A} (o : option A) : runsE R P T (deref o).
Proof. destruct o; [apply runsE_ret | by apply runsE_abort]. Qed.

Lemma runsE_always_assert b l : l <> 616%nat -> runsE R P T (always_assert b l).
Proof. intros Hl. destruct b; [apply runsE_ret | apply runsE_abort; congruence]. Qed.

Lemma runsE_assertx `{Runtime} b l : l <> 616%nat -> runsE R P T (assertx b l).
Proof.
  intros Hl. unfold assertx.
  destruct (_ && _); [apply runsE_abort; congruence | apply runsE_ret].
Qed.

Lemma runsE_modify (f : VM -> VM) : (forall s, R s (f s)) -> runsE R P T (modify f).
Proof. intros Hf s. apply Hf. Qed.

Lemma runsE_try_catch_all (P' : Thrown -> Prop) (m : M unit) :
  runsE R P' T m -> runsE R P T (try_catch_all m).
Proof.
  intros Hm s. apply wp_try_catch_all.
  eapply wp_mono; [apply Hm|..]; try done. cbn beta. by intros x s' [? _].
Qed.
End RunsE.

Lemma runsE_timeout (R : VM -> VM -> Prop) P {A} : runsE R P True (@timeout A).
Proof. by intros s. Qed.

Lemma runsE_weaken (R R' : VM -> VM -> Prop) (P P' : Thrown -> Prop)
    (T T' : Prop) {A} (m : M A) :
  runsE R P T m -> (forall s s', R s s' -> R' s s') ->
  (forall x, P x -> P' x) -> (T -> T') -> runsE R' P' T' m.
Proof.
  intros Hm HR HP HT s. eapply wp_mono; [apply Hm|..]; try done; cbn beta.
  - intros. by apply HR.
  - intros x s' [? ?]. split; [by apply HR|by apply HP].
Qed.

Lemma runsE_runs (R : VM -> VM -> Prop) P T {A} (m : M A) :
  runsE R P T m -> runs R T m.
Proof.
  intros Hm s. eapply wp_mono; [apply Hm|..]; try done. cbn beta. by intros x s' [? _].
Qed.

(** ** What every step of the unwinder keeps

    A relation [R] that is not concerned with the trace, the frames and
    the registers, and that [setNoDestruct] and the operations on the
    fault stack respect, is kept by every function of the unwinder; the
    only exceptions that leave are those of [Stack::popTV] and the ones
    the drivers throw at the end. *)

Create HintDb runsE.

Section Generic.
Context {RT : Runtime} (R : VM -> VM -> Prop) `{!PreOrder R}
        (P : Thrown -> Prop).
Hypothesis HP : forall x, raisedByPop x -> P x.
Hypothesis ig_trace : forall s t, R s (with_trace s t).
Hypothesis ig_frames : forall s x, R s (with_frames s x).
Hypothesis ig_vmfp : forall s x, R s (with_vmfp s x).
Hypothesis ig_vmpc : forall s x, R s (with_vmpc s x).
Hypothesis ig_flag : forall s x, R s (with_unwindingCpp s x).
Hypothesis R_mark : forall o, runsE R P False (setNoDestruct o).

Lemma gen_emit Q T e : runsE R Q T (emit e).
Proof. apply runsE_modify. intros s. apply ig_trace. Qed.

Ltac gen_step :=
  lazymatch goal with
  | |- PreOrder _ => apply _
  | |- forall _, _ => intro
  | |- runsE _ _ _ (bind _ _) => apply runsE_bind
  | |- runsE _ _ _ (ret _) => apply runsE_ret
  | |- runsE _ _ _ (gets _) => apply runsE_gets
  | |- runsE _ _ _ (abort _) => apply runsE_abort; first [discriminate | apply _]
  | |- runsE _ _ True timeout => apply runsE_timeout
  | |- runsE _ _ _ (deref _) => apply runsE_deref
  | |- runsE _ _ _ (always_assert _ _) =>
    apply runsE_always_assert; first [discriminate | apply _]
  | |- runsE _ _ _ (assertx _ _) =>
    apply runsE_assertx; first [discriminate | apply _]
  | |- runsE _ _ _ (emit _) => apply gen_emit
  | |- runsE _ _ _ (modify _) =>
    apply runsE_modify; intro;
    first [apply ig_trace|apply ig_frames|apply ig_vmfp|apply ig_vmpc|apply ig_flag]
  | |- runsE _ _ _ (getFrame _) => unfold getFrame
  | |- runsE _ _ _ (getObj _) => unfold getObj
  | |- runsE _ _ _ (putFrame _ _) => unfold putFrame
  | |- runsE _ _ _ (decRefObj _) => unfold decRefObj
  | |- runsE _ _ _ (peek_op _) => unfold peek_op
  | |- runsE _ _ _ (offsetOf _) => unfold offsetOf
  | |- runsE _ _ _ (if ?b then _ else _) => destruct b
  | |- runsE _ _ _ (match ?x with _ => _ end) => destruct x
  | |- runsE _ _ _ _ =>
    first [ solve [eauto with runsE]
          | eapply runsE_weaken; [solve [eauto with runsE]|auto|auto|tauto] ]
  end.

Ltac gen_tac :=
  repeat first [ gen_step | lazymatch goal with |- PreOrder _ => apply _ end ].

Lemma gen_popTV : runsE R P False popTV.
Proof.
  intros s. unfold popTV. wp_auto.
  - split; [apply ig_trace|]. apply HP. by eexists.
  - apply ig_trace.
Qed.
#[local] Hint Resolve gen_popTV R_mark : runsE.

Lemma gen_discardStackElems func elems :
  runsE R P False (discardStackElems func elems).
Proof.
  induction elems as [|[this pushOff|] rest IH]; cbn [discardStackElems]; gen_tac.
Qed.

Lemma gen_trashClsRefSlots fp n : forall i, runsE R P False (trashClsRefSlots fp i n).
Proof. induction n as [|n IH]; intros i; cbn [trashClsRefSlots]; gen_tac. Qed.
#[local] Hint Resolve gen_discardStackElems gen_trashClsRefSlots : runsE.

Lemma gen_discardStackTemps fp off : runsE R P False (discardStackTemps fp off).
Proof. unfold discardStackTemps. gen_tac. Qed.

Lemma gen_discardMemberTVRefs pc : runsE R P False (discardMemberTVRefs pc).
Proof. unfold discardMemberTVRefs. gen_tac. Qed.

Lemma gen_frame_free_locals_unwind fp n e :
  runsE R (fun _ => True) False (frame_free_locals_unwind fp n e).
Proof. intros s. unfold frame_free_locals_unwind. wp_auto; try split; try done; apply ig_trace. Qed.

Lemma gen_decRefLocals fp func e : runsE R P False (decRefLocals fp func e).
Proof.
  unfold decRefLocals. gen_tac.
  eapply runsE_try_catch_all; apply gen_frame_free_locals_unwind.
Qed.
#[local] Hint Resolve gen_decRefLocals : runsE.

Lemma gen_ctorGuard fp op ar func : runsE R P False (ctorGuard fp op ar func).
Proof. unfold ctorGuard, ctorGuardCond, calledByFPushCtor. gen_tac. Qed.

Lemma gen_tearDownKind fp ar func e : runsE R P False (tearDownKind fp ar func e).
Proof. unfold tearDownKind. gen_tac. Qed.
#[local] Hint Resolve gen_ctorGuard gen_tearDownKind : runsE.

Lemma gen_tearDownFrame e : runsE R P False (tearDownFrame e).
Proof. unfold tearDownFrame. gen_tac. Qed.

Lemma gen_bindFault f : runsE R P False (bindFault f).
Proof. unfold bindFault. gen_tac. Qed.

Lemma gen_searchSkipped : runsE R P False searchSkipped.
Proof. unfold searchSkipped. gen_tac. Qed.
#[local] Hint Resolve gen_discardStackTemps gen_discardMemberTVRefs
  gen_tearDownFrame gen_bindFault gen_searchSkipped : runsE.

(** *** The host driver *)

Hypothesis R_pop : runsE R P False faults_pop_back.
#[local] Hint Resolve R_pop : runsE.

Lemma gen_discardFrameFaults fp : forall fs, runsE R P False (discardFrameFaults fs fp).
Proof. induction fs as [|f rest IH]; cbn [discardFrameFaults]; gen_tac. Qed.
#[local] Hint Resolve gen_discardFrameFaults : runsE.

Lemma gen_unwindCpp_frame : runsE R P False unwindCpp_frame.
Proof.
  unfold unwindCpp_frame.
  do 8 (apply runsE_bind; [apply _|solve [gen_tac]|intro]).
  intros s. apply wp_bind.
  eapply wp_mono;
    [exact (wp_conj _ _ _ _ _ _ _ _ _ _ (gen_tearDownFrame None s)
                    (tearDownFrame_returns None s))|..]; cbn beta.
  - intros e' s' [Hst [[->| ->] _]]; unfold assertx; cbn;
      rewrite andb_false_r; exact Hst.
  - tauto.
  - tauto.
  - tauto.
Qed.
#[local] Hint Resolve gen_unwindCpp_frame : runsE.

Lemma gen_unwindCpp_loop fuel : runsE R P True (unwindCpp_loop fuel).
Proof. induction fuel as [|fuel IH]; cbn [unwindCpp_loop]; gen_tac. Qed.
#[local] Hint Resolve gen_unwindCpp_loop : runsE.

Lemma gen_unwindCpp_body fuel exc :
  P (ThrowCpp exc) -> runsE R P True (unwindCpp_body fuel exc).
Proof. intros Hexc. unfold unwindCpp_body. gen_tac. by apply runsE_throw. Qed.

Lemma gen_unwindCpp_exit Q : runsE R Q False unwindCpp_exit.
Proof. unfold unwindCpp_exit. gen_tac. Qed.

Lemma gen_unwindCpp fuel exc :
  P (ThrowCpp exc) -> runsE R P True (unwindCpp fuel exc).
Proof.
  intros Hexc. unfold unwindCpp.
  do 3 (apply runsE_bind; [apply _|solve [gen_tac]|intro]).
  intros s. apply wp_scope_exit.
  eapply wp_mono; [by apply gen_unwindCpp_body|..]; try done; cbn beta.
  - intros _ s' Hs.
    eapply wp_mono; [apply (gen_unwindCpp_exit (fun _ => False))|..]; try done;
      cbn beta.
    + intros. by etrans.
    + by intros x s'' [_ []].
  - intros x s' [Hs Hx].
    eapply wp_mono; [apply (gen_unwindCpp_exit (fun _ => False))|..]; try done;
      cbn beta.
    + intros. split; [by etrans|done].
    + by intros y s'' [_ []].
Qed.

(** *** The guest driver *)

Hypothesis R_set : forall f, runsE R P False (faults_set_back f).
Hypothesis R_chain : forall f, runsE R P False (chainFaults f).
#[local] Hint Resolve R_set R_chain : runsE.

Lemma gen_handlerSearch f : runsE R P True (handlerSearch f).
Proof. unfold handlerSearch. gen_tac. Qed.
#[local] Hint Resolve gen_handlerSearch : runsE.

Lemma gen_handlerLoop fuel : forall f, runsE R P True (handlerLoop fuel f).
Proof. induction fuel as [|fuel IH]; intros f; cbn [handlerLoop]; gen_tac. Qed.
#[local] Hint Resolve gen_handlerLoop : runsE.

End Generic.

(** ** The object store and the fault stack across a run *)

Lemma markedOrSame_refl d : markedOrSame d d.
Proof. by left. Qed.

Lemma markedOrSame_trans a b c :
  markedOrSame a b -> markedOrSame b c -> markedOrSame a c.
Proof. intros [->| ->] [->| ->]; unfold markedOrSame; auto. Qed.

Lemma sameShape_refl d : sameShape d d.
Proof. by repeat split. Qed.

Lemma sameShape_trans a b c : sameShape a b -> sameShape b c -> sameShape a c.
Proof.
  intros (Hc1 & Ht1 & Hn1) (Hc2 & Ht2 & Hn2). repeat split; try congruence. auto.
Qed.

Lemma markedOrSame_shape d d' : markedOrSame d d' -> sameShape d d'.
Proof. intros [->| ->]; [apply sameShape_refl|]. by repeat split. Qed.

Lemma option_Forall2_preorder {A} (Q : relation A) :
  (forall a, Q a a) -> (forall a b c, Q a b -> Q b c -> Q a c) ->
  forall (f g h : option A),
    (option_Forall2 Q f f) /\
    (option_Forall2 Q f g -> option_Forall2 Q g h -> option_Forall2 Q f h).
Proof.
  intros Hr Ht f g h. split.
  - destruct f; constructor. apply Hr.
  - intros H1 H2. destruct H1; inversion H2; subst; constructor. eauto.
Qed.

#[global] Instance marksOnly_preorder : PreOrder marksOnly.
Proof.
  split.
  - intros s o.
    apply (option_Forall2_preorder _ markedOrSame_refl markedOrSame_trans _ None None).
  - intros s1 s2 s3 H1 H2 o.
    eapply (option_Forall2_preorder _ markedOrSame_refl markedOrSame_trans); eauto.
Qed.

#[global] Instance heapShape_preorder : PreOrder heapShape.
Proof.
  split.
  - intros s o.
    apply (option_Forall2_preorder _ sameShape_refl sameShape_trans _ None None).
  - intros s1 s2 s3 H1 H2 o.
    eapply (option_Forall2_preorder _ sameShape_refl sameShape_trans); eauto.
Qed.

Lemma marksOnly_heapShape s s' : marksOnly s s' -> heapShape s s'.
Proof.
  intros H o. specialize (H o). destruct H; constructor. by apply markedOrSame_shape.
Qed.

Lemma marksOnly_eq s s' : heap s' = heap s -> marksOnly s s'.
Proof. intros Hh o. rewrite Hh. destruct (heap s !! o); constructor. by left. Qed.

Lemma heapShape_eq s s' : heap s' = heap s -> heapShape s s'.
Proof. intros Hh. by apply marksOnly_heapShape, marksOnly_eq. Qed.

Lemma marksOnly_mark s s' o d :
  heap s !! o = Some d -> heap s' = <[o := setNoDestruct_obj d]> (heap s) ->
  marksOnly s s'.
Proof.
  intros Ho Hh x. rewrite Hh. destruct (decide (x = o)) as [->|Hne].
  - rewrite lookup_insert_eq, Ho. constructor. by right.
  - rewrite lookup_insert_ne by done. destruct (heap s !! x); constructor. by left.
Qed.

Lemma heapShape_link s s' o d v :
  heap s !! o = Some d -> heap s' = <[o := set_previous d v]> (heap s) ->
  heapShape s s'.
Proof.
  intros Ho Hh x. rewrite Hh. destruct (decide (x = o)) as [->|Hne].
  - rewrite lookup_insert_eq, Ho. constructor. by repeat split.
  - rewrite lookup_insert_ne by done. destruct (heap s !! x); constructor.
    apply sameShape_refl.
Qed.

#[global] Instance calm_preorder : PreOrder calm.
Proof.
  split.
  - intros s. split; [done|reflexivity].
  - intros s1 s2 s3 [F1 H1] [F2 H2]. split; [congruence|by etrans].
Qed.

#[global] Instance hostKeeps_preorder : PreOrder hostKeeps.
Proof.
  split.
  - intros s. split; reflexivity.
  - intros s1 s2 s3 [F1 H1] [F2 H2]. split; by etrans.
Qed.

#[global] Instance guestKeeps_preorder : PreOrder guestKeeps.
Proof.
  split.
  - intros s. split; [lia|reflexivity].
  - intros s1 s2 s3 [F1 H1] [F2 H2]. split; [lia|by etrans].
Qed.

Lemma calm_hostKeeps s s' : calm s s' -> hostKeeps s s'.
Proof. intros [F H]. split; [by rewrite F|done]. Qed.

Lemma hostKeeps_guestKeeps s s' : hostKeeps s s' -> guestKeeps s s'.
Proof.
  intros [F H]. split; [by apply suffix_length|by apply marksOnly_heapShape].
Qed.

Lemma calm_update s s' :
  m_faults s' = m_faults s -> heap s' = heap s -> calm s s'.
Proof. intros F H. split; [done|by apply marksOnly_eq]. Qed.

Section Keeps.
Context {RT : Runtime}.

Lemma calm_setNoDestruct P o : runsE calm P False (setNoDestruct o).
Proof.
  intros s. unfold setNoDestruct. wp_auto; [|done].
  split; [done|]. by eapply marksOnly_mark.
Qed.

Lemma hostKeeps_setNoDestruct P o : runsE hostKeeps P False (setNoDestruct o).
Proof.
  eapply runsE_weaken; [apply (calm_setNoDestruct P)|apply calm_hostKeeps|done|done].
Qed.

Lemma guestKeeps_setNoDestruct P o : runsE guestKeeps P False (setNoDestruct o).
Proof.
  eapply runsE_weaken; [apply (hostKeeps_setNoDestruct P)|apply hostKeeps_guestKeeps|done|done].
Qed.

Lemma hostKeeps_pop_back P : runsE hostKeeps P False faults_pop_back.
Proof.
  intros s. unfold faults_pop_back. wp_auto; [done|].
  split; [|by apply marksOnly_eq]. cbn. rewrite Heql. by apply suffix_cons_r.
Qed.

Lemma guestKeeps_pop_back P : runsE guestKeeps P False faults_pop_back.
Proof.
  eapply runsE_weaken; [apply (hostKeeps_pop_back P)|apply hostKeeps_guestKeeps|done|done].
Qed.

Lemma guestKeeps_set_back P f : runsE guestKeeps P False (faults_set_back f).
Proof.
  intros s. unfold faults_set_back. wp_auto; [done|].
  split; [|by apply heapShape_eq]. cbn. rewrite Heql. cbn. lia.
Qed.

Lemma guestKeeps_chainFaults P f : runsE guestKeeps P False (chainFaults f).
Proof.
  intros s. unfold wp. rewrite chainFaults_unfold.
  destruct (m_faults s) as [|cur [|prev rest]] eqn:Hfs; [done| |].
  - split; [cbn; rewrite Hfs; cbn; lia|by apply heapShape_eq].
  - destruct (_ && _).
    + cbn zeta.
      destruct (m_userException f) as [top|]; [|done].
      destruct (m_userException prev) as [p|]; [|done].
      change (wp (bind (chainFaultObjects top p)
                    (fun _ => faults_pop_back;;
                       faults_push_back
                         (mkFault (Some top) (m_raiseNesting f) (m_raiseFrame f)
                                  (m_raiseOffset prev) (m_handledCount prev));;
                       ret (true, mkFault (Some top) (m_raiseNesting f)
                                    (m_raiseFrame f) (m_raiseOffset prev)
                                    (m_handledCount prev))))
                 (fun _ s' => guestKeeps s s')
                 (fun x s' => guestKeeps s s' /\ P x) notHostAssert False
                 (with_faults s (prev :: rest))).
      apply wp_bind.
      eapply wp_mono; [apply chainFaultObjects_link|..]; try done;
        [|apply chainAborts_notHost].
      cbn beta. intros _ s1 Hs1. unfold faults_pop_back, faults_push_back.
      destruct Hs1 as [(_ & (l1 & owner & o & _ & _ & Ho & ->) & _)|[_ ->]];
        wp_auto; try discriminate; cbn in *; simplify_eq.
      * split; [cbn; rewrite Hfs; cbn; lia|]. by eapply heapShape_link.
      * split; [cbn; rewrite Hfs; cbn; lia|]. by apply heapShape_eq.
    + split; [cbn; rewrite Hfs; cbn; lia|by apply heapShape_eq].
Qed.

(** Every function below the drivers leaves the fault stack alone and
    at most marks objects. *)
Lemma calm_discardStackTemps fp off :
  runsE calm raisedByPop False (discardStackTemps fp off).
Proof.
  apply gen_discardStackTemps; try apply _; try done.
  - intros. by apply calm_update.
  - apply calm_setNoDestruct.
Qed.

Lemma calm_tearDownFrame e : runsE calm (fun _ => False) False (tearDownFrame e).
Proof.
  apply gen_tearDownFrame; try apply _; try (intros; by apply calm_update).
  apply calm_setNoDestruct.
Qed.

Lemma calm_discardMemberTVRefs pc :
  runsE calm (fun _ => False) False (discardMemberTVRefs pc).
Proof.
  apply gen_discardMemberTVRefs; try apply _; try (intros; by apply calm_update).
Qed.

Lemma calm_bindFault f : runsE calm (fun _ => False) False (bindFault f).
Proof. apply gen_bindFault; try apply _; try (intros; by apply calm_update). Qed.

Lemma hostKeeps_update s s' :
  m_faults s' = m_faults s -> heap s' = heap s -> hostKeeps s s'.
Proof. intros. by apply calm_hostKeeps, calm_update. Qed.

Lemma guestKeeps_update s s' :
  m_faults s' = m_faults s -> heap s' = heap s -> guestKeeps s s'.
Proof. intros. by apply hostKeeps_guestKeeps, hostKeeps_update. Qed.

Lemma hostKeeps_unwindCpp fuel exc :
  runsE hostKeeps (fun x => raisedByPop x \/ x = ThrowCpp exc) True
        (unwindCpp fuel exc).
Proof.
  apply gen_unwindCpp; try apply _; try (intros; by apply hostKeeps_update); auto.
  - apply hostKeeps_setNoDestruct.
  - apply hostKeeps_pop_back.
Qed.

End Keeps.

(** ** What the frame tearer returns and where it leaves the machine *)

Section TearDownMore.
Context {RT : Runtime}.

Lemma tearDownKind_value fp ar e s :
  frames s !! fp = Some ar ->
  wp (tearDownKind fp ar (m_func ar) e)
     (fun e' s' =>
        e' = (if consumesException ar then None else e) /\
        exists tl, trace s' = trace s ++ tl /\
          List.filter isFramePop tl =
            if resumed ar then []
            else [EvNDiscard (numSlotsInFrame (m_func ar));
                  if bool_decide (is_Some e) && consumesException ar
                  then EvRet else EvDiscardAR])
     (fun _ _ => False)
     (fun r => r = NotReached /\ resumed ar = true /\
               isAsyncFunction (m_func ar) = false /\
               isAsyncGenerator (m_func ar) = false /\
               isNonAsyncGenerator (m_func ar) = false) False s.
Proof.
  intros Hfp. unfold consumesException, tearDownKind.
  destruct (resumed ar) eqn:Hres; cbn [negb andb].
  all: wp_td; try done.
  all: simplify_eq; cbn [negb andb orb bool_decide] in *.
  all: destruct (localsDecRefd ar) eqn:Hl;
       cbn [frames trace with_trace with_frames] in *;
       rewrite ?lookup_insert_eq in *; simplify_eq.
  all: cbn [m_func isFCallAwait setLocalsDecRefd] in *.
  all: repeat match goal with
         | H : ?x = _ |- context [?x] => rewrite H
         end; cbn [negb andb orb].
  all: rewrite <- ?app_assoc.
  all: try (split; [done|]; eexists; split; [reflexivity|]; cbn;
            rewrite ?bool_decide_eq_true_2 by (by eexists);
            rewrite ?bool_decide_eq_false_2 by (by intros [? ?]); reflexivity).
  all: try (split; [done|]; exists []; split; [by rewrite app_nil_r|]; reflexivity).
  all: split; [by destruct (_ && _)|]; eexists; split; [reflexivity|];
       cbn;
       first [reflexivity
             |rewrite bool_decide_eq_false_2 by (by intros [? ?]); reflexivity].
Qed.


(** The value [tearDownFrame] returns, the frame and the program counter
    it leaves, and the calls that pop the frame. *)
Lemma tearDownFrame_outcome e s fp ar :
  vmfp s = Some fp -> frames s !! fp = Some ar ->
  wp (tearDownFrame e)
     (fun e' s' =>
        e' = (if consumesException ar then None else e) /\
        vmfp s' = sfp ar /\ vmpc s' = callerPC s ar /\
        (vmfp s' = None <-> vmpc s' = None) /\
        exists tl, trace s' = trace s ++ tl /\
          List.filter isFramePop tl =
            if resumed ar then []
            else [EvNDiscard (numSlotsInFrame (m_func ar));
                  if bool_decide (is_Some e) && consumesException ar
                  then EvRet else EvDiscardAR])
     (fun _ _ => False)
     (fun r => r = UndefinedBehaviour \/
               (r = NotReached /\ resumed ar = true) \/
               r = AssertFailed 316) False s.
Proof.
  intros Hvmfp Hfp. unfold tearDownFrame.
  wp_auto; simplify_eq; auto.
  eapply wp_mono;
    [exact (wp_conj _ _ _ _ _ _ _ _ _ _
              (fixed_ctorGuard fp (getOp (pc_unit p) (pc_off p)) ar (m_func ar) s)
              (ctorGuard_run fp (getOp (pc_unit p) (pc_off p)) ar s))
    |..]; cbn beta; [|tauto|intros r [_ ->]; auto|tauto].
  intros _ s1 [Hfx Hs1]. apply wp_bind.
  assert (Hfp1 : frames s1 !! fp = Some ar) by (by rewrite (fx_frames _ _ Hfx)).
  eapply wp_mono;
    [exact (wp_conj _ _ _ _ _ _ _ _ _ _
              (stable_tearDownKind fp ar (m_func ar) e s1)
              (wp_conj _ _ _ _ _ _ _ _ _ _
                 (tearDownKind_trace fp ar e s1)
                 (tearDownKind_value fp ar e s1 Hfp1)))
    |..]; cbn beta; [|tauto|intros r (_ & _ & -> & ? & _); auto|tauto].
  intros e' s2 (Hst & (_ & Hvm2 & _) & -> & tl & Htl & Hpops).
  assert (Htr : exists tl0, trace s2 = trace s ++ tl0 /\
                  List.filter isFramePop tl0 = List.filter isFramePop tl).
  { destruct Hs1 as [(_ & this & o & _ & _ & ->)|[_ ->]].
    - exists (EvSetNoDestruct this :: tl). rewrite Htl. cbn.
      by rewrite <- app_assoc.
    - by exists tl. }
  destruct Htr as (tl0 & Htl0 & Hf0). rewrite <- Hf0 in Hpops.
  assert (Hcaller : forall p0 par, frames s2 !! p0 = Some par ->
            exists par0, frames s !! p0 = Some par0 /\ m_func par = m_func par0).
  { intros p0 par Hp0. pose proof (st_frames _ _ Hst p0) as Hl.
    rewrite (fx_frames _ _ Hfx), Hp0 in Hl. inversion Hl as [par0 ? Hlat Heq|]; subst.
    exists par0. split; [done|]. by destruct Hlat as [->| ->]. }
  unfold callerPC. wp_auto; auto.
  all: cbn [trace heap vmfp vmpc with_vmpc with_vmfp].
  all: try match goal with
           | H : frames _ !! ?f = Some ?a, H' : sfp _ = Some ?f |- _ =>
             destruct (Hcaller f a H) as (par0 & -> & <-)
           end.
  all: split; [done|]; split; [done|]; split; [done|]; (split; [done|]);
       by exists tl0.
Qed.


End TearDownMore.

(** ** How the host driver leaves *)

Lemma wp_runsE (R : VM -> VM -> Prop) (P : Thrown -> Prop) (T T' : Prop)
    {A} (m : M A) (Q : A -> VM -> Prop) (E : Thrown -> VM -> Prop) s :
  runsE R P T m ->
  (forall a s', R s s' -> Q a s') ->
  (forall x s', R s s' -> P x -> E x s') ->
  (T -> T') ->
  wp m Q E notHostAssert T' s.
Proof.
  intros Hm HQ HE HT. eapply wp_mono; [apply Hm|..]; try done; cbn beta.
  intros x s' [? ?]. by apply HE.
Qed.

Section HostEnd.
Context {RT : Runtime}.

Lemma hostKeeps_discardFrameFaults fs fp :
  runsE hostKeeps (fun _ => False) False (discardFrameFaults fs fp).
Proof.
  apply gen_discardFrameFaults; try apply _; try (intros; by apply hostKeeps_update).
  apply hostKeeps_pop_back.
Qed.

Lemma tearDownFrame_regs e s :
  wp (tearDownFrame e)
     (fun e' s' => (e' = e \/ e' = None) /\ m_faults s' = m_faults s /\
                   (vmfp s' = None -> vmpc s' = None))
     (fun _ _ => False) tearDownAborts False s.
Proof.
  destruct (vmfp s) as [fp|] eqn:Hvm;
    [destruct (frames s !! fp) as [ar|] eqn:Hfp|].
  - eapply wp_mono;
      [exact (wp_conj _ _ _ _ _ _ _ _ _ _ (tearDownFrame_returns e s)
                (tearDownFrame_outcome e s fp ar Hvm Hfp))|..]; cbn beta;
      [|tauto|tauto|tauto].
    intros e' s' [[He Hf] (_ & _ & _ & Hnull & _)]. split; [done|].
    split; [done|]. apply Hnull.
  - unfold wp, tearDownFrame, bind, gets, getFrame, bind, gets.
    rewrite Hvm. cbn. rewrite Hfp. cbn. by left.
  - unfold wp, tearDownFrame, bind, gets. rewrite Hvm. cbn. by left.
Qed.

Lemma unwindCpp_frame_end s :
  wp unwindCpp_frame (fun _ s' => vmfp s' = None -> vmpc s' = None)
     (fun x _ => raisedByPop x) notHostAssert False s.
Proof.
  unfold unwindCpp_frame. wp_auto; try done.
  eapply wp_runsE; [apply hostKeeps_discardFrameFaults| |done|done].
  intros _ s1 _. apply wp_bind.
  eapply wp_runsE; [apply calm_discardStackTemps| |done|done].
  intros _ s2 _. apply wp_bind.
  eapply wp_mono; [apply tearDownFrame_regs|..]; try done; cbn beta.
  - intros e' s3 ([->| ->] & _ & Hregs); unfold assertx; cbn;
      rewrite andb_false_r; exact Hregs.
  - apply tearDownAborts_notHost.
Qed.

Lemma unwindCpp_loop_end fuel : forall s,
  wp (unwindCpp_loop fuel) (fun _ s' => vmfp s' = None /\ vmpc s' = None)
     (fun x _ => raisedByPop x) notHostAssert True s.
Proof.
  induction fuel as [|fuel IH]; intros s; cbn [unwindCpp_loop]; [done|].
  apply wp_bind.
  eapply wp_mono; [apply unwindCpp_frame_end|..]; try done; cbn beta.
  intros _ s1 Hregs. wp_auto; [apply IH|]. split; [done|by apply Hregs].
Qed.

Lemma unwindCpp_end fuel exc s :
  wp (unwindCpp fuel exc) (fun _ _ => False)
     (fun x s' => (x = ThrowCpp exc /\ vmfp s' = None /\ vmpc s' = None /\
                   m_unwindingCppException s' = false) \/
                  (raisedByPop x /\ m_unwindingCppException s' = false))
     notHostAssert True s.
Proof.
  unfold unwindCpp. wp_auto; try discriminate.
  apply wp_scope_exit. unfold unwindCpp_body. wp_auto.
  eapply wp_runsE; [apply calm_discardMemberTVRefs| |done|done].
  intros _ s1 _. apply wp_bind.
  eapply wp_mono; [apply unwindCpp_loop_end|..]; try done; cbn beta.
  - intros _ s2 [Hfp Hpc]. wp_auto. unfold unwindCpp_exit. wp_auto; try discriminate.
    left. done.
  - intros x s2 Hx. unfold unwindCpp_exit. wp_auto; try discriminate.
    right. done.
Qed.

End HostEnd.

(** ** What the handler resolver changes *)

Lemma checkHandlers_loop_fields fuel : forall func eh i pc fault act pc' fault',
  checkHandlers_loop fuel func eh i pc fault = Found (act, pc', fault') ->
  m_userException fault' = m_userException fault /\
  m_raiseNesting fault' = m_raiseNesting fault /\
  m_raiseFrame fault' = m_raiseFrame fault /\
  m_raiseOffset fault' = m_raiseOffset fault /\
  match act with
  | ResumeVM =>
    m_handledCount fault' = m_handledCount fault + 1 /\
    exists c, (c = eh \/ c ∈ ehtab func) /\
              pc' = unit_at (func_unit func) (m_handler c)
  | Propagate => fault' = fault /\ pc' = pc
  end.
Proof.
  induction fuel as [|fuel IH]; intros func eh i pc fault act pc' fault';
    cbn [checkHandlers_loop]; [done|].
  destruct (m_handledCount fault <=? i).
  - destruct (m_handledCount fault =? INT_MAX); [done|].
    destruct (m_type eh); intros [= <- <- <-]; cbn; repeat split; eauto.
  - destruct (negb (m_parentIndex eh =? -1)).
    + destruct (m_parentIndex eh <? 0); [done|].
      destruct (ehtab func !! Z.to_nat (m_parentIndex eh)) as [eh'|] eqn:Hp; [|done].
      intros H. apply IH in H as (H1 & H2 & H3 & H4 & H5).
      repeat split; try done. destruct act; [done|].
      destruct H5 as [Hc (c & [->|Hin] & ->)]; (split; [done|]).
      * exists eh'. split; [right; by eapply list_elem_of_lookup_2|done].
      * exists c. by split; [right|].
    + intros [= <- <- <-]. by repeat split.
Qed.

(** ** How the guest driver leaves *)

Section GuestEnd.
Context {RT : Runtime}.

Lemma guestKeeps_handlerLoop fuel f :
  runsE guestKeeps (fun _ => False) True (handlerLoop fuel f).
Proof.
  apply gen_handlerLoop; try apply _; try (intros; by apply guestKeeps_update).
  - apply guestKeeps_set_back.
  - apply guestKeeps_chainFaults.
Qed.

Lemma bindFault_value f s :
  wp (bindFault f) (fun r _ => m_userException (fst r) = m_userException f) (fun _ _ => False)
     (fun _ => True) False s.
Proof. unfold bindFault. by wp_auto. Qed.

Lemma chainFaults_value f s :
  wp (chainFaults f) (fun r _ => m_userException (snd r) = m_userException f) (fun _ _ => False)
     (fun _ => True) True s.
Proof.
  unfold chainFaults. wp_auto; try done.
  eapply wp_mono; [apply chainFaultObjects_link|..]; try done; cbn beta.
  intros _ s1 _. by wp_auto.
Qed.

Lemma handlerSearch_value f s :
  wp (handlerSearch f)
     (fun r s' =>
        match r with
        | Some f' => m_userException f' = m_userException f
        | None => exists f' rest', m_faults s' = f' :: rest' /\ m_userException f' = m_userException f
        end)
     (fun _ _ => False) (fun _ => True) True s.
Proof.
  unfold handlerSearch, searchSkipped. wp_auto; try done.
  all: match goal with
       | H : checkHandlers _ _ _ _ = Found _ |- _ =>
         apply checkHandlers_loop_fields in H as (H1 & _)
       end.
  all: subst; cbn; eauto.
Qed.

Lemma handlerLoop_value fuel : forall f s,
  wp (handlerLoop fuel f)
     (fun r s' =>
        match r with
        | Some f' => m_userException f' = m_userException f
        | None => exists f' rest', m_faults s' = f' :: rest' /\ m_userException f' = m_userException f
        end)
     (fun _ _ => False) (fun _ => True) True s.
Proof.
  induction fuel as [|fuel IH]; intros f s; cbn [handlerLoop]; [done|].
  apply wp_bind.
  eapply wp_mono; [apply handlerSearch_value|..]; try done; cbn beta.
  intros [f1|] s1 H1; [|by wp_auto].
  apply wp_bind.
  eapply wp_mono; [apply chainFaults_value|..]; try done; cbn beta.
  intros [b f2] s2 H2. cbn [fst snd] in *. destruct b.
  - eapply wp_mono; [apply IH|..]; try done; cbn beta.
    intros [f3|] s3 H3; [congruence|].
    destruct H3 as (f' & rest' & ? & ?). exists f', rest'. split; [done|congruence].
  - wp_auto. congruence.
Qed.

Lemma unwindPhp_frame_exits fault s :
  wp (unwindPhp_frame fault)
     (fun r s' =>
        (length (m_faults s') <= length (m_faults s))%nat /\
        match r with
        | inl EnteredHandler =>
          exists f' rest', m_faults s' = f' :: rest' /\ m_userException f' = m_userException fault
        | inl ExceptionConsumed =>
          (length (m_faults s') < length (m_faults s))%nat
        | inr f' =>
          m_userException f' = m_userException fault /\ is_Some (m_userException fault) /\
          (vmfp s' = None -> vmpc s' = None)
        end)
     (fun x s' => raisedByPop x /\
                  (length (m_faults s') <= length (m_faults s))%nat)
     notHostAssert True s.
Proof.
  unfold unwindPhp_frame. apply wp_bind.
  eapply wp_mono;
    [exact (wp_conj _ _ _ _ _ _ _ _ _ _ (calm_bindFault fault s)
              (bindFault_value fault s))|..]; cbn beta; try tauto.
  intros [f1 d] s1 [[Hf1 _] He1]. cbn [fst snd] in *.
  wp_auto; try done.
  1: (eapply wp_runsE; [apply calm_discardStackTemps| | |done];
      [intros _ s2 [Hf2 _]; wp_auto
      |intros x s2 [Hf2 _] Hx; split; [done|rewrite Hf2, Hf1; lia]]).
  all: lazymatch goal with
       | |- wp (handlerLoop ?n ?f) _ _ _ _ ?sx =>
         assert (Hsx : m_faults sx = m_faults s) by congruence;
         eapply wp_mono;
           [exact (wp_conj _ _ _ _ _ _ _ _ _ _
                     (guestKeeps_handlerLoop n f sx)
                     (handlerLoop_value n f sx))|..];
           cbn beta; [|tauto|tauto|tauto]
       end.
  all: intros [f2|] s3 [[Hlen3 _] Hv3]; rewrite Hsx in Hlen3;
       [|wp_auto; split; [lia|];
         destruct Hv3 as (f' & rest' & ? & ?); exists f', rest';
         split; [done|congruence]].
  all: apply wp_bind;
       (eapply wp_mono; [apply tearDownFrame_regs|..]; cbn beta;
        [|done|apply tearDownAborts_notHost|done]).
  all: intros e' s4 (He' & Hf4 & Hregs4).
  all: destruct e' as [e'|]; unfold faults_pop_back, faults_set_back;
       wp_auto; try done; cbn [m_faults with_faults vmfp vmpc].
  all: assert (Hl3 : length (m_faults s3) = S (length l))
         by (by rewrite <- Hf4).
  all: cbn [length m_userException].
  all: try (split; lia).
  all: destruct He' as [He'|He']; [|done].
  all: split; [lia|]; split; [congruence|]; split; [|done].
  all: rewrite <- He1, <- Hv3, <- He'; by eexists.
Qed.

Lemma unwindPhp_loop_exits fuel : forall fault s,
  wp (unwindPhp_loop fuel fault)
     (fun r s' =>
        (length (m_faults s') <= length (m_faults s))%nat /\
        match r with
        | EnteredHandler =>
          exists f' rest', m_faults s' = f' :: rest' /\
                           m_userException f' = m_userException fault
        | ExceptionConsumed =>
          (length (m_faults s') < length (m_faults s))%nat
        end)
     (fun x s' =>
        (length (m_faults s') <= length (m_faults s))%nat /\
        ((x = ThrowObject (m_userException fault) /\
          is_Some (m_userException fault) /\
          vmfp s' = None /\ vmpc s' = None /\
          (length (m_faults s') < length (m_faults s))%nat) \/
         raisedByPop x))
     notHostAssert True s.
Proof.
  induction fuel as [|fuel IH]; intros fault s; cbn [unwindPhp_loop]; [done|].
  apply wp_bind.
  eapply wp_mono; [apply unwindPhp_frame_exits|..]; try done; cbn beta.
  - intros [e|f'] s1 [Hlen Hr]; [by wp_auto|].
    destruct Hr as (He & Hsome & Hregs).
    unfold faults_pop_back. wp_auto; try done.
    + eapply wp_mono; [apply IH|..]; try done; cbn beta.
      * intros r s2 [Hlen2 Hr2]. split; [lia|].
        destruct r; [|lia].
        destruct Hr2 as (f2 & rest2 & ? & ?). exists f2, rest2.
        split; [done|congruence].
      * intros x s2 [Hlen2 Hx]. split; [lia|].
        destruct Hx as [(-> & ? & ? & ? & ?)|?]; [left|by right].
        rewrite He. repeat split; try done. lia.
    + cbn [m_faults with_faults vmfp vmpc].
      assert (length (m_faults s1) = S (length l)) as Hl1 by (by rewrite Heql).
      cbn [length] in Hlen.
      split; [lia|]. left. rewrite He. repeat split; try done; first [by apply Hregs|lia].
  - intros x s1 [Hx Hlen]. split; [done|by right].
Qed.

Lemma unwindPhp_exits fuel s :
  wp (unwindPhp fuel)
     (fun r s' =>
        (length (m_faults s') <= length (m_faults s))%nat /\
        exists f, head (m_faults s) = Some f /\
          match r with
          | EnteredHandler =>
            exists f' rest', m_faults s' = f' :: rest' /\
                             m_userException f' = m_userException f
          | ExceptionConsumed =>
            (length (m_faults s') < length (m_faults s))%nat
          end)
     (fun x s' =>
        (length (m_faults s') <= length (m_faults s))%nat /\
        ((exists f e, head (m_faults s) = Some f /\
            m_userException f = Some e /\ x = ThrowObject (Some e) /\
            vmfp s' = None /\ vmpc s' = None /\
            (length (m_faults s') < length (m_faults s))%nat) \/
         raisedByPop x))
     notHostAssert True s.
Proof.
  unfold unwindPhp. wp_auto; try done.
  eapply wp_runsE; [apply calm_discardMemberTVRefs| |done|done].
  intros _ s1 [Hf1 _].
  eapply wp_mono; [apply unwindPhp_loop_exits|..]; try done; cbn beta.
  - intros r s2 [Hlen Hr]. rewrite Hf1 in *. split; [done|].
    eexists. split; [reflexivity|done].
  - intros x s2 [Hlen Hx]. rewrite Hf1 in *. split; [done|].
    destruct Hx as [(-> & [e He] & ? & ? & ?)|?]; [left|by right].
    eexists _, e. split; [reflexivity|]. by rewrite He.
Qed.

End GuestEnd.

(** ** The guest driver in a frame with a handler, and in an eager async
    function *)

Lemma fixed_calm_eqs s s' :
  fixed s s' -> calm s s' ->
  vmfp s' = vmfp s /\ vmpc s' = vmpc s /\ frames s' = frames s /\
  m_faults s' = m_faults s /\
  m_pendingException s' = m_pendingException s /\
  m_nestedVMs_size s' = m_nestedVMs_size s.
Proof. intros [[Hp _ Hn _ _] Hfp Hpc Hfr] [Hf _]. done. Qed.

Section Paths.
Context {RT : Runtime}.

Lemma discardStackElems_aborts func elems : forall s,
  wp (discardStackElems func elems) (fun _ _ => True) (fun _ _ => True)
     (fun r => r = UndefinedBehaviour \/ r = AssertFailed 88) False s.
Proof.
  induction elems as [|[this pushOff|] rest IH]; intros s;
    cbn [discardStackElems]; [done| |].
  - unfold setNoDestruct. wp_auto; auto.
  - unfold popTV. wp_auto; auto.
Qed.

Lemma trashClsRefSlots_aborts fp n : forall i s,
  wp (trashClsRefSlots fp i n) (fun _ _ => True) (fun _ _ => True)
     (fun _ => False) False s.
Proof.
  induction n as [|n IH]; intros i s; cbn [trashClsRefSlots]; [done|].
  wp_auto; auto.
Qed.

(** [discardStackTemps] leaves the registers, the frames and the fault
    stack alone; it is left by what [popTV] raises, and stops only at a
    frame or a receiver that is not there. *)
Lemma discardStackTemps_quiet fp off s :
  wp (discardStackTemps fp off)
     (fun _ s' => fixed s s' /\ calm s s')
     (fun x _ => raisedByPop x)
     (fun r => r = UndefinedBehaviour \/ r = AssertFailed 88) False s.
Proof.
  assert (Hab : wp (discardStackTemps fp off) (fun _ _ => True) (fun _ _ => True)
                   (fun r => r = UndefinedBehaviour \/ r = AssertFailed 88) False s).
  { unfold discardStackTemps, getFrame. wp_auto; auto.
    eapply wp_mono; [apply discardStackElems_aborts|..]; try done; cbn beta.
    intros _ s1 _. destruct debug; [|by wp_auto].
    eapply wp_mono; [apply trashClsRefSlots_aborts|..]; done. }
  eapply wp_mono;
    [exact (wp_conj _ _ _ _ _ _ _ _ _ _ (fixed_discardStackTemps fp off s)
              (wp_conj _ _ _ _ _ _ _ _ _ _ (calm_discardStackTemps fp off s) Hab))
    |..]; cbn beta; tauto.
Qed.

Lemma discardMemberTVRefs_quiet pc s :
  is_Some pc ->
  wp (discardMemberTVRefs pc) (fun _ s' => fixed s s' /\ calm s s')
     (fun _ _ => False) (fun _ => False) False s.
Proof.
  intros [p ->].
  assert (Hab : wp (discardMemberTVRefs (Some p)) (fun _ _ => True)
                   (fun _ _ => False) (fun _ => False) False s).
  { unfold discardMemberTVRefs, peek_op. by wp_auto. }
  eapply wp_mono;
    [exact (wp_conj _ _ _ _ _ _ _ _ _ _ (fixed_discardMemberTVRefs (Some p) s)
              (wp_conj _ _ _ _ _ _ _ _ _ _
                 (calm_discardMemberTVRefs (Some p) s) Hab))
    |..]; cbn beta; tauto.
Qed.





Lemma assertx_true b l : b = true -> assertx b l = ret tt.
Proof. intros ->. unfold assertx. by rewrite andb_false_r. Qed.

Lemma unwindPhp_unfold fuel s f rest pc :
  m_faults s = f :: rest -> vmpc s = Some pc ->
  unwindPhp fuel s =
  bind (discardMemberTVRefs (Some pc)) (fun _ => unwindPhp_loop fuel f) s.
Proof.
  intros Hfs Hpc. unfold unwindPhp. unfold bind at 1, gets at 1. rewrite Hfs.
  unfold bind at 1. rewrite assertx_true by done. cbn [ret deref head].
  unfold bind at 1. cbn [ret]. unfold bind at 1, gets at 1. by rewrite Hpc.
Qed.





End Paths.

(** ** What the temporary disposer does to the evaluation stack *)

Lemma marksOnly_noDestruct s s' o d :
  marksOnly s s' -> heap s !! o = Some d -> noDestruct d = true ->
  noDestruct <$> heap s' !! o = Some true.
Proof.
  intros H Ho Hn. specialize (H o). rewrite Ho in H.
  inversion H as [? d' [->| ->] Heq|]; subst; cbn; by rewrite ?Hn.
Qed.

Lemma marksOnly_dom s s' o :
  marksOnly s s' -> is_Some (heap s !! o) -> is_Some (heap s' !! o).
Proof.
  intros H [d Ho]. specialize (H o). rewrite Ho in H.
  inversion H; subst. by eexists.
Qed.

Section Temps.
Context {RT : Runtime}.

Lemma receiverReady_marksOnly s s' func el :
  marksOnly s s' -> receiverReady (heap s) func el ->
  receiverReady (heap s') func el.
Proof.
  intros Hm. destruct el as [this pushOff|]; [|done]. cbn.
  intros H Hc. destruct (H Hc) as (o & -> & Ho). exists o. split; [done|].
  by eapply marksOnly_dom.
Qed.

Lemma discardStackElems_run func elems : forall s,
  (forall s0, popTV_raises s0 = None) ->
  Forall (receiverReady (heap s) func) elems ->
  exists s' tl,
    discardStackElems func elems s = Ret tt s' /\
    trace s' = trace s ++ tl /\
    List.filter isStackPop tl = map popOf elems /\
    (forall o, EvSetNoDestruct o ∈ tl <->
               exists el, el ∈ elems /\ ctorReceiver func el = Some o) /\
    (forall o, EvSetNoDestruct o ∈ tl ->
               noDestruct <$> heap s' !! o = Some true) /\
    List.filter isTrash tl = [] /\
    marksOnly s s' /\ fixed s s' /\ m_faults s' = m_faults s.
Proof.
  induction elems as [|el rest IH]; intros s Hraise Hready.
  - exists s, []. cbn. rewrite app_nil_r.
    split; [done|]. split; [done|]. split; [done|]. split; [|split].
    + intros o. split; [intros Hin; by apply elem_of_nil in Hin|].
      intros (el & Hin & _). by apply elem_of_nil in Hin.
    + intros o Hin. by apply elem_of_nil in Hin.
    + split; [done|]. split; [reflexivity|]. split; [reflexivity|done].
  - apply Forall_cons in Hready as [Hel Hrest].
    destruct el as [this pushOff|].
    + cbn [discardStackElems].
      destruct (isFPushCtor (getOp (func_unit func) pushOff)) eqn:Hctor.
      * destruct (Hel Hctor) as (o & -> & [d Ho]).
        set (s1 := with_trace
                     (with_trace
                        (with_heap s (<[o := setNoDestruct_obj d]> (heap s)))
                        (trace s ++ [EvSetNoDestruct o]))
                     ((trace s ++ [EvSetNoDestruct o]) ++ [EvPopAR])).
        assert (Hm1 : marksOnly s s1) by (by eapply marksOnly_mark).
        destruct (IH s1 Hraise) as (s' & tl & Hrun & Htr & Hpops & Hmarks & Hnd & Htrash & Hm & Hfx & Hfs).
        { eapply Forall_impl; [exact Hrest|]. intros el.
          by apply receiverReady_marksOnly. }
        exists s', (EvSetNoDestruct o :: EvPopAR :: tl).
        split; [|split; [|split; [|split; [|split; [|split; [|split; [|split]]]]]]].
        -- unfold bind at 1. unfold bind at 1. unfold bind at 1.
           rewrite assertx_true by (apply bool_decide_eq_true; by eexists).
           cbn [ret deref]. unfold bind at 1. cbn [ret].
           unfold setNoDestruct, getObj, putObj, emit, bind, gets, modify, deref, ret.
           rewrite Ho. exact Hrun.
        -- rewrite Htr. subst s1. cbn. by rewrite <- !app_assoc.
        -- cbn. by rewrite Hpops.
        -- intros o'. rewrite !elem_of_cons, Hmarks. split.
           ++ intros [[= ->]|[?|(el & Hin & Hel')]]; [|done|].
              ** exists (PreLiveAR (Some o) pushOff). split; [by left|].
                 cbn. by rewrite Hctor.
              ** exists el. by split; [right|].
           ++ intros (el & Hin & Hel'). apply elem_of_cons in Hin as [->|Hin].
              ** left. cbn in Hel'. rewrite Hctor in Hel'. congruence.
              ** right. right. by exists el.
        -- intros o'. rewrite !elem_of_cons. intros [[= ->]|[?|Hin]]; [|done|by apply Hnd].
           eapply (marksOnly_noDestruct s1 s' o (setNoDestruct_obj d)); [done| |done].
           subst s1. cbn. by rewrite lookup_insert_eq.
        -- cbn. exact Htrash.
        -- by etrans.
        -- etrans; [|exact Hfx]. subst s1. apply fixed_update; try done.
           intros fp. cbn. by rewrite !releaseCount_app; cbn; lia.
        -- by rewrite Hfs.
      * set (s1 := with_trace s (trace s ++ [EvPopAR])).
        destruct (IH s1 Hraise Hrest) as (s' & tl & Hrun & Htr & Hpops & Hmarks & Hnd & Htrash & Hm & Hfx & Hfs).
        exists s', (EvPopAR :: tl).
        split; [|split; [|split; [|split; [|split; [|split; [|split; [|split]]]]]]].
        -- unfold bind at 1. cbn [ret]. unfold bind at 1. exact Hrun.
        -- rewrite Htr. subst s1. cbn. by rewrite <- !app_assoc.
        -- cbn. by rewrite Hpops.
        -- intros o'. rewrite !elem_of_cons, Hmarks. split.
           ++ intros [?|(el & Hin & Hel')]; [done|]. exists el. by split; [right|].
           ++ intros (el & Hin & Hel'). apply elem_of_cons in Hin as [->|Hin].
              ** cbn in Hel'. rewrite Hctor in Hel'. by destruct this.
              ** right. by exists el.
        -- intros o'. rewrite !elem_of_cons. intros [?|Hin]; [done|by apply Hnd].
        -- cbn. exact Htrash.
        -- etrans; [|exact Hm]. by apply marksOnly_eq.
        -- etrans; [|exact Hfx]. subst s1. apply fixed_update; try done.
           intros fp. cbn. by rewrite !releaseCount_app; cbn; lia.
        -- by rewrite Hfs.
    + cbn [discardStackElems].
      set (s1 := with_trace s (trace s ++ [EvPopTV])).
      destruct (IH s1 Hraise Hrest) as (s' & tl & Hrun & Htr & Hpops & Hmarks & Hnd & Htrash & Hm & Hfx & Hfs).
      exists s', (EvPopTV :: tl).
      split; [|split; [|split; [|split; [|split; [|split; [|split; [|split]]]]]]].
      * unfold bind at 1, popTV, bind at 1, emit, modify. unfold bind at 1, gets.
        rewrite Hraise. exact Hrun.
      * rewrite Htr. subst s1. cbn. by rewrite <- !app_assoc.
      * cbn. by rewrite Hpops.
      * intros o'. rewrite !elem_of_cons, Hmarks. split.
        -- intros [?|(el & Hin & Hel')]; [done|]. exists el. by split; [right|].
        -- intros (el & Hin & Hel'). apply elem_of_cons in Hin as [->|Hin]; [done|].
           right. by exists el.
      * intros o'. rewrite !elem_of_cons. intros [?|Hin]; [done|by apply Hnd].
      * cbn. exact Htrash.
      * etrans; [|exact Hm]. by apply marksOnly_eq.
      * etrans; [|exact Hfx]. subst s1. apply fixed_update; try done.
        intros fp. cbn. by rewrite !releaseCount_app; cbn; lia.
      * by rewrite Hfs.
Qed.

Lemma trashClsRefSlots_run fp n : forall i s,
  exists s',
    trashClsRefSlots fp i n s = Ret tt s' /\
    trace s' = trace s ++ map (EvTrashClsRef fp) (seq i n) /\
    heap s' = heap s /\ fixed s s' /\ m_faults s' = m_faults s.
Proof.
  induction n as [|n IH]; intros i s; cbn [trashClsRefSlots seq map].
  - exists s. rewrite app_nil_r.
    split; [done|]. split; [done|]. split; [done|]. split; [reflexivity|done].
  - set (s1 := with_trace s (trace s ++ [EvTrashClsRef fp i])).
    destruct (IH (S i) s1) as (s' & Hrun & Htr & Hh & Hfx & Hfs).
    exists s'. split; [|split; [|split; [|split]]].
    + unfold bind at 1. exact Hrun.
    + rewrite Htr. subst s1. cbn. by rewrite <- app_assoc.
    + by rewrite Hh.
    + etrans; [|exact Hfx]. subst s1. apply fixed_update; try done.
      intros fp'. cbn. by rewrite !releaseCount_app; cbn; lia.
    + by rewrite Hfs.
Qed.

Lemma filter_isStackPop_trash fp l :
  List.filter isStackPop (map (EvTrashClsRef fp) l) = [].
Proof. by induction l. Qed.

Lemma filter_isTrash_trash fp l :
  List.filter isTrash (map (EvTrashClsRef fp) l) = map (EvTrashClsRef fp) l.
Proof. induction l; [done|]. cbn. by f_equal. Qed.

Lemma discardStackTemps_run fp off s ar :
  frames s !! fp = Some ar ->
  (forall s0, popTV_raises s0 = None) ->
  Forall (receiverReady (heap s) (m_func ar)) (visitStackElems s fp off) ->
  exists s' tl,
    discardStackTemps fp off s = Ret tt s' /\
    trace s' = trace s ++ tl /\
    List.filter isStackPop tl = map popOf (visitStackElems s fp off) /\
    (forall o, EvSetNoDestruct o ∈ tl <->
               exists el, el ∈ visitStackElems s fp off /\
                          ctorReceiver (m_func ar) el = Some o) /\
    (forall o, EvSetNoDestruct o ∈ tl ->
               noDestruct <$> heap s' !! o = Some true) /\
    List.filter isTrash tl =
      (if debug
       then map (EvTrashClsRef fp) (seq 0 (numClsRefSlots (m_func ar)))
       else []) /\
    marksOnly s s' /\ fixed s s' /\ m_faults s' = m_faults s.
Proof.
  intros Hfp Hraise Hready.
  destruct (discardStackElems_run (m_func ar) _ s Hraise Hready)
    as (s1 & tl & Hrun & Htr & Hpops & Hmarks & Hnd & Htrash & Hm & Hfx & Hfs).
  assert (Heq : discardStackTemps fp off s =
                (if debug then trashClsRefSlots fp 0 (numClsRefSlots (m_func ar))
                 else ret tt) s1).
  { unfold discardStackTemps, getFrame. unfold bind at 1. unfold bind at 1, gets at 1.
    rewrite Hfp. cbn [deref ret]. unfold bind at 1, gets at 1. unfold bind at 1.
    by rewrite Hrun. }
  rewrite Heq. destruct debug.
  - destruct (trashClsRefSlots_run fp (numClsRefSlots (m_func ar)) 0%nat s1)
      as (s' & Hrun2 & Htr2 & Hh2 & Hfx2 & Hfs2).
    exists s', (tl ++ map (EvTrashClsRef fp) (seq 0 (numClsRefSlots (m_func ar)))).
    split; [done|]. split; [by rewrite Htr2, Htr, <- app_assoc|].
    split; [by rewrite List.filter_app, Hpops, filter_isStackPop_trash, app_nil_r|].
    split; [|split; [|split; [|split; [|split]]]].
    + intros o. rewrite elem_of_app, Hmarks. split; [|by left].
      intros [?|Hin]; [done|]. apply list_elem_of_fmap in Hin as (? & ? & _). done.
    + intros o. rewrite elem_of_app. intros [Hin|Hin].
      * rewrite Hh2. by apply Hnd.
      * apply list_elem_of_fmap in Hin as (? & ? & _). done.
    + by rewrite List.filter_app, Htrash, filter_isTrash_trash.
    + etrans; [exact Hm|]. by apply marksOnly_eq.
    + by etrans.
    + by rewrite Hfs2.
  - exists s1, tl. by rewrite Htrash.
Qed.

End Temps.

(** ** The rounds of the handler resolver *)

Lemma checkHandlers_loop_enough fuel1 : forall fuel2 func eh i pc fault,
  (Z.to_nat (m_handledCount fault - i) < fuel1)%nat ->
  (Z.to_nat (m_handledCount fault - i) < fuel2)%nat ->
  checkHandlers_loop fuel1 func eh i pc fault =
  checkHandlers_loop fuel2 func eh i pc fault.
Proof.
  induction fuel1 as [|fuel1 IH]; intros fuel2 func eh i pc fault H1 H2; [lia|].
  destruct fuel2 as [|fuel2]; [lia|]. cbn [checkHandlers_loop].
  destruct (Z.leb_spec (m_handledCount fault) i) as [Hle|Hgt]; [done|].
  destruct (negb _); [|done]. destruct (_ <? _); [done|].
  destruct (_ !! _); [|done]. apply IH; lia.
Qed.

Section More.
Context {RT : Runtime}.

(** ** The record [chainFaults] leaves on top *)

Lemma chainFaults_top f s :
  wp (chainFaults f)
     (fun r s' =>
        head (m_faults s') = Some (snd r) /\
        m_userException (snd r) = m_userException f /\
        m_raiseNesting (snd r) = m_raiseNesting f /\
        m_raiseFrame (snd r) = m_raiseFrame f /\
        (if fst r
         then S (length (m_faults s')) = length (m_faults s)
         else length (m_faults s') = length (m_faults s) /\ snd r = f))
     (fun _ _ => False)
     (fun r => r = AssertFailed 381 \/ chainAborts r) False s.
Proof.
  unfold wp. rewrite chainFaults_unfold.
  destruct (m_faults s) as [|cur [|prev rest]] eqn:Hfs; [by left|done|].
  destruct (_ && _); [|done]. cbn zeta.
  destruct (m_userException f) as [top|] eqn:Hf; [|right; by left].
  destruct (m_userException prev) as [p|]; [|right; by left].
  change (wp (bind (chainFaultObjects top p)
                (fun _ => faults_pop_back;;
                   faults_push_back
                     (mkFault (Some top) (m_raiseNesting f) (m_raiseFrame f)
                              (m_raiseOffset prev) (m_handledCount prev));;
                   ret (true, mkFault (Some top) (m_raiseNesting f)
                                (m_raiseFrame f) (m_raiseOffset prev)
                                (m_handledCount prev))))
             (fun r s' =>
                head (m_faults s') = Some (snd r) /\
                m_userException (snd r) = Some top /\
                m_raiseNesting (snd r) = m_raiseNesting f /\
                m_raiseFrame (snd r) = m_raiseFrame f /\
                (if fst r
                 then S (length (m_faults s')) = length (cur :: prev :: rest)
                 else length (m_faults s') = length (cur :: prev :: rest) /\
                      snd r = f))
             (fun _ _ => False)
             (fun r => r = AssertFailed 381 \/ chainAborts r) False
             (with_faults s (prev :: rest))).
  apply wp_bind.
  eapply wp_mono; [apply chainFaultObjects_link|..]; try done; [|by right].
  cbn beta. intros _ s1 Hs1. unfold faults_pop_back, faults_push_back.
  destruct Hs1 as [(_ & (l1 & owner & o & _ & _ & Ho & ->) & _)|[_ ->]];
    wp_auto; try discriminate; cbn in *; by simplify_eq.
Qed.

(** ** The guest driver entered with an exception object *)

Lemma unwindPhp_obj_exits fuel e s :
  wp (unwindPhp_obj fuel (Some e))
     (fun r s' =>
        match r with
        | EnteredHandler =>
          exists f' rest', m_faults s' = f' :: rest' /\
            m_userException f' = Some e /\
            (length rest' <= length (m_faults s))%nat
        | ExceptionConsumed =>
          (length (m_faults s') <= length (m_faults s))%nat
        end)
     (fun x s' =>
        (x = ThrowObject (Some e) /\ vmfp s' = None /\ vmpc s' = None /\
         (length (m_faults s') <= length (m_faults s))%nat) \/
        (raisedByPop x /\
         (length (m_faults s') <= S (length (m_faults s)))%nat))
     notHostAssert True s.
Proof.
  unfold unwindPhp_obj, faults_push_back. wp_auto; [|done]. simplify_eq.
  eapply wp_mono; [apply unwindPhp_exits|..]; try done; cbn beta.
  - intros r s' [Hlen (f & Hf & Hr)]. cbn in Hlen, Hf, Hr. simplify_eq.
    destruct r; [|lia].
    destruct Hr as (f' & rest' & Hfs & Hex). exists f', rest'.
    split; [done|]. split; [done|]. rewrite Hfs in Hlen. cbn in Hlen. lia.
  - intros x s' [Hlen [(f & e' & Hf & He & -> & ? & ? & Hlt)|Hx]];
      cbn in Hlen.
    + left. cbn in Hf, He, Hlt. simplify_eq. cbn in He. simplify_eq.
      repeat split; try done. lia.
    + right. by split.
Qed.

End More.

(** ** The frames the host driver pops *)

#[global] Instance noFramePops_preorder : PreOrder noFramePops.
Proof.
  split.
  - intros s. exists []. by rewrite app_nil_r.
  - intros s1 s2 s3 (t1 & H1 & F1) (t2 & H2 & F2). exists (t1 ++ t2).
    split; [by rewrite H2, H1, app_assoc|].
    by rewrite List.filter_app, F1, F2.
Qed.

Lemma noFramePops_update s s' : trace s' = trace s -> noFramePops s s'.
Proof. intros H. exists []. by rewrite app_nil_r. Qed.

Lemma noFramePops_emit P T e :
  isFramePop e = false -> runsE noFramePops P T (emit e).
Proof.
  intros He. apply runsE_modify. intros s. exists [e]. split; [done|].
  cbn. by rewrite He.
Qed.

Lemma frameChain_stable s s' x l :
  stable s s' -> frameChain (frames s) x l ->
  exists l', frameChain (frames s') x l' /\
             flat_map framePops l' = flat_map framePops l /\
             length l' = length l.
Proof.
  intros Hst Hc. induction Hc as [|fp ar l Hfp Hc (l' & IH1 & IH2 & IH3)].
  - exists []. split; [constructor|done].
  - pose proof (st_frames _ _ Hst fp) as Hl. rewrite Hfp in Hl.
    inversion Hl as [? ar' Hlat Heq|]; subst.
    exists ((fp, ar') :: l'). split; [|split].
    + constructor; [done|]. by destruct Hlat as [->| ->].
    + cbn. rewrite IH2. f_equal. unfold framePops. cbn.
      by destruct Hlat as [->| ->].
    + cbn. by rewrite IH3.
Qed.

Section HostPops.
Context {RT : Runtime}.

Ltac np_step :=
  lazymatch goal with
  | |- PreOrder _ => apply _
  | |- forall _, _ => intro
  | |- runsE _ _ _ (bind _ _) => apply runsE_bind
  | |- runsE _ _ _ (ret _) => apply runsE_ret
  | |- runsE _ _ _ (gets _) => apply runsE_gets
  | |- runsE _ _ _ (abort _) => apply runsE_abort; first [discriminate | apply _]
  | |- runsE _ _ _ (deref _) => apply runsE_deref
  | |- runsE _ _ _ (assertx _ _) =>
    apply runsE_assertx; first [discriminate | apply _]
  | |- runsE _ _ _ (emit _) => apply noFramePops_emit; reflexivity
  | |- runsE _ _ _ (modify _) =>
    apply runsE_modify; intro; apply noFramePops_update; reflexivity
  | |- runsE _ _ _ (getFrame _) => unfold getFrame
  | |- runsE _ _ _ (getObj _) => unfold getObj
  | |- runsE _ _ _ (putObj _ _) => unfold putObj
  | |- runsE _ _ _ (setNoDestruct _) => unfold setNoDestruct
  | |- runsE _ _ _ (decRefObj _) => unfold decRefObj
  | |- runsE _ _ _ (peek_op _) => unfold peek_op
  | |- runsE _ _ _ (faults_pop_back) => unfold faults_pop_back
  | |- runsE _ _ _ (if ?b then _ else _) => destruct b
  | |- runsE _ _ _ (match ?x with _ => _ end) => destruct x
  | |- runsE _ _ _ _ => solve [eauto]
  end.

Ltac np_tac :=
  repeat first [ np_step | lazymatch goal with |- PreOrder _ => apply _ end ].

Lemma noFramePops_popTV : runsE noFramePops raisedByPop False popTV.
Proof.
  intros s. unfold popTV. wp_auto.
  - split; [by exists [EvPopTV]|]. by eexists.
  - by exists [EvPopTV].
Qed.

Lemma noFramePops_discardStackElems func elems :
  runsE noFramePops raisedByPop False (discardStackElems func elems).
Proof.
  pose proof noFramePops_popTV.
  induction elems as [|[this pushOff|] rest IH]; cbn [discardStackElems]; np_tac.
Qed.

Lemma noFramePops_trashClsRefSlots fp n : forall i,
  runsE noFramePops raisedByPop False (trashClsRefSlots fp i n).
Proof. induction n as [|n IH]; intros i; cbn [trashClsRefSlots]; np_tac. Qed.

Lemma noFramePops_discardStackTemps fp off :
  runsE noFramePops raisedByPop False (discardStackTemps fp off).
Proof.
  pose proof noFramePops_discardStackElems. pose proof noFramePops_trashClsRefSlots.
  unfold discardStackTemps. np_tac.
Qed.

Lemma noFramePops_discardMemberTVRefs pc :
  runsE noFramePops (fun _ => False) False (discardMemberTVRefs pc).
Proof. unfold discardMemberTVRefs. np_tac. Qed.

Lemma noFramePops_discardFrameFaults fp : forall fs,
  runsE noFramePops (fun _ => False) False (discardFrameFaults fs fp).
Proof. induction fs as [|f rest IH]; cbn [discardFrameFaults]; np_tac. Qed.

Lemma unwindCpp_frame_pops s fp ar :
  vmfp s = Some fp -> frames s !! fp = Some ar ->
  wp unwindCpp_frame
     (fun _ s1 =>
        vmfp s1 = sfp ar /\ stable s s1 /\
        exists tl, trace s1 = trace s ++ tl /\
                   List.filter isFramePop tl = framePops (fp, ar))
     (fun x s1 => raisedByPop x /\ is_Some (vmfp s1))
     notHostAssert False s.
Proof.
  intros Hvm Hfp. unfold unwindCpp_frame, getFrame.
  apply wp_bind, wp_gets. rewrite Hvm. apply wp_bind, wp_deref.
  apply wp_bind, wp_bind, wp_gets. rewrite Hfp. apply wp_deref.
  apply wp_bind, wp_gets. destruct (vmpc s) as [p|] eqn:Hpc; [|done].
  apply wp_bind. unfold offsetOf. apply wp_bind, wp_deref, wp_ret.
  apply wp_bind, wp_gets. apply wp_bind.
  eapply wp_mono;
    [exact (wp_conj _ _ _ _ _ _ _ _ _ _
              (fixed_discardFrameFaults (m_faults s) fp s)
              (noFramePops_discardFrameFaults fp (m_faults s) s))|..];
    cbn beta; [|tauto|tauto|tauto].
  intros _ s1 [Hfx1 (t1 & Ht1 & Hp1)]. apply wp_bind.
  eapply wp_mono;
    [exact (wp_conj _ _ _ _ _ _ _ _ _ _
              (fixed_discardStackTemps fp (pc_off p) s1)
              (noFramePops_discardStackTemps fp (pc_off p) s1))|..];
    cbn beta; [| |tauto|tauto].
  2: { intros x s2 [Hfx2 [_ Hx]]. split; [done|].
       rewrite (fx_vmfp _ _ Hfx2), (fx_vmfp _ _ Hfx1), Hvm. by eexists. }
  intros _ s2 [Hfx2 (t2 & Ht2 & Hp2)]. apply wp_bind.
  assert (Hvm2 : vmfp s2 = Some fp)
    by (by rewrite (fx_vmfp _ _ Hfx2), (fx_vmfp _ _ Hfx1)).
  assert (Hfp2 : frames s2 !! fp = Some ar)
    by (by rewrite (fx_frames _ _ Hfx2), (fx_frames _ _ Hfx1)).
  eapply wp_mono;
    [exact (wp_conj _ _ _ _ _ _ _ _ _ _
              (stable_tearDownFrame None s2)
              (tearDownFrame_outcome None s2 fp ar Hvm2 Hfp2))|..];
    cbn beta; [|tauto|tauto|tauto].
  intros e' s3 [Hst3 (-> & Hvm3 & _ & _ & t3 & Ht3 & Hp3)].
  rewrite assertx_true by (by destruct (consumesException ar)).
  apply wp_ret. split; [done|]. split.
  - etrans; [apply fixed_stable, Hfx1|]. etrans; [apply fixed_stable, Hfx2|done].
  - exists (t1 ++ t2 ++ t3). split; [by rewrite Ht3, Ht2, Ht1, <- !app_assoc|].
    rewrite !List.filter_app, Hp1, Hp2, Hp3. unfold framePops. cbn.
    by destruct (resumed ar).
Qed.

Lemma unwindCpp_loop_pops fuel : forall s l,
  frameChain (frames s) (vmfp s) l -> l <> [] -> (length l <= fuel)%nat ->
  wp (unwindCpp_loop fuel)
     (fun _ s' =>
        vmfp s' = None /\
        exists tl, trace s' = trace s ++ tl /\
                   List.filter isFramePop tl = flat_map framePops l)
     (fun x s' => raisedByPop x /\ is_Some (vmfp s'))
     notHostAssert False s.
Proof.
  induction fuel as [|fuel IH]; intros s l Hc Hne Hlen.
  { destruct l; [done|cbn in Hlen; lia]. }
  inversion Hc as [Hnull|fp ar l' Hfp Hc' Hvm]; subst; [done|].
  symmetry in Hvm. cbn [unwindCpp_loop]. apply wp_bind.
  eapply wp_mono; [by apply (unwindCpp_frame_pops s fp ar)|..]; try done.
  cbn beta. intros _ s1 (Hvm1 & Hst & t1 & Ht1 & Hp1).
  apply wp_bind, wp_gets. rewrite Hvm1.
  destruct (sfp ar) as [p|] eqn:Hsfp.
  - destruct (frameChain_stable _ _ _ _ Hst Hc') as (l'' & Hc'' & Hpops & Hl'').
    rewrite <- Hvm1 in Hc''.
    eapply wp_mono; [apply (IH s1 l'' Hc'')|..]; try done.
    + inversion Hc'; subst. destruct l''; [done|done].
    + cbn in Hlen. lia.
    + cbn beta. intros _ s2 (Hvm2 & t2 & Ht2 & Hp2). split; [done|].
      exists (t1 ++ t2). split; [by rewrite Ht2, Ht1, app_assoc|].
      rewrite List.filter_app, Hp1, Hp2, Hpops. done.
  - inversion Hc'; subst. apply wp_ret. split; [done|].
    exists t1. split; [done|]. cbn. by rewrite app_nil_r.
Qed.

Lemma unwindCpp_pops fuel exc s l :
  frameChain (frames s) (vmfp s) l -> l <> [] -> (length l <= fuel)%nat ->
  wp (unwindCpp fuel exc) (fun _ _ => False)
     (fun x s' =>
        (x = ThrowCpp exc /\ vmfp s' = None /\
         exists tl, trace s' = trace s ++ tl /\
                    List.filter isFramePop tl = flat_map framePops l) \/
        (raisedByPop x /\ is_Some (vmfp s')))
     notHostAssert False s.
Proof.
  intros Hc Hne Hlen.
  unfold unwindCpp. wp_auto; try discriminate.
  apply wp_scope_exit. unfold unwindCpp_body. wp_auto.
  eapply wp_mono;
    [exact (wp_conj _ _ _ _ _ _ _ _ _ _
              (fixed_discardMemberTVRefs (vmpc s) (with_unwindingCpp s true))
              (noFramePops_discardMemberTVRefs (vmpc s) (with_unwindingCpp s true)))
    |..]; cbn beta; [|tauto|tauto|tauto].
  intros _ s1 [Hfx1 (t1 & Ht1 & Hp1)]. apply wp_bind.
  assert (Hc1 : frameChain (frames s1) (vmfp s1) l)
    by (by rewrite (fx_frames _ _ Hfx1), (fx_vmfp _ _ Hfx1)).
  eapply wp_mono; [by apply (unwindCpp_loop_pops fuel s1 l)|..]; try done;
    cbn beta.
  - intros _ s2 (Hvm2 & t2 & Ht2 & Hp2). wp_auto.
    unfold unwindCpp_exit. wp_auto; try discriminate.
    left. split; [done|]. split; [done|]. exists (t1 ++ t2).
    cbn in Ht1 |- *. split; [by rewrite Ht2, Ht1, app_assoc|].
    by rewrite List.filter_app, Hp1, Hp2.
  - intros x s2 [Hx Hvm2]. unfold unwindCpp_exit. wp_auto; try discriminate.
    by right.
Qed.

End HostPops.

(** ** The flag of the host driver as the runtime sees it *)

Lemma with_unwindingCpp_set s :
  m_unwindingCppException s = true -> with_unwindingCpp s true = s.
Proof. destruct s. cbn. by intros ->. Qed.

Section SameUnderFlag.
Context {A : Type}.

Lemma suf_ret (a : A) : sameUnderFlag (ret a) (ret a).
Proof. by intros s Hs. Qed.

Lemma suf_abort (r : AbortReason) : sameUnderFlag (@abort A r) (abort r).
Proof. by intros s Hs. Qed.

Lemma suf_throw (x : Thrown) : sameUnderFlag (@throw A x) (throw x).
Proof. by intros s Hs. Qed.

Lemma suf_timeout : sameUnderFlag (@timeout A) timeout.
Proof. by intros s Hs. Qed.

Lemma suf_deref (o : option A) : sameUnderFlag (deref o) (deref o).
Proof. intros s Hs. by destruct o. Qed.

Lemma suf_gets (f f' : VM -> A) :
  (forall s, m_unwindingCppException s = true -> f' s = f s) ->
  sameUnderFlag (gets f) (gets f').
Proof. intros Hf s Hs. unfold gets, wp. by rewrite Hf. Qed.

Lemma suf_bind {C} (m m' : M C) (k k' : C -> M A) :
  sameUnderFlag m m' -> (forall c, sameUnderFlag (k c) (k' c)) ->
  sameUnderFlag (bind m k) (bind m' k').
Proof.
  intros Hm Hk s Hs. destruct (Hm s Hs) as [Heq Hwp].
  unfold bind, wp in *. rewrite Heq. destruct (m s) as [c s1|x s1|r|]; try done.
  by apply Hk.
Qed.
End SameUnderFlag.

Lemma suf_modify (f : VM -> VM) :
  (forall s, m_unwindingCppException (f s) = m_unwindingCppException s) ->
  sameUnderFlag (modify f) (modify f).
Proof. intros Hf s Hs. split; [done|]. unfold modify, wp. by rewrite Hf. Qed.

Lemma suf_emit (e : Event) : sameUnderFlag (emit e) (emit e).
Proof. by apply suf_modify. Qed.

Lemma suf_always_assert b line :
  sameUnderFlag (always_assert b line) (always_assert b line).
Proof. intros s Hs. by destruct b. Qed.

Lemma suf_try_catch_all (m m' : M unit) :
  sameUnderFlag m m' -> sameUnderFlag (try_catch_all m) (try_catch_all m').
Proof.
  intros Hm s Hs. destruct (Hm s Hs) as [Heq Hwp].
  unfold try_catch_all, wp in *. rewrite Heq. by destruct (m s).
Qed.

Section HostFlag.
Context (RT : Runtime).

Lemma suf_assertx b line :
  sameUnderFlag (@assertx RT b line) (@assertx (underHostFlag RT) b line).
Proof.
  unfold assertx. cbn [debug underHostFlag].
  destruct (debug && negb b); [apply suf_abort|apply suf_ret].
Qed.

Ltac suf_leaf :=
  first
    [ apply suf_ret | apply suf_abort | apply suf_throw | apply suf_timeout
    | apply suf_deref | apply suf_emit | apply suf_always_assert
    | apply suf_assertx
    | apply suf_modify; intros []; reflexivity
    | apply suf_gets; cbn [underHostFlag getPrevVMState visitStackElems
        stack_isValidAddress popTV_raises frame_free_locals_unwind_raises
        afwh_isRunning asyncgen_fail_eagerResult asyncgen_isEagerlyExecuted
        asyncgen_waitHandle_isRunning];
      intros ? Hflag; rewrite ?(with_unwindingCpp_set _ Hflag); reflexivity ].

Ltac suf_step :=
  lazymatch goal with
  | |- sameUnderFlag (bind _ _) (bind _ _) => apply suf_bind; [|intros ?]
  | |- sameUnderFlag (try_catch_all _) (try_catch_all _) =>
    apply suf_try_catch_all
  | |- sameUnderFlag (if ?b then _ else _) _ => destruct b
  | |- sameUnderFlag (match ?x with _ => _ end) _ => destruct x
  | |- _ => suf_leaf
  end.

Ltac suf_tac :=
  cbn [underHostFlag isFPushCtor isMemberDimOp isMemberFinalOp debug OpRetC
       findPrecedingFPI findEH kInvalidOffset kInvalidNesting];
  repeat suf_step.

Lemma suf_getFrame fp : sameUnderFlag (getFrame fp) (getFrame fp).
Proof. unfold getFrame. suf_tac. Qed.

Lemma suf_getObj o : sameUnderFlag (getObj o) (getObj o).
Proof. unfold getObj. suf_tac. Qed.

Lemma suf_putFrame fp ar : sameUnderFlag (putFrame fp ar) (putFrame fp ar).
Proof. unfold putFrame. suf_tac. Qed.

Lemma suf_putObj o d : sameUnderFlag (putObj o d) (putObj o d).
Proof. unfold putObj. suf_tac. Qed.

Lemma suf_setNoDestruct o : sameUnderFlag (setNoDestruct o) (setNoDestruct o).
Proof.
  unfold setNoDestruct.
  apply suf_bind; [apply suf_getObj|intros d].
  apply suf_bind; [apply suf_putObj|intros _]. apply suf_emit.
Qed.

Lemma suf_decRefObj o : sameUnderFlag (decRefObj o) (decRefObj o).
Proof. unfold decRefObj. suf_tac. Qed.

Lemma suf_peek_op pc : sameUnderFlag (peek_op pc) (peek_op pc).
Proof. unfold peek_op. suf_tac. Qed.

Lemma suf_offsetOf pc : sameUnderFlag (offsetOf pc) (offsetOf pc).
Proof. unfold offsetOf. suf_tac. Qed.

Lemma suf_faults_pop_back : sameUnderFlag faults_pop_back faults_pop_back.
Proof.
  unfold faults_pop_back. apply suf_bind; [suf_leaf|intros fs].
  destruct fs; suf_leaf.
Qed.

Lemma suf_popTV : sameUnderFlag (@popTV RT) (@popTV (underHostFlag RT)).
Proof.
  unfold popTV. apply suf_bind; [apply suf_emit|intros _].
  apply suf_bind; [suf_leaf|intros r]. destruct r; suf_leaf.
Qed.

Lemma suf_discardStackElems func elems :
  sameUnderFlag (@discardStackElems RT func elems)
                (@discardStackElems (underHostFlag RT) func elems).
Proof.
  induction elems as [|[this pushOff|] rest IH]; cbn [discardStackElems].
  - apply suf_ret.
  - cbn [underHostFlag isFPushCtor].
    apply suf_bind; [|intros _; apply suf_bind; [apply suf_emit|by intros _]].
    destruct (isFPushCtor _); [|apply suf_ret].
    apply suf_bind; [apply suf_assertx|intros _].
    apply suf_bind; [apply suf_deref|intros o]. apply suf_setNoDestruct.
  - apply suf_bind; [apply suf_popTV|by intros _].
Qed.

Lemma suf_trashClsRefSlots fp i n :
  sameUnderFlag (trashClsRefSlots fp i n) (trashClsRefSlots fp i n).
Proof.
  revert i. induction n as [|n IH]; intros i; cbn [trashClsRefSlots].
  - apply suf_ret.
  - apply suf_bind; [apply suf_emit|intros _; apply IH].
Qed.

Lemma suf_discardStackTemps fp off :
  sameUnderFlag (@discardStackTemps RT fp off)
                (@discardStackTemps (underHostFlag RT) fp off).
Proof.
  unfold discardStackTemps.
  apply suf_bind; [apply suf_getFrame|intros ar].
  apply suf_bind; [suf_leaf|intros elems].
  apply suf_bind; [apply suf_discardStackElems|intros _].
  cbn [underHostFlag debug].
  destruct debug; [apply suf_trashClsRefSlots|apply suf_ret].
Qed.

Lemma suf_discardMemberTVRefs pc :
  sameUnderFlag (@discardMemberTVRefs RT pc)
                (@discardMemberTVRefs (underHostFlag RT) pc).
Proof.
  unfold discardMemberTVRefs.
  apply suf_bind; [apply suf_peek_op|intros op].
  cbn [underHostFlag isMemberDimOp isMemberFinalOp].
  destruct (_ || _); [apply suf_emit|apply suf_ret].
Qed.

Lemma suf_frame_free_locals_unwind fp n e :
  sameUnderFlag (@frame_free_locals_unwind RT fp n e)
                (@frame_free_locals_unwind (underHostFlag RT) fp n e).
Proof.
  unfold frame_free_locals_unwind.
  apply suf_bind; [apply suf_emit|intros _].
  apply suf_bind; [suf_leaf|intros r]. destruct r; suf_leaf.
Qed.

Lemma suf_decRefLocals fp func e :
  sameUnderFlag (@decRefLocals RT fp func e)
                (@decRefLocals (underHostFlag RT) fp func e).
Proof.
  unfold decRefLocals.
  apply suf_bind; [apply suf_getFrame|intros ar].
  destruct (negb _); [|apply suf_ret].
  apply suf_bind; [apply suf_putFrame|intros _].
  apply suf_try_catch_all, suf_frame_free_locals_unwind.
Qed.

Lemma suf_ctorGuardCond curOp ar func :
  sameUnderFlag (@ctorGuardCond RT curOp ar func)
                (@ctorGuardCond (underHostFlag RT) curOp ar func).
Proof.
  unfold ctorGuardCond. cbn [underHostFlag OpRetC].
  destruct (_ && _); [|apply suf_ret].
  apply suf_bind; [apply suf_deref|intros this].
  apply suf_bind; [apply suf_getObj|intros o]. apply suf_ret.
Qed.

Lemma suf_calledByFPushCtor fp :
  sameUnderFlag (@calledByFPushCtor RT fp)
                (@calledByFPushCtor (underHostFlag RT) fp).
Proof.
  unfold calledByFPushCtor.
  apply suf_bind; [suf_leaf|intros outer].
  destruct outer as [[outerFp prevPc]|]; [|apply suf_ret].
  apply suf_bind; [apply suf_getFrame|intros oar].
  cbn [underHostFlag findPrecedingFPI isFPushCtor].
  destruct (findPrecedingFPI _ _); apply suf_ret.
Qed.

Lemma suf_ctorGuard fp curOp ar func :
  sameUnderFlag (@ctorGuard RT fp curOp ar func)
                (@ctorGuard (underHostFlag RT) fp curOp ar func).
Proof.
  unfold ctorGuard.
  apply suf_bind; [apply suf_ctorGuardCond|intros c].
  destruct c; [|apply suf_ret].
  apply suf_bind; [apply suf_calledByFPushCtor|intros v].
  destruct v; [|apply suf_ret].
  apply suf_bind; [apply suf_deref|intros this]. apply suf_setNoDestruct.
Qed.

Ltac suf_known :=
  first [ apply suf_decRefLocals | apply suf_getFrame | suf_leaf ].

Lemma suf_tearDownKind fp ar func e :
  sameUnderFlag (@tearDownKind RT fp ar func e)
                (@tearDownKind (underHostFlag RT) fp ar func e).
Proof.
  unfold tearDownKind.
  repeat lazymatch goal with
  | |- sameUnderFlag (bind _ _) (bind _ _) => apply suf_bind; [|intros ?]
  | |- sameUnderFlag (if ?b then _ else _) _ => destruct b
  | |- sameUnderFlag (match ?x with _ => _ end) _ => destruct x
  | |- _ => suf_known
  end.
Qed.

Lemma suf_tearDownFrame e :
  sameUnderFlag (@tearDownFrame RT e) (@tearDownFrame (underHostFlag RT) e).
Proof.
  unfold tearDownFrame.
  apply suf_bind; [suf_leaf|intros fpo].
  apply suf_bind; [apply suf_deref|intros fp].
  apply suf_bind; [apply suf_getFrame|intros ar].
  apply suf_bind; [suf_leaf|intros pc].
  apply suf_bind; [apply suf_peek_op|intros curOp].
  apply suf_bind; [apply suf_ctorGuard|intros _].
  apply suf_bind; [apply suf_tearDownKind|intros e'].
  destruct (sfp ar) as [p|].
  - apply suf_bind; [apply suf_getFrame|intros par].
    apply suf_bind; [suf_leaf|intros valid].
    apply suf_bind; [apply suf_assertx|intros _].
    apply suf_bind; [suf_leaf|intros _].
    apply suf_bind; [suf_leaf|intros _]. apply suf_ret.
  - apply suf_bind; [suf_leaf|intros _].
    apply suf_bind; [suf_leaf|intros _]. apply suf_ret.
Qed.

Lemma suf_discardFrameFaults fs fp :
  sameUnderFlag (discardFrameFaults fs fp) (discardFrameFaults fs fp).
Proof.
  induction fs as [|f rest IH]; cbn [discardFrameFaults]; [apply suf_ret|].
  apply suf_bind; [suf_leaf|intros nesting].
  destruct (faultPinned _ _ _); [|apply suf_ret].
  apply suf_bind; [apply suf_decRefObj|intros _].
  apply suf_bind; [apply suf_faults_pop_back|by intros _].
Qed.

Lemma suf_unwindCpp_frame :
  sameUnderFlag (@unwindCpp_frame RT) (@unwindCpp_frame (underHostFlag RT)).
Proof.
  unfold unwindCpp_frame.
  apply suf_bind; [suf_leaf|intros fpo].
  apply suf_bind; [apply suf_deref|intros fp].
  apply suf_bind; [apply suf_getFrame|intros ar].
  apply suf_bind; [suf_leaf|intros pc].
  apply suf_bind; [apply suf_offsetOf|intros off].
  apply suf_bind; [suf_leaf|intros fs].
  apply suf_bind; [apply suf_discardFrameFaults|intros _].
  apply suf_bind; [apply suf_discardStackTemps|intros _].
  apply suf_bind; [apply suf_tearDownFrame|intros e']. apply suf_assertx.
Qed.

Lemma suf_unwindCpp_loop fuel :
  sameUnderFlag (@unwindCpp_loop RT fuel)
                (@unwindCpp_loop (underHostFlag RT) fuel).
Proof.
  induction fuel as [|fuel IH]; cbn [unwindCpp_loop]; [apply suf_timeout|].
  apply suf_bind; [apply suf_unwindCpp_frame|intros _].
  apply suf_bind; [suf_leaf|intros fpo]. destruct fpo; [done|apply suf_ret].
Qed.

Lemma suf_unwindCpp_body fuel exc :
  sameUnderFlag (@unwindCpp_body RT fuel exc)
                (@unwindCpp_body (underHostFlag RT) fuel exc).
Proof.
  unfold unwindCpp_body.
  apply suf_bind; [suf_leaf|intros pc].
  apply suf_bind; [apply suf_discardMemberTVRefs|intros _].
  apply suf_bind; [apply suf_unwindCpp_loop|intros _]. apply suf_throw.
Qed.

(** Where [unwindCpp] gets past its entry assertion it is its body and
    the scope exit, run in the state with the flag set. *)
Lemma unwindCpp_sets_flag fuel exc s :
  (debug = true -> m_unwindingCppException s = false) ->
  @unwindCpp RT fuel exc s =
  scope_exit (@unwindCpp_exit RT) (@unwindCpp_body RT fuel exc)
             (with_unwindingCpp s true).
Proof.
  intros Hentry. unfold unwindCpp.
  unfold bind at 1, gets at 1. unfold bind at 1, assertx at 1.
  destruct debug eqn:Hd; cbn [andb]; [|done].
  by rewrite Hentry.
Qed.

(** Every answer the runtime gives during [unwindCpp] it gives with the
    flag set. *)
Lemma unwindCpp_under_flag fuel exc s :
  @unwindCpp (underHostFlag RT) fuel exc s = @unwindCpp RT fuel exc s.
Proof.
  unfold unwindCpp, bind, gets, assertx, modify. cbn [underHostFlag debug].
  destruct (debug && _); [done|].
  unfold scope_exit, ret.
  destruct (suf_unwindCpp_body fuel exc (with_unwindingCpp s true) eq_refl)
    as [-> Hflag].
  unfold wp in Hflag.
  destruct (unwindCpp_body fuel exc (with_unwindingCpp s true))
    as [a s1|x s1|r|]; try done.
Qed.

End HostFlag.

(** ** The pass of the guest driver over a frame whose search is skipped *)

Lemma bind_bind {A B C} (m : M A) (k1 : A -> M B) (k2 : B -> M C) s :
  bind (bind m k1) k2 s = bind m (fun a => bind (k1 a) k2) s.
Proof. unfold bind. by destruct (m s). Qed.

Lemma bind_cong_l {A B} (m m' : M A) (k : A -> M B) s s' :
  m s = m' s' -> bind m k s = bind m' k s'.
Proof. unfold bind. by intros ->. Qed.

Lemma bind_eq_on {A B} (m : M A) (k1 k2 : A -> M B) s :
  (forall a s', m s = Ret a s' -> k1 a s' = k2 a s') ->
  bind m k1 s = bind m k2 s.
Proof. unfold bind. destruct (m s); auto. Qed.

Lemma wp_eq {A} (m m' : M A) Q E B T s :
  m s = m' s -> wp m' Q E B T s -> wp m Q E B T s.
Proof. unfold wp. by intros ->. Qed.

Lemma wp_Ret {A} (m : M A) Q E B T s a s' :
  wp m Q E B T s -> m s = Ret a s' -> Q a s'.
Proof. unfold wp. intros H Heq. by rewrite Heq in H. Qed.

Lemma faults_pop_back_run {A} (k : unit -> M A) s f rest :
  m_faults s = f :: rest ->
  bind faults_pop_back k s = k tt (with_faults s rest).
Proof. intros Hfs. unfold faults_pop_back, bind, gets, modify. by rewrite Hfs. Qed.

Section Skipped.
Context {RT : Runtime}.

(** A round of the inner loop with the search skipped, for a fault of the
    nesting and frame of the record beneath the top one. *)
Lemma handlerLoop_merges fuel fault s cur prev rest top p :
  searchDisabled s = true ->
  m_faults s = cur :: prev :: rest ->
  m_raiseNesting fault = m_raiseNesting prev ->
  m_raiseFrame fault = m_raiseFrame prev ->
  m_userException fault = Some top -> m_userException prev = Some p ->
  handlerLoop (S fuel) fault s =
    bind (chainFaultObjects top p)
         (fun _ => modify (fun s1 =>
                     with_faults s1
                       (mkFault (Some top) (m_raiseNesting fault)
                          (m_raiseFrame fault) (m_raiseOffset prev)
                          (m_handledCount prev) :: rest));;
                   handlerLoop fuel
                     (mkFault (Some top) (m_raiseNesting fault)
                        (m_raiseFrame fault) (m_raiseOffset prev)
                        (m_handledCount prev)))
         (with_faults s (prev :: rest)).
Proof.
  intros Hs Hfs Hn Hf Ht Hp.
  set (merged := mkFault (Some top) (m_raiseNesting fault)
                   (m_raiseFrame fault) (m_raiseOffset prev)
                   (m_handledCount prev)).
  rewrite handlerLoop_skipped by done.
  assert (Hcf : chainFaults fault s =
                bind (chainFaultObjects top p)
                     (fun _ => faults_pop_back;; faults_push_back merged;;
                               ret (true, merged))
                     (with_faults s (prev :: rest))).
  { rewrite chainFaults_unfold, Hfs.
    rewrite Hn, Hf, Z.eqb_refl, bool_decide_eq_true_2 by done. cbn [andb].
    rewrite Ht, Hp. cbn zeta. unfold merged. by rewrite Hn, Hf. }
  rewrite (bind_cong_l _ _ _ _ _ Hcf), bind_bind.
  apply bind_eq_on. intros [] s1 Hc.
  pose proof (chainFaultObjects_run top p (with_faults s (prev :: rest))) as Hrun.
  unfold wp in Hrun. rewrite Hc in Hrun.
  assert (m_faults s1 = prev :: rest) as Hfs1.
  { by destruct Hrun as [(? & ? & ? & ? & _ & _ & _ & _ & _ & -> & _)|[_ ->]]. }
  unfold faults_pop_back, faults_push_back, bind, gets, modify, ret.
  rewrite Hfs1. cbn. by destruct s1.
Qed.

(** What the pass does when the search is skipped and the fault, once
    bound, is of the nesting and frame of the record beneath it. *)
Lemma unwindPhp_frame_chains s f fb discard cur prev rest fp top p :
  m_faults s = cur :: prev :: rest ->
  vmfp s = Some fp -> searchDisabled s = true ->
  bindFault f s = Ret (fb, discard) s ->
  m_raiseNesting fb <> kInvalidNesting -> is_Some (m_raiseFrame fb) ->
  m_raiseOffset fb <> kInvalidOffset ->
  m_raiseNesting fb = m_raiseNesting prev ->
  m_raiseFrame fb = m_raiseFrame prev ->
  m_userException fb = Some top -> m_userException prev = Some p ->
  unwindPhp_frame f s =
    ((if discard then discardStackTemps fp (m_raiseOffset fb) else ret tt);;
     faults_pop_back;;
     chainFaultObjects top p;;
     modify (fun s1 =>
       with_faults s1
         (mkFault (Some top) (m_raiseNesting fb) (m_raiseFrame fb)
                  (m_raiseOffset prev) (m_handledCount prev) :: rest));;
     let* r := handlerLoop (S (S (length rest)))
                 (mkFault (Some top) (m_raiseNesting fb) (m_raiseFrame fb)
                          (m_raiseOffset prev) (m_handledCount prev)) in
     match r with
     | None => ret (inl EnteredHandler)
     | Some fault =>
       let* e := tearDownFrame (m_userException fault) in
       match e with
       | None => faults_pop_back;; ret (inl ExceptionConsumed)
       | Some _ =>
         let fault := mkFault e kInvalidNesting None kInvalidOffset 0 in
         faults_set_back fault;; ret (inr fault)
       end
     end) s.
Proof.
  intros Hfs Hvm Hs Hbind Hb1 Hb2 Hb3 Hn Hf Ht Hp.
  unfold unwindPhp_frame. unfold bind at 1. rewrite Hbind. cbn [fst snd].
  rewrite (assertx_true _ 477%nat) by (by apply negb_true_iff, Z.eqb_neq).
  unfold bind at 1. cbn [ret].
  rewrite (assertx_true _ 478%nat) by (by apply bool_decide_eq_true).
  unfold bind at 1. cbn [ret].
  rewrite (assertx_true _ 479%nat) by (by apply negb_true_iff, Z.eqb_neq).
  unfold bind at 1. cbn [ret].
  unfold bind at 1, gets at 1. rewrite Hvm.
  unfold bind at 1. cbn [deref ret].
  apply bind_eq_on. intros [] s1 Hpre.
  assert (fixed s s1 /\ m_faults s1 = m_faults s) as [Hfx Hfs1].
  { destruct discard.
    - pose proof (wp_Ret _ _ _ _ _ _ _ _
                    (discardStackTemps_quiet fp (m_raiseOffset fb) s) Hpre)
        as [Hfx [Hfs1 _]]. done.
    - injection Hpre as <-. split; [reflexivity|done]. }
  assert (Hs1 : searchDisabled s1 = true)
    by (by rewrite (searchDisabled_fixed _ _ Hfx)).
  rewrite Hfs in Hfs1.
  unfold bind at 1, gets at 1. rewrite Hfs1. cbn [length].
  erewrite bind_cong_l;
    [|exact (handlerLoop_merges _ fb s1 cur prev rest top p
               Hs1 Hfs1 Hn Hf Ht Hp)].
  rewrite bind_bind.
  rewrite (faults_pop_back_run _ s1 cur (prev :: rest)) by done.
  apply bind_eq_on. intros [] s2 _.
  by rewrite bind_bind.
Qed.

(** Then no handler is entered, the two records have become one, and the
    frame is torn down. *)
Lemma unwindPhp_frame_chained s f fb discard cur prev rest fp ar top p :
  m_faults s = cur :: prev :: rest ->
  vmfp s = Some fp -> frames s !! fp = Some ar ->
  searchDisabled s = true ->
  bindFault f s = Ret (fb, discard) s ->
  m_raiseNesting fb <> kInvalidNesting -> is_Some (m_raiseFrame fb) ->
  m_raiseOffset fb <> kInvalidOffset ->
  m_raiseNesting fb = m_raiseNesting prev ->
  m_raiseFrame fb = m_raiseFrame prev ->
  m_userException fb = Some top -> m_userException prev = Some p ->
  wp (unwindPhp_frame f)
     (fun r s' =>
        r <> inl EnteredHandler /\ vmfp s' = sfp ar /\
        match r with
        | inr flt =>
          flt = mkFault (Some top) kInvalidNesting None kInvalidOffset 0 /\
          head (m_faults s') = Some flt /\
          (length (m_faults s') <= S (length rest))%nat
        | inl _ => (length (m_faults s') <= length rest)%nat
        end)
     (fun x _ => raisedByPop x) notHostAssert False s.
Proof.
  intros Hfs Hvm Hfp Hs Hbind Hb1 Hb2 Hb3 Hn Hf Ht Hp.
  eapply wp_eq;
    [exact (unwindPhp_frame_chains s f fb discard cur prev rest fp top p
              Hfs Hvm Hs Hbind Hb1 Hb2 Hb3 Hn Hf Ht Hp)|].
  set (merged := mkFault (Some top) (m_raiseNesting fb) (m_raiseFrame fb)
                   (m_raiseOffset prev) (m_handledCount prev)).
  apply wp_bind.
  assert (Hpre : wp (if discard then discardStackTemps fp (m_raiseOffset fb)
                     else ret tt)
                    (fun _ s1 => fixed s s1 /\ m_faults s1 = m_faults s)
                    (fun x _ => raisedByPop x) notHostAssert False s).
  { destruct discard; [|by apply wp_ret].
    eapply wp_mono; [apply discardStackTemps_quiet|..]; try done; cbn beta.
    - by intros _ s1 [Hfx [Hfs1 _]].
    - intros r [->| ->]; discriminate. }
  eapply wp_mono; [exact Hpre|..]; try done; cbn beta.
  intros _ s1 [Hfx1 Hfs1]. rewrite Hfs in Hfs1.
  apply wp_bind. unfold faults_pop_back. apply wp_bind, wp_gets.
  rewrite Hfs1. apply wp_modify.
  apply wp_bind.
  eapply wp_mono;
    [exact (wp_conj _ _ _ _ _ _ _ _ _ _
              (fixed_chainFaultObjects top p (with_faults s1 (prev :: rest)))
              (chainFaultObjects_run top p (with_faults s1 (prev :: rest))))
    |..]; cbn beta; [|tauto|tauto|tauto].
  intros _ s2 [Hfx2 _].
  apply wp_bind, wp_modify. apply wp_bind.
  set (s3 := with_faults s2 (merged :: rest)).
  assert (Hfx3 : fixed s s3).
  { etrans; [exact Hfx1|]. etrans; [|etrans; [exact Hfx2|]];
      apply fixed_update; reflexivity. }
  assert (Hs3 : searchDisabled s3 = true)
    by (by rewrite (searchDisabled_fixed _ _ Hfx3)).
  eapply wp_mono;
    [exact (wp_conj _ _ _ _ _ _ _ _ _ _
              (handlerLoop_no_entry (S (S (length rest))) merged s3 Hs3)
              (wp_conj _ _ _ _ _ _ _ _ _ _
                 (guestKeeps_handlerLoop (S (S (length rest))) merged s3)
                 (wp_conj _ _ _ _ _ _ _ _ _ _
                    (handlerLoop_value (S (S (length rest))) merged s3)
                    (handlerLoop_fuel (S (S (length rest))) merged s3
                       ltac:(cbn; lia)))))
    |..]; cbn beta; [|tauto|tauto|tauto].
  intros [f4|] s4 ([Hr Hfx4] & [Hlen4 _] & Hv4 & _); [|done].
  cbn [m_userException merged] in Hv4.
  assert (Hfx04 : fixed s s4) by (by etrans).
  assert (Hvm4 : vmfp s4 = Some fp) by (by rewrite (fx_vmfp _ _ Hfx04)).
  assert (Hfp4 : frames s4 !! fp = Some ar) by (by rewrite (fx_frames _ _ Hfx04)).
  apply wp_bind.
  eapply wp_mono;
    [exact (wp_conj _ _ _ _ _ _ _ _ _ _
              (tearDownFrame_returns (m_userException f4) s4)
              (tearDownFrame_outcome (m_userException f4) s4 fp ar Hvm4 Hfp4))
    |..]; cbn beta; [|tauto| |tauto].
  2: { intros r [Hr1 _]. by apply tearDownAborts_notHost. }
  intros e' s5 [[He5 Hf5] (_ & Hvm5 & _)].
  cbn [length m_faults s3 with_faults] in Hlen4.
  destruct e' as [e'|]; unfold faults_pop_back, faults_set_back; wp_auto;
    try discriminate; cbn [m_faults with_faults vmfp length head].
  all: match goal with
       | H : _ :: _ = m_faults ?sx, H' : (length (m_faults ?sx) <= _)%nat |- _ =>
         rewrite <- H in H'; cbn [length] in H'
       end.
  - split; [done|]. split; [done|]. split; [|split; [done|lia]].
    match goal with
    | H : _ \/ _ |- _ => destruct H as [He|He]; [|done]
    end.
    match goal with
    | H : m_userException _ = Some top |- _ => by rewrite He, H
    end.
  - split; [done|]. split; [done|]. lia.
Qed.

Lemma bindFault_fixed f s s0 r :
  fixed s s0 -> bindFault f s = Ret r s -> bindFault f s0 = Ret r s0.
Proof.
  intros Hfx. unfold bindFault.
  destruct (m_raiseOffset f =? kInvalidOffset); [|by intros [= <-]].
  destruct (m_raiseNesting f =? kInvalidNesting); [|done].
  unfold bind, always_assert, gets, getFrame, bind, gets, offsetOf, bind, ret.
  rewrite (fx_vmfp _ _ Hfx), (st_nesting _ _ (fx_stable _ _ Hfx)).
  destruct (vmfp s) as [fp|]; [|done]. cbn [deref ret].
  rewrite (fx_frames _ _ Hfx).
  destruct (frames s !! fp); [|done]. cbn [deref ret].
  rewrite (fx_vmpc _ _ Hfx).
  destruct (vmpc s); [|done]. cbn [deref ret]. by intros [= <-].
Qed.

(** The driver as a whole, entered with such a fault on top of the fault
    stack: unless a handler of a caller is entered, neither of the two
    records is left. *)
Lemma unwindPhp_chained fuel s f fb discard prev rest fp ar pc top p :
  m_faults s = f :: prev :: rest ->
  vmfp s = Some fp -> frames s !! fp = Some ar -> vmpc s = Some pc ->
  searchDisabled s = true ->
  bindFault f s = Ret (fb, discard) s ->
  m_raiseNesting fb <> kInvalidNesting -> is_Some (m_raiseFrame fb) ->
  m_raiseOffset fb <> kInvalidOffset ->
  m_raiseNesting fb = m_raiseNesting prev ->
  m_raiseFrame fb = m_raiseFrame prev ->
  m_userException fb = Some top -> m_userException prev = Some p ->
  wp (unwindPhp (S fuel))
     (fun r s' =>
        match r with
        | EnteredHandler => (length (m_faults s') <= S (length rest))%nat
        | ExceptionConsumed => (length (m_faults s') <= length rest)%nat
        end)
     (fun x s' =>
        raisedByPop x \/
        (x = ThrowObject (Some top) /\
         (length (m_faults s') <= length rest)%nat))
     notHostAssert True s.
Proof.
  intros Hfs Hvm Hfp Hpc Hs Hbind Hb1 Hb2 Hb3 Hn Hf Ht Hp.
  eapply wp_eq; [exact (unwindPhp_unfold _ s f (prev :: rest) pc Hfs Hpc)|].
  apply wp_bind.
  eapply wp_mono; [by apply discardMemberTVRefs_quiet|..]; try done; cbn beta.
  intros _ s0 [Hfx Hcalm].
  destruct (fixed_calm_eqs _ _ Hfx Hcalm) as (Hvm0 & Hpc0 & Hfr0 & Hfs0 & Hp0 & Hn0).
  cbn [unwindPhp_loop]. apply wp_bind.
  eapply wp_mono;
    [apply (unwindPhp_frame_chained s0 f fb discard f prev rest fp ar top p);
     try congruence|..]; try done; cbn beta.
  - by rewrite (searchDisabled_fixed _ _ Hfx).
  - by apply (bindFault_fixed f s).
  - intros [[]|flt] s1 (Hr & Hvm1 & Hrest); [done|by apply wp_ret|].
    destruct Hrest as (-> & Hhd & Hlen).
    apply wp_bind, wp_gets.
    destruct (vmfp s1) as [fp1|].
    + eapply wp_mono; [apply unwindPhp_loop_exits|..]; try done; cbn beta.
      * intros [] s2 [Hlen2 Hr2]; lia.
      * intros x s2 [Hlen2 [(-> & _ & _ & _ & Hlt)|Hx]]; [right|by left].
        cbn [m_userException]. split; [done|lia].
    + apply wp_bind. unfold faults_pop_back. apply wp_bind, wp_gets.
      destruct (m_faults s1) as [|f1 l1]; [done|].
      apply wp_modify, wp_throw. right.
      cbn [m_userException m_faults with_faults length] in *.
      split; [done|lia].
  - intros x s1 Hx. by left.
Qed.

End Skipped.

(** * Properties of the specification *)

(** ** C1: the handler resolver *)

(** C1, as the code has it.  For a fault with [m_handledCount = n] the
    resolver walks the [m_parentIndex] chain from the innermost entry and
    skips its first [n] entries (none when [n <= 0]), the ones already
    tried.  If the chain has a next entry, of kind [Catch] or [Fault], the
    program counter is set to its handler, [m_handledCount] becomes
    [n + 1] and the result is [ResumeVM]; if the chain is exhausted the
    result is [Propagate] with the fault and the program counter as they
    were. *)
Theorem checkHandlers_candidate func idx eh pc fault :
  ehtab_wf (ehtab func) = true ->
  ehtab func !! idx = Some eh ->
  m_handledCount fault < INT_MAX ->
  checkHandlers func eh pc fault =
  match chainEntry (ehtab func) eh (Z.to_nat (m_handledCount fault)) with
  | Some c => Found (ResumeVM, unit_at (func_unit func) (m_handler c),
                     set_handledCount fault (m_handledCount fault + 1))
  | None => Found (Propagate, pc, fault)
  end.
Proof.
  intros Htab Hidx Hmax. unfold checkHandlers.
  apply checkHandlers_loop_chain; try done.
  - by eapply eh_wf_lookup.
  - f_equal. lia.
  - lia.
Qed.

Lemma checkHandlers_candidate_witness :
  checkHandlers Ex.f2 (mkEHEnt Fault 50 0) None (Ex.fault_hc 1) =
  Found (ResumeVM, unit_at Ex.u0 40, Ex.fault_hc 2).
Proof.
  exact (checkHandlers_candidate Ex.f2 1%nat (mkEHEnt Fault 50 0) None
           (Ex.fault_hc 1) eq_refl eq_refl eq_refl).
Defined.

(** C1 as stated fails: with one handler already tried
    ([m_handledCount = 1]) and a chain of one entry, skipping
    [m_handledCount - 1 = 0] entries would enter that handler again; the
    code propagates. *)
Lemma checkHandlers_not_as_worded :
  checkHandlers Ex.f1 (mkEHEnt Catch 40 (-1)) None (Ex.fault_hc 1) <>
  Found (spec_checkHandlers Ex.f1 (mkEHEnt Catch 40 (-1)) None (Ex.fault_hc 1)).
Proof. vm_compute. discriminate. Qed.

(** ** C2: the latch and the release of the locals *)

Lemma releasedOnce_fresh s : trace s = [] -> releasedOnce s.
Proof. intros Ht fp. rewrite Ht. cbn. split; [lia|done]. Qed.

Lemma unwindCpp_releasedOnce {RT : Runtime} fuel exc s :
  wp (unwindCpp fuel exc) (fun _ s' => releasedOnce s -> releasedOnce s')
     (fun _ s' => releasedOnce s -> releasedOnce s') notHostAssert True s.
Proof.
  unfold unwindCpp. wp_auto; try discriminate.
  apply wp_scope_exit.
  assert (Hexit : forall (E : Thrown -> VM -> Prop) s2,
             stable (with_unwindingCpp s true) s2 ->
             wp unwindCpp_exit (fun _ s' => releasedOnce s -> releasedOnce s')
                E notHostAssert True s2).
  { intros E s2 [_ _ _ _ Honce]. unfold unwindCpp_exit.
    wp_auto; try discriminate. intros Hs. by apply Honce. }
  eapply wp_mono; [apply stable_unwindCpp_body|..]; try done; cbn beta;
    intros; by apply Hexit.
Qed.

(** C2, as the code has it.  After the chain of ifs of [tearDownFrame]
    (lines 218-305) the latch [localsDecRefd] of the frame is set, except
    for a resumed async function or async generator that is torn down
    without a guest exception and is not running: there the release is
    skipped and the latch stays as it was.  The release routine is called
    once when the latch goes from clear to set and not otherwise, so over
    any number of teardowns it is called at most once per frame
    ([releasedOnce] is kept, also by the two drivers); [tearDownFrame]
    never lets an exception escape. *)
Theorem tearDown_latch_and_single_release {RT : Runtime} e s fp ar :
  vmfp s = Some fp -> frames s !! fp = Some ar ->
  wp (tearDownKind fp ar (m_func ar) e)
     (fun _ s' =>
        exists ar', frames s' !! fp = Some ar' /\
          localsDecRefd ar' =
            (if releaseSkipped s fp ar e then localsDecRefd ar else true) /\
          releaseCount fp (trace s') =
            (releaseCount fp (trace s) +
             (if negb (releaseSkipped s fp ar e) && negb (localsDecRefd ar)
              then 1 else 0))%nat)
     (fun _ _ => False) (fun r => r = NotReached) False s /\
  wp (tearDownFrame e)
     (fun _ s' =>
        (releasedOnce s -> releasedOnce s') /\
        exists ar', frames s' !! fp = Some ar' /\
          (localsDecRefd ar' = true \/
           (localsDecRefd ar' = localsDecRefd ar /\ resumed ar = true /\
            e = None /\
            (isAsyncFunction (m_func ar) = true \/
             isAsyncGenerator (m_func ar) = true))))
     (fun _ _ => False) tearDownAborts False s /\
  (forall fuel,
     wp (unwindPhp fuel) (fun _ s' => releasedOnce s -> releasedOnce s')
        (fun _ s' => releasedOnce s -> releasedOnce s') notHostAssert True s) /\
  (forall fuel exc,
     wp (unwindCpp fuel exc) (fun _ s' => releasedOnce s -> releasedOnce s')
        (fun _ s' => releasedOnce s -> releasedOnce s') notHostAssert True s).
Proof.
  intros Hvm Hfp. split; [by apply tearDownKind_latch|]. split; [|split].
  - eapply wp_mono;
      [exact (wp_conj _ _ _ _ _ _ _ _ _ _ (stable_tearDownFrame e s)
                (tearDownFrame_latch e s fp ar Hvm Hfp))|..]; cbn beta.
    + intros _ s' [[_ _ _ _ Honce] Hl]. done.
    + tauto.
    + tauto.
    + tauto.
  - intros fuel.
    eapply wp_mono; [apply stable_unwindPhp|..]; try done; cbn beta;
      by intros _ s' [_ _ _ _ Honce].
  - intros fuel exc. apply unwindCpp_releasedOnce.
Qed.

Lemma tearDown_latch_and_single_release_witness :
  wp (@tearDownFrame Ex.rt (Some 7%nat))
     (fun _ s' => exists ar', frames s' !! 2%nat = Some ar' /\
                              localsDecRefd ar' = true)
     (fun _ _ => False) tearDownAborts False Ex.vm_ctor.
Proof.
  eapply wp_mono;
    [exact (proj1 (proj2 (@tearDown_latch_and_single_release Ex.rt
                             (Some 7%nat) Ex.vm_ctor 2%nat _ eq_refl eq_refl)))
    |..]; try done.
  cbn beta. intros _ s' [_ (ar' & Hfr & [Hl|(_ & Hres & _)])]; [by exists ar'|].
  discriminate Hres.
Defined.

(** C2 as stated fails: a resumed async function whose wait handle is not
    running is torn down for a host exception with its latch still
    clear. *)
Lemma tearDown_leaves_latch_clear :
  exists s', @tearDownFrame Ex.rt None Ex.vm_async = Ret None s' /\
             localsDecRefd <$> frames s' !! 2%nat = Some false.
Proof. eexists. split; [vm_compute; reflexivity|reflexivity]. Qed.

(** ** C3: the host flag and the handler search *)

(** C3, as the code has it.  [unwindCpp] leaves with the flag
    [m_unwindingCppException] clear on every exit.  It sets the flag
    before anything else: where it gets past its entry assertion it is
    its body and the scope exit run in the state with the flag set, every
    answer the runtime gives during the unwind is the answer it gives with
    the flag set ([underHostFlag]), and the body keeps the flag set up to
    the scope exit.  The handler search of [unwindPhp]
    does not read that flag: it is skipped for a frame when a host
    exception is pending on the thread ([m_pendingException]) or the latch
    of the frame is set, and then no handler is entered; with a host
    exception pending [unwindPhp] as a whole enters no handler.  With
    fuel for every frame of the chain [unwindCpp] ends by throwing. *)
Theorem host_flag_and_handler_search {RT : Runtime} :
  (forall fuel exc s,
     wp (unwindCpp fuel exc)
        (fun _ s' => m_unwindingCppException s' = false)
        (fun _ s' => m_unwindingCppException s' = false)
        notHostAssert True s) /\
  (forall fuel exc s,
     (debug = true -> m_unwindingCppException s = false) ->
     unwindCpp fuel exc s =
     scope_exit unwindCpp_exit (unwindCpp_body fuel exc)
                (with_unwindingCpp s true)) /\
  (forall fuel exc s,
     @unwindCpp (underHostFlag RT) fuel exc s = unwindCpp fuel exc s) /\
  (forall fuel exc s,
     m_unwindingCppException s = true ->
     wp (unwindCpp_body fuel exc)
        (fun _ s' => m_unwindingCppException s' = true)
        (fun _ s' => m_unwindingCppException s' = true)
        notHostAssert True s) /\
  (forall fuel fault s,
     searchDisabled s = true ->
     wp (handlerLoop fuel fault) (fun r _ => r <> None) (fun _ _ => True)
        notHostAssert True s) /\
  (forall fuel s,
     m_pendingException s = true ->
     wp (unwindPhp fuel) (fun r _ => r <> EnteredHandler) (fun _ _ => True)
        notHostAssert True s) /\
  (forall fuel exc s n,
     frameDepth (frames s) (vmfp s) (S n) -> (n < fuel)%nat ->
     wp (unwindCpp fuel exc) (fun _ _ => False)
        (fun _ s' => m_unwindingCppException s' = false)
        notHostAssert False s).
Proof.
  split; [|split; [|split; [|split; [|split; [|split]]]]];
    [| | | | | |by apply @unwindCpp_fuel].
  - intros fuel exc s. apply unwindCpp_no_host_assert.
  - intros fuel exc s. apply unwindCpp_sets_flag.
  - intros fuel exc s. apply unwindCpp_under_flag.
  - intros fuel exc s Hflag.
    eapply wp_mono; [apply stable_unwindCpp_body|..]; try done; cbn beta.
    + intros _ s' [_ Hf _ _ _]. congruence.
    + intros _ s' [_ Hf _ _ _]. congruence.
  - intros fuel fault s Hs.
    eapply wp_mono; [by apply handlerLoop_no_entry|..]; try done; cbn beta.
    by intros r s' [Hr _].
  - intros fuel s Hp. by apply unwindPhp_pending.
Qed.

Lemma host_flag_and_handler_search_witness :
  @unwindCpp Ex.rt 2 0 Ex.vm_ctor =
    scope_exit (@unwindCpp_exit Ex.rt) (@unwindCpp_body Ex.rt 2 0)
               (with_unwindingCpp Ex.vm_ctor true) /\
  wp (@unwindPhp Ex.rt 1) (fun r _ => r <> EnteredHandler) (fun _ _ => True)
     notHostAssert True (Ex.vm_handler true).
Proof.
  pose proof (@host_flag_and_handler_search Ex.rt)
    as (_ & Hset & _ & _ & _ & Hpending & _).
  split.
  - apply Hset. reflexivity.
  - apply Hpending. reflexivity.
Defined.

(** C3 as stated fails: with the flag of the host driver set and no host
    exception pending, the guest driver enters the [Catch] handler. *)
Lemma handler_entered_while_host_flag_set :
  m_unwindingCppException (Ex.vm_handler false) = true /\
  exists s', @unwindPhp Ex.rt 1 (Ex.vm_handler false) = Ret EnteredHandler s' /\
             vmpc s' = unit_at Ex.u0 40.
Proof. split; [reflexivity|]. eexists. split; [vm_compute; reflexivity|reflexivity]. Qed.

(** ** C5: chaining and cycles *)

(** C5, as the code has it.  [chainFaultObjects] links the predecessor
    exactly when the [previous] chains of the two throwables end and share
    no object; the link is written into the slot at the end of the chain
    of the current exception, the chain of the current exception then
    ends (it is the old one followed by the chain of the predecessor), and
    every chain of the store that ended before still ends: no cycle is
    made.  Otherwise the predecessor is released and the object store is
    left as it was, cycles included. *)
Theorem chainFaultObjects_makes_no_cycle {RT : Runtime} top prev s :
  wp (chainFaultObjects top prev)
     (fun _ s' =>
        (linkable (heap s) top prev /\
         (exists l1 owner o,
            prevChain (heap s) top l1 /\ last l1 = Some owner /\
            heap s !! owner = Some o /\
            s' = with_heap s
                   (<[owner := set_previous o (KindOfObject prev)]> (heap s))) /\
         acyclic (heap s') top /\
         (forall x, acyclic (heap s) x -> acyclic (heap s') x)) \/
        (~ linkable (heap s) top prev /\
         s' = with_trace s (trace s ++ [EvDecRefObj prev])))
     (fun _ _ => False) chainAborts False s.
Proof. apply chainFaultObjects_link. Qed.

Lemma chainFaultObjects_makes_no_cycle_witness :
  wp (@chainFaultObjects Ex.rt 8%nat 7%nat)
     (fun _ s' => acyclic (heap s') 8%nat /\
                  prop_previous <$> heap s' !! 9%nat = Some (KindOfObject 7%nat))
     (fun _ _ => False) chainAborts False (Ex.vm_chain false).
Proof.
  eapply wp_mono;
    [exact (@chainFaultObjects_makes_no_cycle Ex.rt 8%nat 7%nat
              (Ex.vm_chain false))|..]; try done.
  cbn beta. intros _ s' [(_ & (l1 & owner & o & Hl1 & Hlast & Ho & ->) & Hac & _)|[Hno _]].
  - split; [exact Hac|].
    assert (l1 = [8; 9]%nat) as ->.
    { eapply prevChain_det; [exact Hl1|].
      eapply prevChain_step; [reflexivity|reflexivity|].
      eapply prevChain_end; reflexivity. }
    injection Hlast as <-. vm_compute in Ho. injection Ho as <-. reflexivity.
  - exfalso. apply Hno. exists [8; 9]%nat, [7%nat]. split; [|split].
    + eapply prevChain_step; [reflexivity|reflexivity|].
      eapply prevChain_end; reflexivity.
    + eapply prevChain_end; reflexivity.
    + intros x Hx Hx7. apply list_elem_of_singleton in Hx7 as ->.
      repeat (apply elem_of_cons in Hx as [Hx|Hx]; [discriminate|]).
      by apply elem_of_nil in Hx.
Defined.

Lemma self_loop_not_acyclic h a d :
  h !! a = Some d -> throwableOf h (prop_previous d) = Some a -> ~ acyclic h a.
Proof.
  intros Hd Hn [l Hl].
  induction Hl as [x d' Hx Hend|x d' p l Hx Hnext Hl IH]; simplify_eq.
  by apply IH.
Qed.

(** C5 as stated fails for a chain that is cyclic to begin with: the
    chainer releases the predecessor and the cycle stays. *)
Lemma chainer_keeps_existing_cycle :
  exists s', @chainFaultObjects Ex.rt 1%nat 2%nat Ex.vm_cycle = Ret tt s' /\
             ~ acyclic (heap s') 1%nat.
Proof.
  eexists. split; [vm_compute; reflexivity|].
  by eapply self_loop_not_acyclic.
Qed.

(** ** C4: merging the top fault with the record beneath it *)

(** C4, as the code has it.  With a record beneath the top one,
    [chainFaults] merges exactly when both have the same [m_raiseNesting]
    and [m_raiseFrame], and returns true exactly then.  On a merge the
    fault takes [m_raiseOffset] and [m_handledCount] of the predecessor
    and replaces the top two records; the exception of the predecessor is
    written into the first free [previous] slot along the chain of the
    current exception when both chains end and share no object, and is
    released without a link otherwise.  With no record beneath, or a
    different one, the stack gets the fault back on top. *)
Theorem chainFaults_merges_same_frame {RT : Runtime} fault s :
  (forall cur, m_faults s = [cur] ->
     chainFaults fault s = Ret (false, fault) (with_faults s [fault])) /\
  (forall cur prev rest top p,
     m_faults s = cur :: prev :: rest ->
     m_userException fault = Some top -> m_userException prev = Some p ->
     wp (chainFaults fault)
        (fun r s' =>
           if (m_raiseNesting fault =? m_raiseNesting prev)
              && bool_decide (m_raiseFrame fault = m_raiseFrame prev)
           then
             let merged := mkFault (Some top) (m_raiseNesting fault)
                             (m_raiseFrame fault) (m_raiseOffset prev)
                             (m_handledCount prev) in
             r = (true, merged) /\ m_faults s' = merged :: rest /\
             ((linkable (heap s) top p /\
               exists l1 owner o,
                 prevChain (heap s) top l1 /\ last l1 = Some owner /\
                 heap s !! owner = Some o /\
                 heap s' = <[owner := set_previous o (KindOfObject p)]> (heap s) /\
                 trace s' = trace s) \/
              (~ linkable (heap s) top p /\ heap s' = heap s /\
               trace s' = trace s ++ [EvDecRefObj p]))
           else r = (false, fault) /\
                s' = with_faults s (fault :: prev :: rest))
        (fun _ _ => False) chainAborts False s).
Proof.
  split.
  - intros cur Hfs. rewrite chainFaults_unfold, Hfs. done.
  - intros cur prev rest top p Hfs Ht Hp.
    unfold wp at 1. rewrite chainFaults_unfold, Hfs.
    destruct (_ && _); [|done]. rewrite Ht, Hp. cbn zeta. apply wp_bind.
    eapply wp_mono; [apply chainFaultObjects_link|..]; try done.
    cbn beta. intros _ s1 Hs1. unfold faults_pop_back, faults_push_back.
    destruct Hs1 as [(Hlink & (l1 & owner & o & Hl1 & Hlast & Ho & ->) & _)|[Hno ->]];
      wp_auto; try discriminate; cbn in *; simplify_eq.
    + split; [done|]. split; [done|]. left. split; [done|]. by exists l1, owner, o.
    + split; [done|]. split; [done|]. by right.
Qed.

Lemma chainFaults_merges_same_frame_witness :
  wp (@chainFaults Ex.rt Ex.fault_new)
     (fun r s' => r = (true, Ex.fault_merged) /\
                  m_faults s' = [Ex.fault_merged])
     (fun _ _ => False) chainAborts False (Ex.vm_chain false).
Proof.
  eapply wp_mono;
    [exact (proj2 (@chainFaults_merges_same_frame Ex.rt Ex.fault_new
                     (Ex.vm_chain false))
              Ex.fault_new Ex.fault_old [] 8%nat 7%nat eq_refl eq_refl eq_refl)
    |..]; try done.
  cbn beta. intros r s' H. cbn in H. destruct H as (-> & -> & _). done.
Defined.

(** C4 as stated fails: the exception of the predecessor (7) does not
    become the [previous] of the current exception (8), which already has
    one (9); it is linked behind 9. *)
Lemma merge_links_at_end_of_chain :
  exists s', @chainFaults Ex.rt Ex.fault_new (Ex.vm_chain false)
               = Ret (true, Ex.fault_merged) s' /\
             prop_previous <$> heap s' !! 8%nat = Some (KindOfObject 9%nat) /\
             prop_previous <$> heap s' !! 9%nat = Some (KindOfObject 7%nat).
Proof. eexists. split; [vm_compute; reflexivity|]. split; reflexivity. Qed.

(** ** C6: the constructor guard *)

(** C6, as the code has it.  [tearDownFrame] calls [setNoDestruct] on the
    receiver exactly when the opcode at [pc] is not [RetC], the latch is
    clear, the function belongs to a class, the frame has a receiver, the
    class of the RECEIVER has this function as constructor and defines a
    destructor, and the FPI region of the caller was opened by a
    construct-prep opcode ([ctorGuardHolds]).  The call is then the first
    thing the teardown does, before the locals are released, and the
    receiver is left so that its release runs no destructor.  A frame
    that is neither resumed nor of an async function hands the exception
    it was given back to the caller, whose frame becomes the current
    one. *)
Theorem tearDownFrame_constructor_guard {RT : Runtime} e s fp ar pc :
  vmfp s = Some fp -> frames s !! fp = Some ar -> vmpc s = Some pc ->
  wp (tearDownFrame e)
     (fun e' s' =>
        exists tl, trace s' = trace s ++ tl /\
          (forall o, EvSetNoDestruct o ∈ tl <->
                     ctorGuardHolds s fp ar (getOp (pc_unit pc) (pc_off pc)) = true /\
                     m_this ar = Some o) /\
          (ctorGuardHolds s fp ar (getOp (pc_unit pc) (pc_off pc)) = true ->
           exists this o tl',
             m_this ar = Some this /\ tl = EvSetNoDestruct this :: tl' /\
             heap s' !! this = Some o /\ dtorRunsOnRelease o = false) /\
          (ctorGuardHolds s fp ar (getOp (pc_unit pc) (pc_off pc)) = false ->
           heap s' = heap s) /\
          vmfp s' = sfp ar /\
          (resumed ar = false -> isAsyncFunction (m_func ar) = false ->
           e' = e))
     (fun _ _ => False) tearDownAborts False s.
Proof.
  intros Hvm Hfp Hpc.
  eapply wp_mono; [by apply (tearDownFrame_ctor e s fp ar pc)|..]; try done.
  cbn beta. intros e' s' (tl & H1 & H2 & H3 & H4 & H5 & _ & H6).
  exists tl. done.
Qed.

Lemma tearDownFrame_constructor_guard_witness :
  wp (@tearDownFrame Ex.rt (Some 7%nat))
     (fun e' s' =>
        e' = Some 7%nat /\ vmfp s' = Some 1%nat /\
        exists tl', trace s' = EvSetNoDestruct 11%nat :: tl')
     (fun _ _ => False) tearDownAborts False Ex.vm_ctor.
Proof.
  eapply wp_mono;
    [exact (@tearDownFrame_constructor_guard Ex.rt (Some 7%nat) Ex.vm_ctor
              2%nat _ _ eq_refl eq_refl eq_refl)|..]; try done.
  cbn beta. intros e' s' (tl & Htl & _ & Hmark & _ & Hvm & He).
  destruct (Hmark eq_refl) as (this & o & tl' & Hthis & -> & _).
  injection Hthis as <-.
  split; [by apply He|]. split; [exact Hvm|]. by exists tl'.
Defined.

(** C6 as stated fails: the class the guard asks about is the class of
    the receiver, not the class the function belongs to.  The constructor
    below belongs to a class without destructor and runs on an object of a
    subclass that inherits it and defines a destructor: the guard as
    worded does not hold, and the receiver is marked all the same. *)
Lemma inherited_constructor_is_guarded :
  @spec_ctorGuardHolds Ex.rt Ex3.vm_inherited 2%nat
    (mkActRec Ex3.fctorBase (Some 1%nat) 8 (Some 11%nat) false false false)
    0%nat = false /\
  exists s' tl,
    @tearDownFrame Ex.rt (Some 7%nat) Ex3.vm_inherited = Ret (Some 7%nat) s' /\
    trace s' = EvSetNoDestruct 11%nat :: tl /\
    noDestruct <$> heap s' !! 11%nat = Some true.
Proof.
  split; [reflexivity|]. eexists _, _.
  split; [vm_compute; reflexivity|]. split; reflexivity.
Qed.

(** ** C7: a destructor that raises during the release of the locals *)

(** C7.  Whether the release of the locals of a frame raises makes no
    difference to [tearDownFrame]: its outcome with a runtime whose
    release raises as [r] says is the outcome with the same runtime and a
    release that never raises.  The teardown never lets an exception
    escape and leaves the fault stack as it was. *)
Theorem tearDownFrame_swallows_release_raise (RT : Runtime)
    (r : VM -> FrameId -> option Thrown) e s :
  @tearDownFrame (with_release_raises RT r) e s =
  @tearDownFrame (with_release_raises RT (fun _ _ => None)) e s /\
  wp (@tearDownFrame (with_release_raises RT r) e)
     (fun _ s' => m_faults s' = m_faults s)
     (fun _ _ => False) tearDownAborts False s.
Proof.
  split.
  - by rewrite !tearDownFrame_raise_irrelevant.
  - eapply wp_mono; [apply tearDownFrame_returns|..]; try done.
    cbn beta. by intros e' s' [_ Hf].
Qed.

(** ** C9: teardown for a host exception returns no exception *)

(** C9.  [tearDownFrame] called with no guest exception returns none, for
    every state, and lets no exception escape; so no run of [unwindCpp]
    stops at the assertion of line 616. *)
Theorem tearDownFrame_null_stays_null {RT : Runtime} s :
  wp (tearDownFrame None) (fun e' _ => e' = None) (fun _ _ => False)
     tearDownAborts False s /\
  forall fuel exc,
    wp (unwindCpp fuel exc) (fun _ _ => True) (fun _ _ => True)
       (fun r => r <> AssertFailed 616) True s.
Proof.
  split.
  - eapply wp_mono; [apply tearDownFrame_returns|..]; try done.
    cbn beta. by intros e' s' [[->| ->] _].
  - intros fuel exc.
    eapply wp_mono; [apply unwindCpp_no_host_assert|..]; done.
Qed.

(** ** C8: the guest faults of a frame during a host unwind *)


(** ** C10: chaining when the handler search is skipped *)

(** C10.  [unwindPhp] is entered for the fault [f] on top of the fault
    stack, in a frame for which the handler search is skipped (a host
    exception is pending, or the latch of the frame is set), and the
    fault, as lines 451-470 bind it, is of the nesting and frame of the
    record beneath it.  The chainer still runs.  The pass over the frame
    ([unwindPhp_frame], the body of the outer loop) is: the temporaries
    are discarded (for a fault that was just bound), the top record is
    taken off, [chainFaultObjects] links the two exceptions, the merged
    fault, with [m_raiseOffset] and [m_handledCount] of the record
    beneath, replaces that record, the inner loop goes on from the merged
    fault, and only then [tearDownFrame] runs.  The pass enters no
    handler, leaves the frame for its caller and leaves one record where
    there were two.  For the driver as a whole: unless a handler of a
    caller is entered, neither of the two records is left when it
    returns or throws the exception. *)
Theorem skipped_search_still_chains {RT : Runtime}
    fuel s f fb discard prev rest fp ar pc top p :
  m_faults s = f :: prev :: rest ->
  vmfp s = Some fp -> frames s !! fp = Some ar -> vmpc s = Some pc ->
  searchDisabled s = true ->
  bindFault f s = Ret (fb, discard) s ->
  m_raiseNesting fb <> kInvalidNesting -> is_Some (m_raiseFrame fb) ->
  m_raiseOffset fb <> kInvalidOffset ->
  m_raiseNesting fb = m_raiseNesting prev ->
  m_raiseFrame fb = m_raiseFrame prev ->
  m_userException fb = Some top -> m_userException prev = Some p ->
  let merged := mkFault (Some top) (m_raiseNesting fb) (m_raiseFrame fb)
                        (m_raiseOffset prev) (m_handledCount prev) in
  unwindPhp_frame f s =
    ((if discard then discardStackTemps fp (m_raiseOffset fb) else ret tt);;
     faults_pop_back;;
     chainFaultObjects top p;;
     modify (fun s1 => with_faults s1 (merged :: rest));;
     let* r := handlerLoop (S (S (length rest))) merged in
     match r with
     | None => ret (inl EnteredHandler)
     | Some fault =>
       let* e := tearDownFrame (m_userException fault) in
       match e with
       | None => faults_pop_back;; ret (inl ExceptionConsumed)
       | Some _ =>
         let fault := mkFault e kInvalidNesting None kInvalidOffset 0 in
         faults_set_back fault;; ret (inr fault)
       end
     end) s /\
  wp (unwindPhp_frame f)
     (fun r s' =>
        r <> inl EnteredHandler /\ vmfp s' = sfp ar /\
        match r with
        | inr flt =>
          flt = mkFault (Some top) kInvalidNesting None kInvalidOffset 0 /\
          head (m_faults s') = Some flt /\
          (length (m_faults s') <= S (length rest))%nat
        | inl _ => (length (m_faults s') <= length rest)%nat
        end)
     (fun x _ => raisedByPop x) notHostAssert False s /\
  wp (unwindPhp (S fuel))
     (fun r s' =>
        match r with
        | EnteredHandler => (length (m_faults s') <= S (length rest))%nat
        | ExceptionConsumed => (length (m_faults s') <= length rest)%nat
        end)
     (fun x s' =>
        raisedByPop x \/
        (x = ThrowObject (Some top) /\
         (length (m_faults s') <= length rest)%nat))
     notHostAssert True s.
Proof.
  intros Hfs Hvm Hfp Hpc Hs Hbind Hb1 Hb2 Hb3 Hn Hf Ht Hp merged.
  split; [|split].
  - by apply (unwindPhp_frame_chains s f fb discard f prev rest fp top p).
  - by apply (unwindPhp_frame_chained s f fb discard f prev rest fp ar top p).
  - by apply (unwindPhp_chained fuel s f fb discard prev rest fp ar pc top p).
Qed.

(** Scenario S5 with a host exception pending: the fault of exception 8
    is merged with the record of exception 7 beneath it although the
    [Catch] region of the frame is not searched; the driver throws
    exception 8 and leaves no record behind. *)
Lemma skipped_search_still_chains_witness :
  wp (@unwindPhp_frame Ex.rt Ex.fault_new)
     (fun r s' =>
        r <> inl EnteredHandler /\ vmfp s' = None /\
        match r with
        | inr flt =>
          flt = mkFault (Some 8%nat) (-1) None 2147483647 0 /\
          head (m_faults s') = Some flt /\
          (length (m_faults s') <= 1)%nat
        | inl _ => (length (m_faults s') <= 0)%nat
        end)
     (fun x _ => @raisedByPop Ex.rt x) notHostAssert False (Ex.vm_chain true) /\
  wp (@unwindPhp Ex.rt 1)
     (fun r s' =>
        match r with
        | EnteredHandler => (length (m_faults s') <= 1)%nat
        | ExceptionConsumed => (length (m_faults s') <= 0)%nat
        end)
     (fun x s' =>
        @raisedByPop Ex.rt x \/
        (x = ThrowObject (Some 8%nat) /\ (length (m_faults s') <= 0)%nat))
     notHostAssert True (Ex.vm_chain true).
Proof.
  apply (@skipped_search_still_chains Ex.rt 0%nat (Ex.vm_chain true)
           Ex.fault_new Ex.fault_new false Ex.fault_old [] 1%nat
           (mkActRec Ex.f1 None 0 None false false false)
           (mkPC Ex.u0 25) 8%nat 7%nat);
    try reflexivity; try discriminate.
  by eexists.
Defined.

(** * Further properties of the unwinder *)

(** ** The handler resolver *)

(** X1.  The loop of [checkHandlers] makes at most [m_handledCount + 1]
    rounds, whatever the EH table looks like, also when the parent
    indices form a cycle: with room for that many rounds it produces a
    result, and more rounds change nothing. *)
Theorem checkHandlers_rounds_bounded func eh pc fault fuel :
  (Z.to_nat (m_handledCount fault) < fuel)%nat ->
  checkHandlers_loop fuel func eh 0 pc fault = checkHandlers func eh pc fault /\
  checkHandlers func eh pc fault <> NoFuel.
Proof.
  intros Hfuel. split; [|apply checkHandlers_fuel].
  unfold checkHandlers. apply checkHandlers_loop_enough; rewrite Z.sub_0_r; lia.
Qed.

Lemma checkHandlers_rounds_bounded_witness :
  checkHandlers_loop 10 Ex2.fLoop (mkEHEnt Catch 40 0) 0 None (Ex.fault_hc 3) =
    checkHandlers Ex2.fLoop (mkEHEnt Catch 40 0) None (Ex.fault_hc 3) /\
  checkHandlers Ex2.fLoop (mkEHEnt Catch 40 0) None (Ex.fault_hc 3) <> NoFuel.
Proof.
  apply (checkHandlers_rounds_bounded Ex2.fLoop (mkEHEnt Catch 40 0) None
           (Ex.fault_hc 3) 10%nat).
  vm_compute. lia.
Defined.

(** X2.  Of the fault, [checkHandlers] changes [m_handledCount] and
    nothing else.  When it resumes, the count has gone up by one and the
    program counter is the handler of the entry it started from or of an
    entry of the function's table; when it propagates, the fault and the
    program counter are as they were. *)
Theorem checkHandlers_touches_only_count func eh pc fault act pc' fault' :
  checkHandlers func eh pc fault = Found (act, pc', fault') ->
  m_userException fault' = m_userException fault /\
  m_raiseNesting fault' = m_raiseNesting fault /\
  m_raiseFrame fault' = m_raiseFrame fault /\
  m_raiseOffset fault' = m_raiseOffset fault /\
  match act with
  | ResumeVM =>
    m_handledCount fault' = m_handledCount fault + 1 /\
    exists c, (c = eh \/ c ∈ ehtab func) /\
              pc' = unit_at (func_unit func) (m_handler c)
  | Propagate => fault' = fault /\ pc' = pc
  end.
Proof. apply checkHandlers_loop_fields. Qed.

Lemma checkHandlers_touches_only_count_witness :
  m_userException (Ex.fault_hc 2) = m_userException (Ex.fault_hc 1) /\
  m_raiseNesting (Ex.fault_hc 2) = m_raiseNesting (Ex.fault_hc 1) /\
  m_raiseFrame (Ex.fault_hc 2) = m_raiseFrame (Ex.fault_hc 1) /\
  m_raiseOffset (Ex.fault_hc 2) = m_raiseOffset (Ex.fault_hc 1) /\
  m_handledCount (Ex.fault_hc 2) = m_handledCount (Ex.fault_hc 1) + 1 /\
  exists c, (c = mkEHEnt Fault 50 0 \/ c ∈ ehtab Ex.f2) /\
            unit_at Ex.u0 40 = unit_at (func_unit Ex.f2) (m_handler c).
Proof.
  exact (checkHandlers_touches_only_count Ex.f2 (mkEHEnt Fault 50 0) None
           (Ex.fault_hc 1) ResumeVM (unit_at Ex.u0 40) (Ex.fault_hc 2) eq_refl).
Defined.

(** ** The temporary disposer *)

(** X3.  When no destructor raises and every pre-live activation record
    of a constructor call has its receiver, [discardStackTemps] returns
    after popping every element that [visitStackElems] reports, each
    once and in that order, with [popAR] for an activation record and
    [popTV] for a value.  The receivers of the constructor calls in
    flight, and no other objects, are marked no-destruct and are so at
    the end; the class-ref slots of the frame are trashed in a debug
    build only, each once from slot 0 up; registers, frames and fault
    stack are left alone. *)
Theorem discardStackTemps_pops_every_element {RT : Runtime} fp off s ar :
  frames s !! fp = Some ar ->
  (forall s0, popTV_raises s0 = None) ->
  Forall (receiverReady (heap s) (m_func ar)) (visitStackElems s fp off) ->
  exists s' tl,
    discardStackTemps fp off s = Ret tt s' /\
    trace s' = trace s ++ tl /\
    List.filter isStackPop tl = map popOf (visitStackElems s fp off) /\
    (forall o, EvSetNoDestruct o ∈ tl <->
               exists el, el ∈ visitStackElems s fp off /\
                          ctorReceiver (m_func ar) el = Some o) /\
    (forall o, EvSetNoDestruct o ∈ tl ->
               noDestruct <$> heap s' !! o = Some true) /\
    List.filter isTrash tl =
      (if debug
       then map (EvTrashClsRef fp) (seq 0 (numClsRefSlots (m_func ar)))
       else []) /\
    marksOnly s s' /\
    vmfp s' = vmfp s /\ vmpc s' = vmpc s /\ frames s' = frames s /\
    m_faults s' = m_faults s.
Proof.
  intros Hfp Hraise Hready.
  destruct (discardStackTemps_run fp off s ar Hfp Hraise Hready)
    as (s' & tl & H1 & H2 & H3 & H4 & H5 & H6 & H7 & [_ H8 H9 H10] & H11).
  by exists s', tl.
Qed.

Lemma discardStackTemps_pops_every_element_witness :
  exists s' tl,
    @discardStackTemps Ex2.rt_ctor 1%nat 6 Ex2.vm_prelive = Ret tt s' /\
    trace s' = tl /\
    List.filter isStackPop tl = [EvPopTV; EvPopAR] /\
    noDestruct <$> heap s' !! 11%nat = Some true.
Proof.
  destruct (@discardStackTemps_pops_every_element Ex2.rt_ctor 1%nat 6
              Ex2.vm_prelive _ eq_refl (fun _ => eq_refl))
    as (s' & tl & H1 & H2 & H3 & H4 & H5 & _).
  - constructor; [exact I|]. constructor; [|constructor].
    intros _. exists 11%nat. split; [reflexivity|]. by eexists.
  - exists s', tl. split; [exact H1|]. split; [exact H2|]. split; [exact H3|].
    apply H5. apply H4. exists (PreLiveAR (Some 11%nat) 4).
    split; [|reflexivity]. apply list_elem_of_further, list_elem_of_here.
Defined.

(** ** The frame tearer *)

(** X4.  [tearDownFrame] returns no exception for the frames that consume
    it: an async function that runs eagerly and was not called by
    [FCallAwait], a resumed async function, a resumed async generator;
    for every other frame it hands back the exception it was given.  No
    exception leaves it. *)
Theorem tearDownFrame_hands_back_or_consumes {RT : Runtime} e s fp ar :
  vmfp s = Some fp -> frames s !! fp = Some ar ->
  wp (tearDownFrame e)
     (fun e' _ => e' = if consumesException ar then None else e)
     (fun _ _ => False) tearDownAborts False s.
Proof.
  intros Hvm Hfp.
  eapply wp_mono; [by apply (tearDownFrame_outcome e s fp ar)|..]; try done;
    cbn beta.
  - by intros e' s' [-> _].
  - unfold tearDownAborts. intros r [->|[[-> _]| ->]]; auto.
Qed.

Lemma tearDownFrame_hands_back_or_consumes_witness :
  wp (@tearDownFrame Ex.rt (Some 7%nat)) (fun e' _ => e' = None)
     (fun _ _ => False) tearDownAborts False Ex2.vm_eager.
Proof.
  exact (@tearDownFrame_hands_back_or_consumes Ex.rt (Some 7%nat) Ex2.vm_eager
           2%nat _ eq_refl eq_refl).
Defined.

(** X5.  After [tearDownFrame] the caller of the frame is the current
    frame, and the program counter is in the caller's bytecode at the
    return offset saved in the frame plus the base of the caller's
    function; for the last frame of the nesting both are null, and only
    then is either. *)
Theorem tearDownFrame_resumes_caller {RT : Runtime} e s fp ar :
  vmfp s = Some fp -> frames s !! fp = Some ar ->
  wp (tearDownFrame e)
     (fun _ s' => vmfp s' = sfp ar /\ vmpc s' = callerPC s ar /\
                  (vmfp s' = None <-> vmpc s' = None))
     (fun _ _ => False) tearDownAborts False s.
Proof.
  intros Hvm Hfp.
  eapply wp_mono; [by apply (tearDownFrame_outcome e s fp ar)|..]; try done;
    cbn beta.
  - by intros e' s' (_ & Hvm' & Hpc' & Hnull & _).
  - unfold tearDownAborts. intros r [->|[[-> _]| ->]]; auto.
Qed.

Lemma tearDownFrame_resumes_caller_witness :
  wp (@tearDownFrame Ex.rt (Some 7%nat))
     (fun _ s' => vmfp s' = Some 1%nat /\ vmpc s' = unit_at Ex.u1 8)
     (fun _ _ => False) tearDownAborts False Ex.vm_ctor.
Proof.
  eapply wp_mono;
    [exact (@tearDownFrame_resumes_caller Ex.rt (Some 7%nat) Ex.vm_ctor
              2%nat _ eq_refl eq_refl)|..]; try done.
  cbn beta. by intros _ s' (Hvm & Hpc & _).
Defined.

(** X6.  A frame that is not resumed is popped off the evaluation stack
    exactly once: [ndiscard] of its slots, followed by [discardAR], or
    by [ret] when its exception is wrapped for an eagerly executed async
    function.  A resumed frame is not popped at all. *)
Theorem tearDownFrame_pops_frame_once {RT : Runtime} e s fp ar :
  vmfp s = Some fp -> frames s !! fp = Some ar ->
  wp (tearDownFrame e)
     (fun _ s' =>
        exists tl, trace s' = trace s ++ tl /\
          List.filter isFramePop tl =
            if resumed ar then []
            else [EvNDiscard (numSlotsInFrame (m_func ar));
                  if bool_decide (is_Some e) && consumesException ar
                  then EvRet else EvDiscardAR])
     (fun _ _ => False) tearDownAborts False s.
Proof.
  intros Hvm Hfp.
  eapply wp_mono; [by apply (tearDownFrame_outcome e s fp ar)|..]; try done;
    cbn beta.
  - by intros e' s' (_ & _ & _ & _ & Htl).
  - unfold tearDownAborts. intros r [->|[[-> _]| ->]]; auto.
Qed.

Lemma tearDownFrame_pops_frame_once_witness :
  wp (@tearDownFrame Ex.rt (Some 7%nat))
     (fun _ s' => List.filter isFramePop (trace s') = [EvNDiscard 2; EvRet])
     (fun _ _ => False) tearDownAborts False Ex2.vm_eager.
Proof.
  eapply wp_mono;
    [exact (@tearDownFrame_pops_frame_once Ex.rt (Some 7%nat) Ex2.vm_eager
              2%nat _ eq_refl eq_refl)|..]; try done.
  cbn beta. intros _ s' (tl & -> & Hpops). exact Hpops.
Defined.



(** ** The exception chainer *)

(** X8.  When the [previous] chains of the two throwables end and share
    no object, [chainFaultObjects] makes the chain of the predecessor the
    tail of the chain of the current exception: following [previous]
    from the current exception then visits its old chain and after it
    the chain of the predecessor, in their order.  The predecessor is not
    released: its reference now belongs to the link. *)
Theorem chainFaultObjects_appends_chain {RT : Runtime} top prev s l1 l2 d :
  prevChain (heap s) top l1 -> prevChain (heap s) prev l2 ->
  (forall x, x ∈ l1 -> x ∉ l2) ->
  heap s !! prev = Some d -> instanceofThrowable d = true ->
  wp (chainFaultObjects top prev)
     (fun _ s' => prevChain (heap s') top (l1 ++ l2) /\
                  trace s' = trace s /\ m_faults s' = m_faults s)
     (fun _ _ => False) chainAborts False s.
Proof.
  intros Hl1 Hl2 Hdis Hd Hthr.
  eapply wp_mono; [apply chainFaultObjects_run|..]; try done. cbn beta.
  intros _ s' [(l1' & l2' & owner & o & Hl1' & Hl2' & _ & _ & _ & Hs' & _ & _ & Hcat)
              |[Hno _]].
  - rewrite (prevChain_det _ _ _ Hl1 _ Hl1'), (prevChain_det _ _ _ Hl2 _ Hl2').
    split; [by eapply Hcat|]. by rewrite Hs'.
  - exfalso. apply Hno. by exists l1, l2.
Qed.

Lemma chainFaultObjects_appends_chain_witness :
  wp (@chainFaultObjects Ex.rt 8%nat 7%nat)
     (fun _ s' => prevChain (heap s') 8%nat [8; 9; 7]%nat)
     (fun _ _ => False) chainAborts False (Ex.vm_chain false).
Proof.
  eapply wp_mono;
    [apply (@chainFaultObjects_appends_chain Ex.rt 8%nat 7%nat
              (Ex.vm_chain false) [8; 9]%nat [7%nat] (Ex.exnObj KindOfNull))
    |..]; try done.
  - eapply prevChain_step; [reflexivity|reflexivity|].
    eapply prevChain_end; reflexivity.
  - eapply prevChain_end; reflexivity.
  - intros x Hx Hx7. apply list_elem_of_singleton in Hx7 as ->.
    repeat (apply elem_of_cons in Hx as [Hx|Hx]; [discriminate|]).
    by apply elem_of_nil in Hx.
  - cbn beta. by intros _ s' [H _].
Defined.

(** X9.  An exception is never linked behind a throwable that its own
    [previous] chain already contains, itself included: the chainer
    releases the predecessor and writes to no object. *)
Theorem chainFaultObjects_refuses_shared {RT : Runtime} top prev s l1 :
  prevChain (heap s) top l1 -> prev ∈ l1 ->
  wp (chainFaultObjects top prev)
     (fun _ s' => s' = with_trace s (trace s ++ [EvDecRefObj prev]))
     (fun _ _ => False) chainAborts False s.
Proof.
  intros Hl1 Hin.
  eapply wp_mono; [apply chainFaultObjects_link|..]; try done. cbn beta.
  intros _ s' [[(l1' & l2' & Hl1' & Hl2' & Hdis) _]|[_ ->]]; [|done].
  exfalso. rewrite <- (prevChain_det _ _ _ Hl1 _ Hl1') in Hdis.
  apply (Hdis prev Hin). destruct (prevChain_head _ _ _ Hl2') as [l' ->].
  apply list_elem_of_here.
Qed.

Lemma chainFaultObjects_refuses_shared_witness :
  wp (@chainFaultObjects Ex.rt 8%nat 9%nat)
     (fun _ s' => s' = with_trace (Ex.vm_chain false) [EvDecRefObj 9%nat])
     (fun _ _ => False) chainAborts False (Ex.vm_chain false).
Proof.
  apply (@chainFaultObjects_refuses_shared Ex.rt 8%nat 9%nat
           (Ex.vm_chain false) [8; 9]%nat).
  - eapply prevChain_step; [reflexivity|reflexivity|].
    eapply prevChain_end; reflexivity.
  - apply list_elem_of_further, list_elem_of_here.
Defined.

(** X23.  Whatever [chainFaults] does, the record on top of the fault
    stack afterwards is the fault it hands back to its caller, with the
    exception, the raise nesting and the raise frame of the fault that
    was passed in.  When it reports a merge the stack has lost exactly
    one record; when it reports none, the stack is as long as it was and
    the fault comes back unchanged.  It lets no exception escape. *)
Theorem chainFaults_writes_back {RT : Runtime} f s :
  wp (chainFaults f)
     (fun r s' =>
        head (m_faults s') = Some (snd r) /\
        m_userException (snd r) = m_userException f /\
        m_raiseNesting (snd r) = m_raiseNesting f /\
        m_raiseFrame (snd r) = m_raiseFrame f /\
        (if fst r
         then S (length (m_faults s')) = length (m_faults s)
         else length (m_faults s') = length (m_faults s) /\ snd r = f))
     (fun _ _ => False)
     (fun r => r = AssertFailed 381 \/ chainAborts r) False s.
Proof. apply chainFaults_top. Qed.

(** ** The guest driver *)

(** X10.  [unwindPhp] never makes the fault stack longer.  When it leaves
    without entering a handler (the exception was consumed, or it is
    thrown on at the end of the frame chain) the stack is shorter than it
    was; when it enters a handler the stack is not empty.  Only an
    exception that [popTV] raised can leave with the stack as long as it
    was. *)
Theorem unwindPhp_fault_stack_shrinks {RT : Runtime} fuel s :
  wp (unwindPhp fuel)
     (fun r s' =>
        (length (m_faults s') <= length (m_faults s))%nat /\
        match r with
        | EnteredHandler => m_faults s' <> []
        | ExceptionConsumed =>
          (length (m_faults s') < length (m_faults s))%nat
        end)
     (fun x s' =>
        (length (m_faults s') <= length (m_faults s))%nat /\
        ((length (m_faults s') < length (m_faults s))%nat \/ raisedByPop x))
     notHostAssert True s.
Proof.
  eapply wp_mono; [apply unwindPhp_exits|..]; try done; cbn beta.
  - intros r s' [Hlen (f & _ & Hr)]. split; [done|]. destruct r; [|done].
    by destruct Hr as (f' & rest' & -> & _).
  - intros x s' [Hlen [(f & e & _ & _ & _ & _ & _ & Hlt)|Hx]]; auto.
Qed.

(** X11.  The exception [unwindPhp] works on is the one of the record on
    top of the fault stack when it is called, from start to end: when a
    handler is entered the record on top carries that exception, and
    what is thrown at the end of the frame chain, with no frame and no
    program counter left, is that exception, which is not null.  Any
    other exception that leaves was raised by [popTV]. *)
Theorem unwindPhp_rethrows_its_exception {RT : Runtime} fuel s :
  wp (unwindPhp fuel)
     (fun r s' =>
        exists f, head (m_faults s) = Some f /\
          (r = EnteredHandler ->
           exists f', head (m_faults s') = Some f' /\
                      m_userException f' = m_userException f))
     (fun x s' =>
        (exists f e, head (m_faults s) = Some f /\
           m_userException f = Some e /\ x = ThrowObject (Some e) /\
           vmfp s' = None /\ vmpc s' = None) \/
        raisedByPop x)
     notHostAssert True s.
Proof.
  eapply wp_mono; [apply unwindPhp_exits|..]; try done; cbn beta.
  - intros r s' [_ (f & Hf & Hr)]. exists f. split; [done|]. intros ->.
    destruct Hr as (f' & rest' & -> & He). by exists f'.
  - intros x s' [_ [(f & e & ? & ? & ? & ? & ? & _)|Hx]]; [left|by right].
    by exists f, e.
Qed.

(** X12.  [unwindPhp] terminates: with room for as many rounds of the
    outer loop as there are frames on the chain of callers, the run ends
    in a return, a throw or a stop, and not for lack of rounds.  The inner
    loop needs no bound of its own, every merge shortens the fault
    stack. *)
Theorem unwindPhp_terminates {RT : Runtime} fuel s n :
  frameDepth (frames s) (vmfp s) (S n) -> (n < fuel)%nat ->
  wp (unwindPhp fuel) (fun _ _ => True) (fun _ _ => True) notHostAssert
     False s.
Proof.
  intros Hd Hn. eapply wp_mono; [by eapply unwindPhp_fuel|..]; done.
Qed.

Lemma unwindPhp_terminates_witness :
  wp (@unwindPhp Ex.rt 1) (fun _ _ => True) (fun _ _ => True) notHostAssert
     False (Ex.vm_handler false).
Proof.
  apply (@unwindPhp_terminates Ex.rt 1%nat (Ex.vm_handler false) 0%nat).
  - eapply frameDepth_frame; [reflexivity|]. apply frameDepth_null.
  - lia.
Defined.





(** X16.  The overload of [unwindPhp] that takes an exception object is
    undefined when the object is null.
    With an exception it pushes one record for it and runs [unwindPhp]:
    unless a handler is entered, that record is gone from the fault
    stack afterwards, which is then no longer than before the call; when
    a handler is entered the record on top carries the exception, above
    no more records than there were.  What is thrown at the end of the
    frame chain is the exception that was passed in. *)
Theorem unwindPhp_obj_accounts {RT : Runtime} fuel s :
  unwindPhp_obj fuel None s = Abort UndefinedBehaviour /\
  forall e,
    wp (unwindPhp_obj fuel (Some e))
       (fun r s' =>
          match r with
          | EnteredHandler =>
            exists f' rest', m_faults s' = f' :: rest' /\
              m_userException f' = Some e /\
              (length rest' <= length (m_faults s))%nat
          | ExceptionConsumed =>
            (length (m_faults s') <= length (m_faults s))%nat
          end)
       (fun x s' =>
          (x = ThrowObject (Some e) /\ vmfp s' = None /\ vmpc s' = None /\
           (length (m_faults s') <= length (m_faults s))%nat) \/
          (raisedByPop x /\
           (length (m_faults s') <= S (length (m_faults s)))%nat))
       notHostAssert True s.
Proof. split; [done|]. intros e. apply unwindPhp_obj_exits. Qed.

(** ** The host driver *)

(** X17.  [unwindCpp] only pops the fault stack: on every exit the stack
    is what is left of the stack at entry after some records have been
    taken off its top; no record is pushed or rewritten. *)
Theorem unwindCpp_only_pops_faults {RT : Runtime} fuel exc s :
  wp (unwindCpp fuel exc)
     (fun _ s' => m_faults s' `suffix_of` m_faults s)
     (fun _ s' => m_faults s' `suffix_of` m_faults s)
     notHostAssert True s.
Proof.
  eapply wp_mono; [apply hostKeeps_unwindCpp|..]; try done; cbn beta.
  - by intros r s' [H _].
  - by intros x s' [[H _] _].
Qed.

(** X19.  [unwindCpp] never returns: it leaves by throwing.  What it
    throws is the host exception it was given, and then no frame and no
    program counter are left, or an exception that [popTV] raised while
    the temporaries of a frame were discarded; either way the flag
    [m_unwindingCppException] is clear again. *)
Theorem unwindCpp_leaves_by_throwing {RT : Runtime} fuel exc s :
  wp (unwindCpp fuel exc) (fun _ _ => False)
     (fun x s' =>
        (x = ThrowCpp exc /\ vmfp s' = None /\ vmpc s' = None /\
         m_unwindingCppException s' = false) \/
        (raisedByPop x /\ m_unwindingCppException s' = false))
     notHostAssert True s.
Proof. apply unwindCpp_end. Qed.

(** X24.  What the loop of lines 604-609 drops for a frame: the records
    that are pinned to the frame (same [m_raiseFrame], [m_raiseNesting]
    equal to the current nesting) and lie in one run from the top of the
    fault stack down.  Each is released and popped; the loop stops at the
    first record that is not pinned and looks at nothing beneath it.  The
    temporaries of the frame are discarded after that, and then the frame
    is torn down. *)
Theorem unwindCpp_releases_top_run {RT : Runtime} s fp ar pc :
  vmfp s = Some fp -> frames s !! fp = Some ar -> vmpc s = Some pc ->
  Forall (fun f => is_Some (m_userException f))
         (pinnedRun fp (m_nestedVMs_size s) (m_faults s)) ->
  let dropped := pinnedRun fp (m_nestedVMs_size s) (m_faults s) in
  let kept := afterPinnedRun fp (m_nestedVMs_size s) (m_faults s) in
  m_faults s = dropped ++ kept /\
  Forall (fun f => faultPinned fp (m_nestedVMs_size s) f = true) dropped /\
  (forall f rest, kept = f :: rest ->
                  faultPinned fp (m_nestedVMs_size s) f = false) /\
  unwindCpp_frame s =
  bind (discardStackTemps fp (pc_off pc))
       (fun _ => let* phpException := tearDownFrame None in
                 assertx (bool_decide (phpException = None)) 616)
       (with_trace (with_faults s kept) (trace s ++ decRefEvents dropped)).
Proof.
  intros Hvm Hfp Hpc Hex dropped kept.
  destruct (pinnedRun_split fp (m_nestedVMs_size s) (m_faults s)) as [Hsplit Hpin].
  split; [done|]. split; [done|]. split; [by apply afterPinnedRun_head|].
  unfold unwindCpp_frame.
  unfold bind at 1, gets at 1. rewrite Hvm. unfold bind at 1. cbn [deref ret].
  unfold bind at 1, getFrame, bind at 1, gets at 1. rewrite Hfp. cbn [deref ret].
  unfold bind at 1, gets at 1. rewrite Hpc.
  unfold bind at 1, offsetOf, bind at 1. cbn [deref ret].
  unfold bind at 1, gets at 1. unfold bind at 1.
  by rewrite (discardFrameFaults_run fp (m_faults s) s eq_refl Hex).
Qed.

Lemma unwindCpp_releases_top_run_witness :
  m_faults (Ex.vm_host [Ex.fault_pinned; Ex.fault_reset])
    = [Ex.fault_pinned] ++ [Ex.fault_reset] /\
  @unwindCpp_frame Ex.rt (Ex.vm_host [Ex.fault_pinned; Ex.fault_reset]) =
  bind (@discardStackTemps Ex.rt 2%nat 3)
       (fun _ => let* phpException := @tearDownFrame Ex.rt None in
                 @assertx Ex.rt (bool_decide (phpException = None)) 616)
       (with_trace (Ex.vm_host [Ex.fault_reset]) [EvDecRefObj 7%nat]).
Proof.
  pose proof (@unwindCpp_releases_top_run Ex.rt
                (Ex.vm_host [Ex.fault_pinned; Ex.fault_reset]) 2%nat _ _
                eq_refl eq_refl eq_refl) as H.
  cbn zeta in H. destruct H as (H1 & _ & _ & H2).
  - repeat constructor; by eexists.
  - split; [exact H1|exact H2].
Defined.

(** X22.  Given room for one round per frame, [unwindCpp] pops the
    frames of the chain of callers off the evaluation stack one after
    the other, the innermost first and each exactly once, by [ndiscard]
    of its slots and [discardAR]; a resumed frame is not popped.  It ends
    by throwing the host exception with no frame left; only an exception
    that [popTV] raised can end it earlier, with a frame still
    current. *)
Theorem unwindCpp_pops_the_frame_chain {RT : Runtime} fuel exc s l :
  frameChain (frames s) (vmfp s) l -> l <> [] -> (length l <= fuel)%nat ->
  wp (unwindCpp fuel exc) (fun _ _ => False)
     (fun x s' =>
        (x = ThrowCpp exc /\ vmfp s' = None /\
         exists tl, trace s' = trace s ++ tl /\
                    List.filter isFramePop tl = flat_map framePops l) \/
        (raisedByPop x /\ is_Some (vmfp s')))
     notHostAssert False s.
Proof. apply unwindCpp_pops. Qed.

Lemma unwindCpp_pops_the_frame_chain_witness :
  wp (@unwindCpp Ex.rt 2 0) (fun _ _ => False)
     (fun x s' =>
        (x = ThrowCpp 0 /\ vmfp s' = None /\
         List.filter isFramePop (trace s') =
           [EvNDiscard 3; EvDiscardAR; EvNDiscard 2; EvDiscardAR]) \/
        (@raisedByPop Ex.rt x /\ is_Some (vmfp s')))
     notHostAssert False Ex.vm_ctor.
Proof.
  eapply wp_mono;
    [apply (@unwindCpp_pops_the_frame_chain Ex.rt 2%nat 0%nat Ex.vm_ctor
              [(2%nat, mkActRec Ex.fctor (Some 1%nat) 8 (Some 11%nat) false false false);
               (1%nat, mkActRec Ex.fcaller None 0 None false false false)])
    |..]; try done.
  - eapply frameChain_frame; [reflexivity|].
    eapply frameChain_frame; [reflexivity|]. apply frameChain_null.
  - cbn beta. intros x s' [(-> & Hvm & tl & -> & Hpops)|H]; [left|by right].
    done.
Defined.

(** ** What the drivers check on entry *)

(** X21.  What the drivers check on entry.  With an empty fault stack
    [unwindPhp] stops at its assertion in a debug build and is undefined
    otherwise ([back()] of an empty vector), and [chainFaults] stops at
    its [always_assert] in every build.  [unwindCpp] is not re-entrant:
    called with the flag [m_unwindingCppException] set it stops at its
    assertion in a debug build.  A fault with an unbound raise offset
    but a bound raise nesting stops [unwindPhp] at the [always_assert]
    of line 459 in every build. *)
Theorem entry_checks {RT : Runtime} fuel exc fault s :
  (m_faults s = [] ->
   unwindPhp fuel s =
     Abort (if debug then AssertFailed 436 else UndefinedBehaviour)) /\
  (m_faults s = [] -> chainFaults fault s = Abort (AssertFailed 381)) /\
  (debug = true -> m_unwindingCppException s = true ->
   unwindCpp fuel exc s = Abort (AssertFailed 581)) /\
  (forall f rest pc,
     m_faults s = f :: rest -> vmpc s = Some pc ->
     m_raiseOffset f = kInvalidOffset ->
     m_raiseNesting f <> kInvalidNesting ->
     unwindPhp (S fuel) s = Abort (AssertFailed 459)).
Proof.
  split; [|split; [|split]].
  - intros Hfs. unfold unwindPhp, bind, gets, assertx. rewrite Hfs. cbn.
    by destruct debug.
  - intros Hfs. by rewrite chainFaults_unfold, Hfs.
  - intros Hd Hflag. unfold unwindCpp, bind, gets, assertx.
    by rewrite Hd, Hflag.
  - intros f rest pc Hfs Hpc Hoff Hn.
    rewrite (unwindPhp_unfold _ s f rest pc) by done.
    unfold bind at 1, discardMemberTVRefs, bind at 1, peek_op, bind at 1.
    cbn [deref ret]. apply Z.eqb_neq in Hn.
    destruct (_ || _); cbn [emit modify ret unwindPhp_loop];
      unfold bind at 1, unwindPhp_frame, bind at 1, bindFault;
      rewrite Hoff, Z.eqb_refl, Hn; reflexivity.
Qed.

Lemma entry_checks_witness :
  @unwindPhp Ex.rt 1 Ex.vm_cycle = Abort (AssertFailed 436) /\
  @chainFaults Ex.rt Ex.fault_new Ex.vm_cycle = Abort (AssertFailed 381) /\
  @unwindCpp Ex.rt 1 0 (Ex.vm_handler false) = Abort (AssertFailed 581).
Proof.
  pose proof (@entry_checks Ex.rt 1%nat 0%nat Ex.fault_new Ex.vm_cycle)
    as (H1 & H2 & _).
  pose proof (@entry_checks Ex.rt 1%nat 0%nat Ex.fault_new (Ex.vm_handler false))
    as (_ & _ & H3 & _).
  split; [exact (H1 eq_refl)|]. split; [exact (H2 eq_refl)|].
  exact (H3 eq_refl eq_refl).
Defined.

